(** * Wire-harness analysis: a shallow embedding of [harness_analyzer.py]
      and of the hierarchy-aware [HarnessAnalyzer] of [gui.py]

    Numbers.  The Python code computes on binary floating point.  Here the
    input data (lengths, the AWG table) are exact rationals [Q], and what
    needs [sqrt] and [pi] (areas, diameters, utilization, complexity) lives in
    the real numbers [R]: every statement below is about the exact-arithmetic
    reading of the code, except where it names [B64], the hierarchy branch
    in binary64, which shows where rounding makes the code differ.

    Graphs.  [networkx.Graph] keeps two insertion-ordered dictionaries with
    the same keys, [_node] and [_adj]; one ordered table holds both here.
    Orders matter: they fix the orientation under which [edges()] reports an
    edge and the order in which the depth-first search meets neighbours. *)

From Stdlib Require Import ZArith QArith Qreals Reals Lia Lra Psatz.
From Stdlib Require PrimFloat.
From stdpp Require Import gmap strings list.

Abbreviation node := string.

(** ** Outcomes of a call *)

Inductive exn : Set :=
| NetworkXError | NodeNotFound | NetworkXNoPath | KeyError | ValueError
| AttributeError.

(** [OutOfFuel] is not a Python outcome: it marks a run of a fuelled loop
    that was cut short; the fuel chosen by each entry point is shown to be
    enough. *)
Inductive result (A : Type) : Type :=
| Ret (a : A)
| Raise (e : exn)
| OutOfFuel.
Arguments Ret {A} a.
Arguments Raise {A} e.
Arguments OutOfFuel {A}.

Definition rbind {A B : Type} (m : result A) (k : A -> result B) : result B :=
  match m with
  | Ret a => k a
  | Raise e => Raise e
  | OutOfFuel => OutOfFuel
  end.

#[global] Instance result_bind : MBind result := fun A B k m => rbind m k.
#[global] Instance result_ret : MRet result := fun A a => Ret a.

(** A [for] loop over [l] whose body may raise. *)
Fixpoint for_each {A S : Type} (body : S -> A -> result S) (l : list A) (s : S)
  : result S :=
  match l with
  | [] => Ret s
  | x :: l' => rbind (body s x) (for_each body l')
  end.

(** ** Insertion-ordered dictionaries *)

Module OD.
Section ordered_dict.
Context {K V : Type} `{EqDecision K}.

Fixpoint get (k : K) (d : list (K * V)) : option V :=
  match d with
  | [] => None
  | (k', v) :: d' => if decide (k = k') then Some v else get k d'
  end.

(** [d[k] = v]: an existing key keeps its place, a new one goes last. *)
Fixpoint set (k : K) (v : V) (d : list (K * V)) : list (K * V) :=
  match d with
  | [] => [(k, v)]
  | (k', v') :: d' =>
      if decide (k = k') then (k, v) :: d' else (k', v') :: set k v d'
  end.

Definition keys (d : list (K * V)) : list K := d.*1.
Definition mem (k : K) (d : list (K * V)) : bool := bool_decide (k ∈ keys d).
End ordered_dict.
End OD.

(** ** The graph model *)

Record NodeAttr : Type := mkNodeAttr {
  n_type : option string;
  n_position : option (Q * Q);
  n_parent : option string
}.

Record EdgeAttr : Type := mkEdgeAttr {
  e_wire_type : option string;
  e_gauge : option Z;
  e_length : Q;
  e_signals : option (list string)
}.

#[global] Instance Q_eq_dec : EqDecision Q.
Proof. solve_decision. Defined.
#[global] Instance EdgeAttr_eq_dec : EqDecision EdgeAttr.
Proof. solve_decision. Defined.

Record entry : Type := mkEntry {
  attrs : NodeAttr;
  nbrs : list (node * EdgeAttr)
}.

Definition Graph : Type := list (node * entry).

Definition empty_graph : Graph := [].
Definition no_attr : NodeAttr := mkNodeAttr None None None.

Definition or_else {A : Type} (new old : option A) : option A :=
  match new with Some _ => new | None => old end.

(** [dict.update] on attribute dictionaries. *)
Definition update_node_attr (old new : NodeAttr) : NodeAttr :=
  mkNodeAttr (or_else (n_type new) (n_type old))
             (or_else (n_position new) (n_position old))
             (or_else (n_parent new) (n_parent old)).

Definition update_edge_attr (old : option EdgeAttr) (new : EdgeAttr) : EdgeAttr :=
  match old with
  | None => new
  | Some o => mkEdgeAttr (or_else (e_wire_type new) (e_wire_type o))
                         (or_else (e_gauge new) (e_gauge o))
                         (e_length new)
                         (or_else (e_signals new) (e_signals o))
  end.

Definition has_node (g : Graph) (n : node) : bool := OD.mem n g.

Definition add_node (g : Graph) (n : node) (a : NodeAttr) : Graph :=
  match OD.get n g with
  | None => OD.set n (mkEntry a []) g
  | Some en => OD.set n (mkEntry (update_node_attr (attrs en) a) (nbrs en)) g
  end.

Definition set_nbr (g : Graph) (u v : node) (a : EdgeAttr) : Graph :=
  match OD.get u g with
  | None => g
  | Some en => OD.set u (mkEntry (attrs en) (OD.set v a (nbrs en))) g
  end.

Definition get_edge (g : Graph) (u v : node) : option EdgeAttr :=
  en ← OD.get u g; OD.get v (nbrs en).

Definition add_edge (g : Graph) (u v : node) (a : EdgeAttr) : Graph :=
  let g := if has_node g u then g else add_node g u no_attr in
  let g := if has_node g v then g else add_node g v no_attr in
  let datadict := update_edge_attr (get_edge g u v) a in
  set_nbr (set_nbr g u v datadict) v u datadict.

Definition add_nodes_from (g : Graph) (l : list (node * NodeAttr)) : Graph :=
  fold_left (fun g na => add_node g na.1 na.2) l g.

Definition add_edges_from (g : Graph) (l : list (node * node * EdgeAttr)) : Graph :=
  fold_left (fun g e => add_edge g e.1.1 e.1.2 e.2) l g.

(** [G.has_edge(u, v)] *)
Definition has_edge (g : Graph) (u v : node) : bool :=
  match get_edge g u v with Some _ => true | None => false end.

(** [G.neighbors(n)], which raises [NetworkXError] on a node the graph
    does not have. *)
Definition neighbors (g : Graph) (n : node) : result (list node) :=
  match OD.get n g with
  | None => Raise NetworkXError
  | Some en => Ret (OD.keys (nbrs en))
  end.

(** [G.edges(data=True)]: nodes in insertion order, and under each node its
    neighbours in insertion order, leaving out the neighbours already
    handled as nodes; so every edge is reported once, keyed from the
    endpoint that comes first among the nodes. *)
Fixpoint edges_from (g : list (node * entry)) (done : list node)
  : list (node * node * EdgeAttr) :=
  match g with
  | [] => []
  | (n, en) :: g' =>
      omap (fun va : node * EdgeAttr =>
              if bool_decide (va.1 ∈ done) then None else Some (n, va.1, va.2))
           (nbrs en)
      ++ edges_from g' (n :: done)
  end.

Definition edges (g : Graph) : list (node * node * EdgeAttr) := edges_from g [].

Definition number_of_nodes (g : Graph) : nat := length g.
Definition number_of_edges (g : Graph) : nat := length (edges g).

(** The graphs the analyzers work on: keys are unique, and every neighbour
    is a node whose own table points back with the same attributes. *)
Definition wf_entry (g : Graph) (n : node) (en : entry) : bool :=
  bool_decide (NoDup (OD.keys (nbrs en)))
  && forallb (fun va : node * EdgeAttr =>
                bool_decide (get_edge g va.1 n = Some va.2)) (nbrs en).

Definition wf_graph (g : Graph) : bool :=
  bool_decide (NoDup (OD.keys g))
  && forallb (fun ne : node * entry => wf_entry g ne.1 ne.2) g.

(** ** Sample data ([load_sample_data]) *)

Definition mk_node (ty : string) (x y : Q) : NodeAttr :=
  mkNodeAttr (Some ty) (Some (x, y)) None.
Definition mk_sub_node (ty : string) (x y : Q) (parent : string) : NodeAttr :=
  mkNodeAttr (Some ty) (Some (x, y)) (Some parent).
Definition mk_edge (wt : string) (ga : Z) (len : Q) (sigs : list string) : EdgeAttr :=
  mkEdgeAttr (Some wt) (Some ga) len (Some sigs).

Definition sample_nodes : list (node * NodeAttr) :=
  [ ("ECU", mk_node "controller" 0 0);
    ("Sensor1", mk_node "sensor" 2 1);
    ("Sensor2", mk_node "sensor" 3 (-1));
    ("Actuator1", mk_node "actuator" 4 2);
    ("Actuator2", mk_node "actuator" 5 0);
    ("Junction1", mk_node "junction" 1 0);
    ("Junction2", mk_node "junction" 3 0) ].

Definition sample_edges : list (node * node * EdgeAttr) :=
  [ ("ECU", "Junction1", mk_edge "power" 18 0.5 ["CAN_H"; "CAN_L"]);
    ("Junction1", "Sensor1", mk_edge "signal" 22 1.2 ["Analog"]);
    ("Junction1", "Junction2", mk_edge "power" 20 2.0 ["CAN_H"; "CAN_L"]);
    ("Junction2", "Sensor2", mk_edge "signal" 22 1.0 ["Digital"]);
    ("Junction2", "Actuator1", mk_edge "power" 16 1.5 ["PWM"]);
    ("Junction2", "Actuator2", mk_edge "power" 16 2.1 ["PWM"]) ].

Definition sub_nodes : list (node * NodeAttr) :=
  [ ("SubJunction1", mk_sub_node "sub_junction" 1.5 0.5 "Junction1");
    ("SubJunction2", mk_sub_node "sub_junction" 3.5 (-0.5) "Junction2");
    ("Sensor3", mk_node "sensor" 2 0.5);
    ("Sensor4", mk_node "sensor" 4 (-1)) ].

Definition sub_edges : list (node * node * EdgeAttr) :=
  [ ("Junction1", "SubJunction1", mk_edge "signal" 20 0.8 ["I2C_SDA"; "I2C_SCL"]);
    ("SubJunction1", "Sensor3", mk_edge "signal" 24 0.6 ["I2C_SDA"; "I2C_SCL"]);
    ("Junction2", "SubJunction2", mk_edge "signal" 20 0.7 ["Serial_TX"; "Serial_RX"]);
    ("SubJunction2", "Sensor4", mk_edge "signal" 24 0.5 ["Serial_TX"; "Serial_RX"]) ].

(** [harness_analyzer.py]: the 7-node, 6-edge harness. *)
Definition load_sample_data : Graph :=
  add_edges_from (add_nodes_from empty_graph sample_nodes) sample_edges.

(** [gui.py]: the same, with the sub-junction branches on request. *)
Definition load_sample_data_sub (include_sub_junctions : bool) : Graph :=
  let nodes := if include_sub_junctions then sample_nodes ++ sub_nodes else sample_nodes in
  let edges := if include_sub_junctions then sample_edges ++ sub_edges else sample_edges in
  add_edges_from (add_nodes_from empty_graph nodes) edges.

(** ** Total length *)

(** [sum(...)] starts from [0] and adds from the left. *)
Definition qsum (l : list Q) : Q := fold_left Qplus l 0%Q.

Definition calculate_total_length (g : Graph) : Q :=
  qsum (map (fun e : node * node * EdgeAttr => e_length e.2) (edges g)).

(** ** Shortest paths: [networkx]'s Dijkstra as [find_optimal_path] calls it *)

(** A Python float that may be [float('inf')]. *)
Inductive weight : Type := Finite (q : Q) | PosInf.

Definition Qltb (a b : Q) : bool :=
  match (a ?= b)%Q with Lt => true | _ => false end.

(** An entry of the priority queue: [(distance, count, node)]. *)
Definition item : Type := Q * nat * node.

(** Tuple comparison: the distance decides, then the count. *)
Definition item_ltb (a b : item) : bool :=
  Qltb a.1.1 b.1.1 || (Qeq_bool a.1.1 b.1.1 && (a.1.2 <? b.1.2)%nat).

(** [heappop]: the least entry and what is left.  Counts are distinct, so
    the least entry is unique and the heap's layout does not show. *)
Fixpoint heappop (h : list item) : option (item * list item) :=
  match h with
  | [] => None
  | x :: h' =>
      match heappop h' with
      | None => Some (x, [])
      | Some (m, r) => if item_ltb m x then Some (m, x :: r) else Some (x, h')
      end
  end.

Record dijkstra_state : Type := mkDijkstra {
  dist : gmap node Q;
  seen : gmap node Q;
  fringe : list item;
  count : nat;
  paths : option (gmap node (list node))
}.

Definition push_node (v u : node) (vu_dist : Q) (st : dijkstra_state) : dijkstra_state :=
  mkDijkstra (dist st)
             (<[u := vu_dist]> (seen st))
             ((vu_dist, count st, u) :: fringe st)
             (S (count st))
             (match paths st with
              | None => None
              | Some ps => Some (<[u := default [] (ps !! v) ++ [u]]> ps)
              end).

(** The body of [for u, e in G_succ[v].items()], with [weight] the
    [length] attribute, no [cutoff] and no [pred]. *)
Definition relax (v : node) (st : dijkstra_state) (ue : node * EdgeAttr)
  : result dijkstra_state :=
  let u := ue.1 in
  let cost := e_length ue.2 in
  match dist st !! v with
  | None => Raise KeyError
  | Some dv =>
      let vu_dist := (dv + cost)%Q in
      match dist st !! u with
      | Some u_dist =>
          if Qltb vu_dist u_dist then Raise ValueError else Ret st
      | None =>
          match seen st !! u with
          | None => Ret (push_node v u vu_dist st)
          | Some su =>
              if Qltb vu_dist su then Ret (push_node v u vu_dist st) else Ret st
          end
      end
  end.

(** The [while fringe] loop of [_dijkstra_multisource]. *)
Fixpoint dijkstra_loop (fuel : nat) (g : Graph) (target : node) (st : dijkstra_state)
  : result dijkstra_state :=
  match fuel with
  | O => OutOfFuel
  | S fuel' =>
      match heappop (fringe st) with
      | None => Ret st
      | Some ((d, _, v), rest) =>
          let st := mkDijkstra (dist st) (seen st) rest (count st) (paths st) in
          if bool_decide (v ∈ dom (dist st)) then dijkstra_loop fuel' g target st
          else
            let st := mkDijkstra (<[v := d]> (dist st)) (seen st) (fringe st)
                                 (count st) (paths st) in
            if bool_decide (v = target) then Ret st
            else
              match OD.get v g with
              | None => Raise KeyError
              | Some en =>
                  rbind (for_each (relax v) (nbrs en) st) (dijkstra_loop fuel' g target)
              end
      end
  end.

(** Every pass pops one entry, and an entry is pushed at most once for the
    source and once for each neighbour slot of a node when that node is
    settled. *)
Definition dijkstra_fuel (g : Graph) : nat :=
  2 + sum_list (map (fun ne : node * entry => length (nbrs ne.2)) g).

Definition _dijkstra_multisource (g : Graph) (source target : node) (with_paths : bool)
  : result dijkstra_state :=
  dijkstra_loop (dijkstra_fuel g) g target
    (mkDijkstra ∅ {[ source := 0%Q ]} [(0%Q, O, source)] 1
                (if with_paths then Some {[ source := [source] ]} else None)).

(** [nx.dijkstra_path], through [single_source_dijkstra] and
    [multi_source_dijkstra]. *)
Definition dijkstra_path (g : Graph) (source target : node) : result (list node) :=
  if negb (has_node g source) then Raise NodeNotFound
  else if bool_decide (target = source) then Ret [target]
  else
    st ← _dijkstra_multisource g source target true;
    match dist st !! target, paths st ≫= (.!! target) with
    | Some _, Some p => Ret p
    | _, _ => Raise NetworkXNoPath
    end.

(** [nx.dijkstra_path_length] *)
Definition dijkstra_path_length (g : Graph) (source target : node) : result Q :=
  if negb (has_node g source) then Raise NodeNotFound
  else if bool_decide (source = target) then Ret 0%Q
  else
    st ← _dijkstra_multisource g source target false;
    match dist st !! target with
    | Some d => Ret d
    | None => Raise NetworkXNoPath
    end.

(** [find_optimal_path] (the same text in both files): only
    [NetworkXNoPath] is caught. *)
Definition find_optimal_path (g : Graph) (source target : node)
  : result (option (list node) * weight) :=
  match dijkstra_path g source target with
  | Raise NetworkXNoPath => Ret (None, PosInf)
  | Raise e => Raise e
  | OutOfFuel => OutOfFuel
  | Ret path =>
      match dijkstra_path_length g source target with
      | Raise NetworkXNoPath => Ret (None, PosInf)
      | Raise e => Raise e
      | OutOfFuel => OutOfFuel
      | Ret len => Ret (Some path, Finite len)
      end
  end.

(** ** Areas and diameters *)

Open Scope R_scope.

(** The AWG table, millimetres. *)
Definition gauge_to_diameter (gauge : Z) : option Q :=
  if (gauge =? 16)%Z then Some 1.29%Q
  else if (gauge =? 18)%Z then Some 1.02%Q
  else if (gauge =? 20)%Z then Some 0.81%Q
  else if (gauge =? 22)%Z then Some 0.64%Q
  else if (gauge =? 24)%Z then Some 0.51%Q
  else None.

(** [gauge_to_diameter.get(gauge, 0.8)] *)
Definition wire_diameter (gauge : Z) : R :=
  Q2R (default 0.8%Q (gauge_to_diameter gauge)).

(** [(d/2)**2 * np.pi] and [2 * np.sqrt(a / np.pi)] *)
Definition area_of (d : R) : R := (d / 2) ^ 2 * PI.
Definition diameter_of (a : R) : R := 2 * sqrt (a / PI).

Definition rsum (l : list R) : R := fold_left Rplus l 0.

(** [[(path[i], path[i+1]) for i in range(len(path)-1)]] *)
Definition path_pairs (path : list node) : list (node * node) :=
  zip path (tail path).

(** The [if path:] branch of [estimate_bundle_diameter], the same text in
    both files.  [self.harness_graph[u][v]["gauge"]] raises [KeyError] on an
    edge that has no gauge. *)
Definition path_diameters (g : Graph) (path : list node) : result (list R) :=
  for_each (fun (diameters : list R) (uv : node * node) =>
              match get_edge g uv.1 uv.2 with
              | None => Ret diameters
              | Some e =>
                  match e_gauge e with
                  | None => Raise KeyError
                  | Some gauge => Ret (diameters ++ [wire_diameter gauge])
                  end
              end)
           (path_pairs path) [].

Definition path_bundle_diameter (g : Graph) (path : list node) : result R :=
  diameters ← path_diameters g path;
  Ret (diameter_of (rsum (map area_of diameters))).

(** [len(data.get("signals", [1]))] *)
Definition num_signals (e : EdgeAttr) : nat :=
  match e_signals e with Some l => length l | None => 1%nat end.

(** The diameter of a segment on its own: gauge [data.get("gauge", 20)],
    area [num_signals * (wire_diameter/2)**2 * np.pi]. *)
Definition segment_area (e : EdgeAttr) : R :=
  INR (num_signals e) * (wire_diameter (default 20%Z (e_gauge e)) / 2) ^ 2 * PI.

Definition base_diameter (e : EdgeAttr) : R := diameter_of (segment_area e).

Abbreviation dmap := (gmap (node * node) R).

(** The loop [for u, v, data in edges(data=True): segment_diameters[(u, v)] = ...] *)
Definition base_diameters (g : Graph) : dmap :=
  fold_left (fun (m : dmap) (e : node * node * EdgeAttr) =>
               <[(e.1.1, e.1.2) := base_diameter e.2]> m)
            (edges g) ∅.

(** ** Floats that may be NaN, [np.mean], [max], [min], [round] *)

(** [None] is NaN. *)
Definition np_mean (l : list R) : option R :=
  match l with
  | [] => None
  | _ => Some (rsum l / INR (length l))
  end.

Definition fmul (a b : option R) : option R :=
  x ← a; y ← b; Some (x * y).
Definition fadd (a b : option R) : option R :=
  x ← a; y ← b; Some (x + y).

(** [max(a, b)] keeps [a] unless [b > a]; [min(a, b)] keeps [a] unless
    [b < a]; a comparison with NaN is false. *)
Definition py_max (a b : option R) : option R :=
  match a, b with
  | Some x, Some y => if Rlt_dec x y then b else a
  | _, _ => a
  end.
Definition py_min (a b : option R) : option R :=
  match a, b with
  | Some x, Some y => if Rlt_dec y x then b else a
  | _, _ => a
  end.

(** [min(10, max(1, complexity))] *)
Definition clamp (complexity : option R) : option R :=
  py_min (Some 10) (py_max (Some 1) complexity).

(** [max(values)] raises [ValueError] on an empty sequence. *)
Definition max_of (l : list R) : result R :=
  match l with
  | [] => Raise ValueError
  | x :: l' => Ret (fold_left (fun m y => if Rlt_dec m y then y else m) l' x)
  end.
Definition min_of (l : list R) : result R :=
  match l with
  | [] => Raise ValueError
  | x :: l' => Ret (fold_left (fun m y => if Rlt_dec y m then y else m) l' x)
  end.

(** Rounding to the nearest integer, ties to even. *)
Definition round_half_even (y : R) : Z :=
  let f := Int_part y in
  let r := frac_part y in
  if Rlt_dec r (1 / 2) then f
  else if Rlt_dec (1 / 2) r then (f + 1)%Z
  else if Z.even f then f else (f + 1)%Z.

(** [round(x, ndigits)]; NaN stays NaN. *)
Definition py_round (x : option R) (ndigits : nat) : option R :=
  y ← x; Some (IZR (round_half_even (y * 10 ^ ndigits)) / 10 ^ ndigits).

Inductive value : Type := VInt (n : nat) | VFloat (x : option R).

Definition report : Type := list (string * value).

Definition values (m : dmap) : list R := (map_to_list m).*2.

Definition is_junction_type (types : list string) (a : NodeAttr) : bool :=
  match n_type a with
  | Some t => bool_decide (t ∈ types)
  | None => false
  end.

(** The length of a path as [estimate_installation_complexity] sums it:
    [self.harness_graph[path[i]][path[i+1]]["length"]] raises [KeyError] on
    a pair that is not an edge. *)
Definition path_length (g : Graph) (path : list node) : result Q :=
  for_each (fun (acc : Q) (uv : node * node) =>
              match get_edge g uv.1 uv.2 with
              | None => Raise KeyError
              | Some e => Ret (acc + e_length e)%Q
              end)
           (path_pairs path) 0%Q.

(** The [else] branch of [estimate_installation_complexity], the same text
    in both files. *)
Definition path_complexity (g : Graph) (path : list node) : result (option R) :=
  len ← path_length g path;
  bundle_diameter ← path_bundle_diameter g path;
  Ret (clamp (Some (Q2R len * bundle_diameter * 0.8))).

(** What [estimate_bundle_diameter] returns: a float in path mode, a
    mapping for independent segments, two mappings with the hierarchy. *)
Inductive estimate : Type :=
| BundleDiameter (d : R)
| SegmentDiameters (m : dmap)
| WithUtilization (m : dmap) (u : dmap).

(** ** [harness_analyzer.py] *)

Module Simple.

Definition estimate_bundle_diameter (g : Graph) (path : option (list node))
  : result estimate :=
  match path with
  | Some (n :: p) => d ← path_bundle_diameter g (n :: p); Ret (BundleDiameter d)
  | _ => Ret (SegmentDiameters (base_diameters g))
  end.

Definition num_junctions (g : Graph) : nat :=
  length (filter (fun ne : node * entry => is_junction_type ["junction"] (attrs ne.2)) g).

Definition whole_complexity (g : Graph) : option R :=
  let total_length := calculate_total_length g in
  let avg_diameter := np_mean (values (base_diameters g)) in
  fadd (fmul (fmul (Some (Q2R total_length)) avg_diameter) (Some 0.5))
       (Some (INR (num_junctions g) * 1.5)).

Definition estimate_installation_complexity (g : Graph) (path : option (list node))
  : result (option R) :=
  match path with
  | Some (n :: p) => path_complexity g (n :: p)
  | _ => Ret (clamp (whole_complexity g))
  end.

Definition generate_report (g : Graph) : result report :=
  let total_length := calculate_total_length g in
  let bundle_diameters := base_diameters g in
  let avg_diameter := np_mean (values bundle_diameters) in
  max_diameter ← max_of (values bundle_diameters);
  installation_complexity ← estimate_installation_complexity g None;
  Ret [ ("Total Components", VInt (number_of_nodes g));
        ("Total Connections", VInt (number_of_edges g));
        ("Total Wire Length (m)", VFloat (py_round (Some (Q2R total_length)) 2));
        ("Average Bundle Diameter (mm)", VFloat (py_round avg_diameter 2));
        ("Maximum Bundle Diameter (mm)", VFloat (py_round (Some max_diameter) 2));
        ("Installation Complexity (1-10)", VFloat (py_round installation_complexity 1)) ].

End Simple.

(** ** The hierarchy-aware [HarnessAnalyzer] of [gui.py] *)

Module Hier.

Record dfs_state : Type := mkDfs {
  visited : gset node;
  downstream_edges : list (node * node)
}.

(** The body of [for neighbor in neighbors(current_node)]. *)
Definition dfs_visit (dfs : node -> option node -> dfs_state -> result dfs_state)
    (current_node : node) (parent : option node) (st : dfs_state) (neighbor : node)
  : result dfs_state :=
  if bool_decide (Some neighbor ≠ parent) then
    if bool_decide (neighbor ∉ visited st) then
      dfs neighbor (Some current_node)
          (mkDfs (visited st) (downstream_edges st ++ [(current_node, neighbor)]))
    else Ret st
  else Ret st.

(** The nested [dfs], with [visited] and [downstream_edges] threaded
    through; [fuel] bounds the depth of the recursion. *)
Fixpoint dfs (fuel : nat) (g : Graph) (current_node : node) (parent : option node)
    (st : dfs_state) : result dfs_state :=
  match fuel with
  | O => OutOfFuel
  | S fuel' =>
      let st := mkDfs ({[current_node]} ∪ visited st) (downstream_edges st) in
      nb ← neighbors g current_node;
      for_each (dfs_visit (dfs fuel' g) current_node parent) nb st
  end.

Definition get_downstream_edges (g : Graph) (n : node) : result (list (node * node)) :=
  st ← dfs (S (length g)) g n None (mkDfs ∅ []);
  Ret (downstream_edges st).

Definition junction_nodes (g : Graph) : list node :=
  (filter (fun ne : node * entry =>
             is_junction_type ["junction"; "sub_junction"] (attrs ne.2)) g).*1.

(** [sorted(..., key=..., reverse=False)]: the keys are computed once, and
    the sort is stable. *)
Fixpoint insert_by_key (x : nat * node) (l : list (nat * node)) : list (nat * node) :=
  match l with
  | [] => [x]
  | y :: l' => if (x.1 <=? y.1)%nat then x :: l else y :: insert_by_key x l'
  end.

Definition sort_by_key (l : list (nat * node)) : list (nat * node) :=
  foldr insert_by_key [] l.

Definition sorted_junctions (g : Graph) : result (list node) :=
  keyed ← for_each (fun (acc : list (nat * node)) (j : node) =>
                      de ← get_downstream_edges g j;
                      Ret (acc ++ [(length de, j)]))
                   (junction_nodes g) [];
  Ret (sort_by_key keyed).*2.

(** The sum over [downstream_edges]: an edge counts when the key under
    which the search reports it is a key of [segment_diameters]. *)
Definition total_downstream_area (segment_diameters : dmap) (de : list (node * node)) : R :=
  fold_left (fun (acc : R) (uv : node * node) =>
               match segment_diameters !! uv with
               | Some diameter => acc + area_of diameter
               | None => acc
               end) de 0.

(** The edges at [junction], each turned around from the way [edges()]
    reports it. *)
Definition incoming_edges (g : Graph) (junction : node) : list (node * node) :=
  omap (fun e : node * node * EdgeAttr =>
          let u := e.1.1 in
          let v := e.1.2 in
          if bool_decide (u = junction ∨ v = junction) then
            let other_node := if bool_decide (u = junction) then v else u in
            Some (if bool_decide (u = junction) then (other_node, junction)
                  else (junction, other_node))
          else None)
       (edges g).

Definition is_downstream (de : list (node * node)) (u v : node) : bool :=
  existsb (fun d : node * node =>
             bool_decide ((u = d.1 ∧ v = d.2) ∨ (u = d.2 ∧ v = d.1))) de.

(** [segment_diameters.get((u, v), segment_diameters.get((v, u), 0))] *)
Definition current_diameter (segment_diameters : dmap) (u v : node) : R :=
  default (default 0 (segment_diameters !! (v, u))) (segment_diameters !! (u, v)).

(** The body of [for edge in incoming_edges]. *)
Definition update_edge (de : list (node * node)) (total_downstream : R)
    (st : dmap * dmap) (edge : node * node) : dmap * dmap :=
  let u := edge.1 in
  let v := edge.2 in
  if is_downstream de u v then st
  else
    let base_area := area_of (current_diameter st.1 u v) in
    let total_area := base_area + total_downstream in
    if Rlt_dec 0 total_area then
      let new_diameter := diameter_of total_area in
      let utilization := base_area / total_area * 100 in
      (<[(v, u) := new_diameter]> (<[(u, v) := new_diameter]> st.1),
       <[(v, u) := utilization]> (<[(u, v) := utilization]> st.2))
    else st.

(** The body of [for junction in sorted(...)]. *)
Definition process_junction (g : Graph) (st : dmap * dmap) (junction : node)
  : result (dmap * dmap) :=
  de ← get_downstream_edges g junction;
  Ret (fold_left (update_edge de (total_downstream_area st.1 de))
                 (incoming_edges g junction) st).

(** [if not space_utilization]: every key of [segment_diameters] gets 100. *)
Definition default_utilization (st : dmap * dmap) : dmap * dmap :=
  if bool_decide (st.2 = ∅) then (st.1, (fun _ => 100) <$> st.1) else st.

(** The [elif consider_hierarchy] branch. *)
Definition hierarchical_diameters (g : Graph) : result (dmap * dmap) :=
  js ← sorted_junctions g;
  st ← for_each (process_junction g) js (base_diameters g, ∅);
  Ret (default_utilization st).

Definition estimate_bundle_diameter (g : Graph) (path : option (list node))
    (consider_hierarchy : bool) : result estimate :=
  match path with
  | Some (n :: p) => d ← path_bundle_diameter g (n :: p); Ret (BundleDiameter d)
  | _ =>
      if consider_hierarchy then
        st ← hierarchical_diameters g; Ret (WithUtilization st.1 st.2)
      else Ret (SegmentDiameters (base_diameters g))
  end.

Definition num_junctions (g : Graph) : nat := length (junction_nodes g).

(** [np.mean(list(diameters.values())) if diameters else 0] *)
Definition mean_or_zero (m : dmap) : option R :=
  if bool_decide (m = ∅) then Some 0 else np_mean (values m).

Definition whole_complexity (g : Graph) : result (option R) :=
  let total_length := calculate_total_length g in
  st ← hierarchical_diameters g;
  let avg_diameter := mean_or_zero st.1 in
  Ret (fadd (fmul (fmul (Some (Q2R total_length)) avg_diameter) (Some 0.5))
            (Some (INR (num_junctions g) * 1.5))).

Definition estimate_installation_complexity (g : Graph) (path : option (list node))
  : result (option R) :=
  match path with
  | Some (n :: p) => path_complexity g (n :: p)
  | _ => c ← whole_complexity g; Ret (clamp c)
  end.

Definition max_or_zero (m : dmap) : result R :=
  if bool_decide (m = ∅) then Ret 0 else max_of (values m).
Definition min_or_zero (m : dmap) : result R :=
  if bool_decide (m = ∅) then Ret 0 else min_of (values m).

(** [generate_report(include_utilization)]; with the flag off the call
    [estimate_bundle_diameter()] still takes the hierarchy branch, so
    [diameters] is the pair of mappings: it is truthy and has no [values]. *)
Definition generate_report (g : Graph) (include_utilization : bool) : result report :=
  let total_length := calculate_total_length g in
  st ← hierarchical_diameters g;
  if include_utilization then
    max_diameter ← max_or_zero st.1;
    min_utilization ← min_or_zero st.2;
    installation_complexity ← estimate_installation_complexity g None;
    Ret [ ("Total Components", VInt (number_of_nodes g));
          ("Total Connections", VInt (number_of_edges g));
          ("Number of Junctions", VInt (num_junctions g));
          ("Total Wire Length (m)", VFloat (py_round (Some (Q2R total_length)) 2));
          ("Average Bundle Diameter (mm)", VFloat (py_round (mean_or_zero st.1) 2));
          ("Maximum Bundle Diameter (mm)", VFloat (py_round (Some max_diameter) 2));
          ("Installation Complexity (1-10)", VFloat (py_round installation_complexity 1));
          ("Average Space Utilization (%)", VFloat (py_round (mean_or_zero st.2) 1));
          ("Minimum Space Utilization (%)", VFloat (py_round (Some min_utilization) 1)) ]
  else Raise AttributeError.

End Hier.

(** ** Vocabulary of the statements *)

Definition nodes (g : Graph) : list node := OD.keys g.

(** [v] is a neighbour of [u]. *)
Definition adjacent (g : Graph) (u v : node) : Prop := has_edge g u v = true.

(** [v] can be reached from [u] along edges. *)
Definition reachable (g : Graph) : relation node := rtc (adjacent g).

Definition connected (g : Graph) : Prop :=
  forall u v : node, u ∈ nodes g -> v ∈ nodes g -> reachable g u v.

(** A run of tree edges added one after the other to the visited set [V]:
    each edge leaves a node already visited along an edge of the graph and
    enters a node not visited before. *)
Inductive grows (g : Graph) : gset node -> list (node * node) -> Prop :=
| grows_nil (V : gset node) : grows g V []
| grows_cons (V : gset node) (u v : node) (l : list (node * node)) :
    u ∈ V -> v ∉ V -> adjacent g u v -> grows g ({[v]} ∪ V) l ->
    grows g V ((u, v) :: l).

(** What a call [dfs(current_node, parent)] does to the state: the edges
    it adds grow a tree from the visited set, and when it is over every
    neighbour of [current_node] and of the nodes it entered is visited. *)
Definition dfs_post (g : Graph) (cur : node) (st st' : Hier.dfs_state) : Prop :=
  exists new : list (node * node),
    Hier.downstream_edges st' = Hier.downstream_edges st ++ new /\
    Hier.visited st' = list_to_set new.*2 ∪ ({[cur]} ∪ Hier.visited st) /\
    grows g ({[cur]} ∪ Hier.visited st) new /\
    forall u, u = cur \/ u ∈ new.*2 ->
      forall v, adjacent g u v -> v ∈ Hier.visited st'.

(** How many nodes of the graph are not in [V]. *)
Definition unvisited (g : Graph) (V : gset node) : nat :=
  size (list_to_set (nodes g) ∖ V : gset node).

(** The attributes of the consecutive pairs of [path] that are edges, and
    their gauges, in path order. *)
Definition path_edge_attrs (g : Graph) (path : list node) : list EdgeAttr :=
  omap (fun uv : node * node => get_edge g uv.1 uv.2) (path_pairs path).

Definition path_gauges (g : Graph) (path : list node) : list (option Z) :=
  map e_gauge (path_edge_attrs g path).

(** A harness with a loop: a junction J and two components A and B, wired
    A-J, A-B and B-J; [sigs] are the signals of the wire B-J. *)
Definition loop_nodes : list (node * NodeAttr) :=
  [ ("A", mk_node "sensor" 0 0);
    ("B", mk_node "sensor" 1 0);
    ("J", mk_node "junction" 0 1) ].

Definition loop_edges (sigs : list string) : list (node * node * EdgeAttr) :=
  [ ("A", "J", mk_edge "power" 18 1.0 ["P1"]);
    ("A", "B", mk_edge "signal" 22 1.0 ["S1"]);
    ("B", "J", mk_edge "signal" 20 1.0 sigs) ].

Definition loop_harness (sigs : list string) : Graph :=
  add_edges_from (add_nodes_from empty_graph loop_nodes) (loop_edges sigs).

(** The downstream area as the specification words it: every downstream
    edge counts, under whichever of its two keys holds its diameter. *)
Definition all_downstream_area (segment_diameters : dmap) (de : list (node * node)) : R :=
  rsum (map (fun uv : node * node =>
               area_of (Hier.current_diameter segment_diameters uv.1 uv.2)) de).

(** What the hierarchy loop keeps true of [segment_diameters] and
    [space_utilization], [base] being the diameters before the loop. *)
Record hier_inv (base : dmap) (st : dmap * dmap) : Prop := mkHierInv {
  inv_mono : forall k d0, base !! k = Some d0 ->
    exists d, st.1 !! k = Some d /\ d0 <= d;
  inv_agree : forall u v d d',
    st.1 !! (u, v) = Some d -> st.1 !! (v, u) = Some d' -> d = d';
  inv_nonneg : forall k d, st.1 !! k = Some d -> 0 <= d;
  inv_range : forall k x, st.2 !! k = Some x -> 0 <= x <= 100;
  inv_keys : forall k, is_Some (st.2 !! k) -> is_Some (st.1 !! k);
  inv_both : forall u v, st.2 !! (u, v) = st.2 !! (v, u);
  inv_untouched : st.2 = ∅ -> st.1 = base
}.

(** ** Vocabulary for shortest paths *)

(** The length of the wire between two nodes, 0 where there is none. *)
Definition edge_length (g : Graph) (uv : node * node) : Q :=
  match get_edge g uv.1 uv.2 with
  | Some e => e_length e
  | None => 0%Q
  end.

(** The sum of the wire lengths along a node sequence. *)
Definition path_weight (g : Graph) (p : list node) : Q :=
  foldr (fun uv acc => (edge_length g uv + acc)%Q) 0%Q (path_pairs p).

(** Consecutive nodes of [p] are joined by an edge. *)
Definition path_ok (g : Graph) (p : list node) : Prop :=
  Forall (fun uv : node * node => adjacent g uv.1 uv.2) (path_pairs p).

(** [p] leads from [s] to [t] along edges. *)
Definition walk (g : Graph) (s t : node) (p : list node) : Prop :=
  head p = Some s /\ last p = Some t /\ path_ok g p.

(** No wire has a negative length. *)
Definition nonneg_lengths (g : Graph) : bool :=
  forallb (fun ne : node * entry =>
             forallb (fun va : node * EdgeAttr => Qle_bool 0 (e_length va.2)) (nbrs ne.2)) g.

(** What the [while fringe] loop keeps true between two passes, for a
    search from [s] that records paths. *)
Record dijkstra_inv (g : Graph) (s : node) (st : dijkstra_state) : Prop := mkDijkstraInv {
  di_paths : exists ps, paths st = Some ps /\
    forall u su, seen st !! u = Some su ->
      exists p, ps !! u = Some p /\ walk g s u p /\
                (path_weight g p == default su (dist st !! u))%Q;
  di_pending : forall u su, seen st !! u = Some su -> dist st !! u = None ->
    exists c, (su, c, u) ∈ fringe st;
  di_fringe : forall d c u, (d, c, u) ∈ fringe st ->
    u ∈ nodes g /\ exists su, seen st !! u = Some su /\ (su <= d)%Q;
  di_seen : forall u d, dist st !! u = Some d -> is_Some (seen st !! u);
  di_opt : forall u d, dist st !! u = Some d ->
    forall p, walk g s u p -> (d <= path_weight g p)%Q;
  di_order : forall u du d c x, dist st !! u = Some du -> (d, c, x) ∈ fringe st ->
    (du <= d)%Q;
  di_start : is_Some (dist st !! s) \/
             (dist st = ∅ /\ seen st = {[ s := 0%Q ]} /\ fringe st = [(0%Q, O, s)])
}.

(** Every edge out of a settled node, but for those out of [skip], has
    been looked at: its other end is settled or seen at no more than the
    distance through that edge. *)
Definition relaxed_but (g : Graph) (skip : option node) (st : dijkstra_state) : Prop :=
  forall v dv, dist st !! v = Some dv -> skip <> Some v ->
    forall u e, get_edge g v u = Some e ->
      is_Some (dist st !! u) \/
      exists su, seen st !! u = Some su /\ (su <= dv + e_length e)%Q.

(** The slots of the neighbour tables of the nodes not settled yet. *)
Definition pending_slots (g : Graph) (settled : gmap node Q) : nat :=
  sum_list (map (fun ne : node * entry =>
                   if bool_decide (ne.1 ∈ dom settled) then O else length (nbrs ne.2)) g).

(** A run of the search without the record of paths. *)
Definition forget_paths (st : dijkstra_state) : dijkstra_state :=
  mkDijkstra (dist st) (seen st) (fringe st) (count st) None.

(** Well-formedness through lookups: unique nodes, unique neighbours,
    and every edge present from both ends with the same attributes. *)
Definition wf_lookup (g : Graph) : Prop :=
  NoDup (OD.keys g) /\
  (forall n en, OD.get n g = Some en -> NoDup (OD.keys (nbrs en))) /\
  (forall u v a, get_edge g u v = Some a -> get_edge g v u = Some a).

(** The key under which [edges()] reports the edge between [u] and [v],
    or would, given the keys [ks] it reports. *)
Definition edge_key (ks : list (node * node)) (uv : node * node) : node * node :=
  if bool_decide (uv ∈ ks) then uv else (uv.2, uv.1).

(** Two keys name the same wire: the same pair, in either order. *)
Definition same_wire (k k' : node * node) : bool :=
  bool_decide (k = k' \/ k = (k'.2, k'.1)).

(** No wire is listed twice in an edge list. *)
Fixpoint distinct_wires (es : list (node * node * EdgeAttr)) : bool :=
  match es with
  | [] => true
  | e :: es' =>
      forallb (fun e' : node * node * EdgeAttr => negb (same_wire e.1 e'.1)) es'
      && distinct_wires es'
  end.

(** ** [_compute_junction_hierarchy] of [gui.py] *)

(** [self.harness_graph.nodes[n].get("type") in [...]]; [nodes[n]] raises
    [KeyError] for a name that is not a node. *)
Definition node_type_in (g : Graph) (types : list string) (n : node) : result bool :=
  match OD.get n g with
  | None => Raise KeyError
  | Some en => Ret (is_junction_type types (attrs en))
  end.

(** The junctions among the neighbours of [junction], in neighbour order. *)
Definition sub_junctions (g : Graph) (junction : node) : result (list node) :=
  ns ← neighbors g junction;
  for_each (fun (acc : list node) (n : node) =>
              b ← node_type_in g ["junction"; "sub_junction"] n;
              Ret (if (b : bool) then acc ++ [n] else acc))
           ns [].

(** The loop stores each list under ["downstream_junctions"] in the
    attributes of its junction; nothing reads that attribute, so the model
    returns the stored lists, by junction, and leaves the graph as it is. *)
Definition compute_junction_hierarchy (g : Graph) : result (list (node * list node)) :=
  for_each (fun (h : list (node * list node)) (junction : node) =>
              l ← sub_junctions g junction;
              Ret (OD.set junction l h))
           (Hier.junction_nodes g) [].

(** ** The hierarchy branch in binary64 *)

(** The code computes in IEEE 754 binary64 (Python floats and numpy
    float64).  This module is the hierarchy branch of
    [estimate_bundle_diameter] of [gui.py] once more, line by line, over
    the binary64 numbers of Rocq instead of the real numbers, for the runs
    in which rounding shows.  The graph side (the edge list, the search,
    the order of the junctions) is the one above; the dictionaries are
    association lists in insertion order; [x**2] is the correctly rounded
    product [x * x]. *)
Module B64.
Import PrimFloat.
#[local] Set Warnings "-inexact-float".
#[local] Open Scope float_scope.

Definition fdict : Type := list ((node * node) * float).

(** [np.pi] *)
Definition pi : float := 3.141592653589793.

(** An integer as a float, exact below 2^53. *)
Fixpoint of_pos (p : positive) : float :=
  match p with
  | xH => 1
  | xO p' => 2 * of_pos p'
  | xI p' => 2 * of_pos p' + 1
  end.
Definition of_nat (n : nat) : float :=
  match n with O => 0 | S _ => of_pos (Pos.of_nat n) end.

Definition gauge_to_diameter (gauge : Z) : option float :=
  if (gauge =? 16)%Z then Some 1.29
  else if (gauge =? 18)%Z then Some 1.02
  else if (gauge =? 20)%Z then Some 0.81
  else if (gauge =? 22)%Z then Some 0.64
  else if (gauge =? 24)%Z then Some 0.51
  else None.

Definition wire_diameter (gauge : Z) : float :=
  default 0.8 (gauge_to_diameter gauge).

(** [(d/2)**2 * np.pi] and [2 * np.sqrt(a / np.pi)] *)
Definition area_of (d : float) : float := d / 2 * (d / 2) * pi.
Definition diameter_of (a : float) : float := 2 * sqrt (a / pi).

(** [num_signals * (wire_diameter/2)**2 * np.pi] *)
Definition segment_area (e : EdgeAttr) : float :=
  let wire_diameter := wire_diameter (default 20%Z (e_gauge e)) in
  of_nat (num_signals e) * (wire_diameter / 2 * (wire_diameter / 2)) * pi.

Definition base_diameter (e : EdgeAttr) : float := diameter_of (segment_area e).

Definition base_diameters (g : Graph) : fdict :=
  fold_left (fun (m : fdict) (e : node * node * EdgeAttr) =>
               OD.set (e.1.1, e.1.2) (base_diameter e.2) m)
            (edges g) [].

Definition total_downstream_area (segment_diameters : fdict) (de : list (node * node))
  : float :=
  fold_left (fun (acc : float) (uv : node * node) =>
               match OD.get uv segment_diameters with
               | Some diameter => acc + area_of diameter
               | None => acc
               end) de 0.

Definition current_diameter (segment_diameters : fdict) (u v : node) : float :=
  default (default 0 (OD.get (v, u) segment_diameters)) (OD.get (u, v) segment_diameters).

Definition update_edge (de : list (node * node)) (total_downstream : float)
    (st : fdict * fdict) (edge : node * node) : fdict * fdict :=
  let u := edge.1 in
  let v := edge.2 in
  if Hier.is_downstream de u v then st
  else
    let base_area := area_of (current_diameter st.1 u v) in
    let total_area := base_area + total_downstream in
    if 0 <? total_area then
      let new_diameter := diameter_of total_area in
      let utilization := base_area / total_area * 100 in
      (OD.set (v, u) new_diameter (OD.set (u, v) new_diameter st.1),
       OD.set (v, u) utilization (OD.set (u, v) utilization st.2))
    else st.

Definition process_junction (g : Graph) (st : fdict * fdict) (junction : node)
  : result (fdict * fdict) :=
  de ← Hier.get_downstream_edges g junction;
  Ret (fold_left (update_edge de (total_downstream_area st.1 de))
                 (Hier.incoming_edges g junction) st).

Definition default_utilization (st : fdict * fdict) : fdict * fdict :=
  match st.2 with
  | [] => (st.1, map (fun kd : (node * node) * float => (kd.1, 100)) st.1)
  | _ => st
  end.

Definition hierarchical_diameters (g : Graph) : result (fdict * fdict) :=
  js ← Hier.sorted_junctions g;
  st ← for_each (process_junction g) js (base_diameters g, []);
  Ret (default_utilization st).

End B64.

(** A harness with a loop whose wire B-J has 34 signals on 16 AWG and
    whose wires A-J and A-B carry no signal: at J the downstream edges are
    J-A and A-B, of area 0. *)
Definition ulp_edges : list (node * node * EdgeAttr) :=
  [ ("A", "J", mk_edge "power" 18 1.0 []);
    ("A", "B", mk_edge "signal" 22 1.0 []);
    ("B", "J", mk_edge "power" 16 1.0 (replicate 34 "P")) ].

Definition ulp_harness : Graph :=
  add_edges_from (add_nodes_from empty_graph loop_nodes) ulp_edges.




(** The average diameter per segment: every wire counts once, with the
    diameter the mapping holds for it under either key. *)
Definition average_segment_diameter (g : Graph) (segment_diameters : dmap) : R :=
  rsum (map (fun e : node * node * EdgeAttr =>
               Hier.current_diameter segment_diameters e.1.1 e.1.2) (edges g))
  / INR (number_of_edges g).

(** * Properties *)

(** ** The sample harness *)

Lemma sample_without_sub_junctions : load_sample_data_sub false = load_sample_data.
Proof. vm_compute. reflexivity. Qed.

Lemma sample_is_wf : wf_graph load_sample_data = true.
Proof. vm_compute. reflexivity. Qed.

(** C4, as the code has it: on the sample 7-node, 6-edge harness
    [calculate_total_length] is 8.3 and [find_optimal_path "ECU" "Actuator2"]
    is the node sequence ECU, Junction1, Junction2, Actuator2 with total
    weight 4.6 (0.5 + 2.0 + 2.1). *)
Theorem sample_total_length_and_path :
  (calculate_total_length load_sample_data == 8.3)%Q /\
  exists w : Q,
    find_optimal_path load_sample_data "ECU" "Actuator2"
    = Ret (Some ["ECU"; "Junction1"; "Junction2"; "Actuator2"], Finite w)
    /\ (w == 4.6)%Q.
Proof.
  split; [vm_compute; reflexivity|].
  eexists; split; [vm_compute; reflexivity|].
  vm_compute; reflexivity.
Qed.

(** C4 as stated fails: the weight of the path found is not 4.5. *)
Lemma sample_path_weight_is_not_4_5 :
  ~ ((calculate_total_length load_sample_data == 8.3)%Q /\
     exists w : Q,
       find_optimal_path load_sample_data "ECU" "Actuator2"
       = Ret (Some ["ECU"; "Junction1"; "Junction2"; "Actuator2"], Finite w)
       /\ (w == 4.5)%Q).
Proof.
  intros [_ (w & Hrun & Hw)].
  vm_compute in Hrun.
  injection Hrun as <-.
  vm_compute in Hw. discriminate Hw.
Qed.

(** ** Areas, diameters and the clamp *)

Lemma area_of_nonneg (d : R) : 0 <= area_of d.
Proof.
  unfold area_of. apply Rmult_le_pos; [apply pow2_ge_0|].
  left; apply PI_RGT_0.
Qed.

Lemma diameter_of_nonneg (a : R) : 0 <= diameter_of a.
Proof.
  unfold diameter_of. apply Rmult_le_pos; [lra | apply sqrt_pos].
Qed.

Lemma area_of_diameter_of (a : R) : 0 <= a -> area_of (diameter_of a) = a.
Proof.
  intros Ha. unfold area_of, diameter_of.
  pose proof PI_RGT_0 as Hpi.
  replace (2 * sqrt (a / PI) / 2) with (sqrt (a / PI)) by lra.
  rewrite pow2_sqrt.
  - field; lra.
  - apply Rmult_le_pos; [lra | left; apply Rinv_0_lt_compat; lra].
Qed.

Lemma diameter_of_area_of (d : R) : 0 <= d -> diameter_of (area_of d) = d.
Proof.
  intros Hd. unfold area_of, diameter_of.
  pose proof PI_RGT_0 as Hpi.
  replace ((d / 2) ^ 2 * PI / PI) with ((d / 2) ^ 2) by (field; lra).
  rewrite sqrt_pow2; lra.
Qed.

Lemma diameter_of_mono (a b : R) : 0 <= a -> a <= b -> diameter_of a <= diameter_of b.
Proof.
  intros Ha Hab. unfold diameter_of.
  pose proof PI_RGT_0 as Hpi.
  assert (Hinv : 0 < / PI) by (apply Rinv_0_lt_compat; lra).
  apply Rmult_le_compat_l; [lra|].
  apply sqrt_le_1.
  - apply Rmult_le_pos; lra.
  - apply Rmult_le_pos; lra.
  - unfold Rdiv. apply Rmult_le_compat_r; lra.
Qed.

Lemma clamp_spec (c : option R) :
  exists x : R, clamp c = Some x /\ 1 <= x <= 10 /\
    forall y : R, c = Some y -> x = Rmin 10 (Rmax 1 y).
Proof.
  unfold clamp, py_max, py_min.
  destruct c as [y|].
  - destruct (Rlt_dec 1 y) as [H1|H1].
    + destruct (Rlt_dec y 10) as [H2|H2].
      * exists y. split; [reflexivity|]. split; [lra|].
        intros ? [= <-]. rewrite Rmax_right, Rmin_right; lra.
      * exists 10. split; [reflexivity|]. split; [lra|].
        intros ? [= <-]. rewrite Rmax_right, Rmin_left; lra.
    + destruct (Rlt_dec 1 10) as [H2|H2]; [|lra].
      exists 1. split; [reflexivity|]. split; [lra|].
      intros ? [= <-]. rewrite Rmax_left, Rmin_right; lra.
  - exists 1. split; [|split; [lra | discriminate]].
    destruct (Rlt_dec 1 10); [reflexivity | lra].
Qed.

Lemma round_half_even_IZR (z : Z) : round_half_even (IZR z) = z.
Proof.
  unfold round_half_even.
  destruct (Int_part_frac_part_spec (IZR z) z 0) as [Hi Hf]; [lra | lra |].
  rewrite <- Hi, <- Hf.
  destruct (Rlt_dec 0 (1 / 2)); [reflexivity | lra].
Qed.

Lemma py_round_IZR (z : Z) (n : nat) : py_round (Some (IZR z)) n = Some (IZR z).
Proof.
  unfold py_round; simpl. f_equal.
  assert (H10 : 10 ^ n <> 0) by (apply pow_nonzero; lra).
  replace (IZR z * 10 ^ n) with (IZR (z * 10 ^ Z.of_nat n)).
  - rewrite round_half_even_IZR, mult_IZR.
    rewrite <- pow_IZR. field. exact H10.
  - rewrite mult_IZR, <- pow_IZR. reflexivity.
Qed.

(** ** The empty graph *)

Lemma hierarchical_diameters_empty :
  Hier.hierarchical_diameters empty_graph = Ret (∅, ∅).
Proof. reflexivity. Qed.

(** C8: on the empty graph [calculate_total_length] is 0, the diameter
    mappings are empty, the analyzer of [gui.py] scores the installation
    complexity 1 and builds its whole report with zero average and maximum
    diameter; the analyzer of [harness_analyzer.py] gets NaN for the average
    diameter, still scores 1, and its [generate_report] raises [ValueError]. *)
Theorem empty_graph_defaults :
  calculate_total_length empty_graph = 0%Q /\
  base_diameters empty_graph = ∅ /\
  Hier.estimate_bundle_diameter empty_graph None true = Ret (WithUtilization ∅ ∅) /\
  Hier.estimate_installation_complexity empty_graph None = Ret (Some 1) /\
  Hier.generate_report empty_graph true
  = Ret [ ("Total Components", VInt 0);
          ("Total Connections", VInt 0);
          ("Number of Junctions", VInt 0);
          ("Total Wire Length (m)", VFloat (Some 0));
          ("Average Bundle Diameter (mm)", VFloat (Some 0));
          ("Maximum Bundle Diameter (mm)", VFloat (Some 0));
          ("Installation Complexity (1-10)", VFloat (Some 1));
          ("Average Space Utilization (%)", VFloat (Some 0));
          ("Minimum Space Utilization (%)", VFloat (Some 0)) ] /\
  np_mean (values (base_diameters empty_graph)) = None /\
  Simple.estimate_installation_complexity empty_graph None = Ret (Some 1) /\
  Simple.generate_report empty_graph = Raise ValueError.
Proof.
  assert (Hq : Q2R 0 = 0) by (unfold Q2R; simpl; lra).
  assert (Hn : clamp None = Some 1).
  { unfold clamp, py_max, py_min. destruct (Rlt_dec 1 10); [reflexivity | lra]. }
  assert (Hh : Hier.estimate_installation_complexity empty_graph None = Ret (Some 1)).
  { unfold Hier.estimate_installation_complexity, Hier.whole_complexity.
    rewrite hierarchical_diameters_empty.
    change (Ret (clamp (Some (Q2R 0 * 0 * 0.5 + INR 0 * 1.5))) = Ret (Some 1)).
    f_equal. unfold clamp, py_max, py_min. simpl INR. rewrite Hq.
    destruct (Rlt_dec 1 _) as [H|H]; [lra|].
    destruct (Rlt_dec 1 10); [reflexivity | lra]. }
  repeat split; try reflexivity.
  - exact Hh.
  - unfold Hier.generate_report. rewrite hierarchical_diameters_empty, Hh.
    change (Ret [ ("Total Components", VInt 0);
                  ("Total Connections", VInt 0);
                  ("Number of Junctions", VInt 0);
                  ("Total Wire Length (m)", VFloat (py_round (Some (Q2R 0)) 2));
                  ("Average Bundle Diameter (mm)", VFloat (py_round (Some 0) 2));
                  ("Maximum Bundle Diameter (mm)", VFloat (py_round (Some 0) 2));
                  ("Installation Complexity (1-10)", VFloat (py_round (Some 1) 1));
                  ("Average Space Utilization (%)", VFloat (py_round (Some 0) 1));
                  ("Minimum Space Utilization (%)", VFloat (py_round (Some 0) 1)) ]
            = Ret [ ("Total Components", VInt 0);
                    ("Total Connections", VInt 0);
                    ("Number of Junctions", VInt 0);
                    ("Total Wire Length (m)", VFloat (Some 0));
                    ("Average Bundle Diameter (mm)", VFloat (Some 0));
                    ("Maximum Bundle Diameter (mm)", VFloat (Some 0));
                    ("Installation Complexity (1-10)", VFloat (Some 1));
                    ("Average Space Utilization (%)", VFloat (Some 0));
                    ("Minimum Space Utilization (%)", VFloat (Some 0)) ]).
    rewrite Hq, (py_round_IZR 0 2), (py_round_IZR 1 1), (py_round_IZR 0 1).
    reflexivity.
  - unfold Simple.estimate_installation_complexity, Simple.whole_complexity.
    change (Ret (clamp None) = Ret (Some 1)). f_equal. exact Hn.
Qed.

(** ** Ordered dictionaries and well-formed graphs *)

Section od_facts.
Context {K V : Type} `{EqDecision K}.
Implicit Types (d : list (K * V)) (k : K) (v : V).

Lemma od_get_Some_elem d k v : OD.get k d = Some v -> (k, v) ∈ d.
Proof.
  induction d as [|[k' v'] d IH]; simpl; [discriminate|].
  destruct (decide (k = k')) as [->|Hne].
  - intros [= ->]. left.
  - intros H; right; auto.
Qed.

Lemma od_get_is_Some d k : is_Some (OD.get k d) <-> k ∈ OD.keys d.
Proof.
  unfold OD.keys. induction d as [|[k' v'] d IH]; simpl.
  - split; [intros [? [=]] | intros H; inversion H].
  - destruct (decide (k = k')) as [->|Hne].
    + split; [intros _; left | eauto].
    + rewrite IH. split; [right; assumption|].
      intros H; inversion H; subst; [congruence | assumption].
Qed.

Lemma od_get_None d k : OD.get k d = None <-> k ∉ OD.keys d.
Proof.
  rewrite <- od_get_is_Some. rewrite eq_None_not_Some. reflexivity.
Qed.

Lemma od_mem_true d k : OD.mem k d = true <-> k ∈ OD.keys d.
Proof. unfold OD.mem. apply bool_decide_eq_true. Qed.

End od_facts.

Lemma adjacent_inv (g : Graph) (u v : node) :
  adjacent g u v <->
  exists en, OD.get u g = Some en /\ v ∈ OD.keys (nbrs en).
Proof.
  unfold adjacent, has_edge, get_edge.
  destruct (OD.get u g) as [en|] eqn:Hu; simpl.
  - split.
    + intros H. exists en. split; [reflexivity|].
      apply od_get_is_Some. destruct (OD.get v (nbrs en)); [eauto | discriminate].
    + intros (en' & [= <-] & Hv). apply od_get_is_Some in Hv as [a ->]. reflexivity.
  - split; [discriminate | intros (? & [=] & _)].
Qed.

Lemma adjacent_neighbors (g : Graph) (u v : node) (l : list node) :
  neighbors g u = Ret l -> (adjacent g u v <-> v ∈ l).
Proof.
  unfold neighbors. rewrite adjacent_inv.
  destruct (OD.get u g) as [en|]; [|discriminate].
  intros [= <-]. split; [intros (? & [= <-] & H); exact H | eauto].
Qed.

Lemma neighbors_node (g : Graph) (u : node) :
  u ∈ nodes g -> exists l, neighbors g u = Ret l.
Proof.
  intros Hu. apply od_get_is_Some in Hu as [en Hen].
  unfold neighbors. rewrite Hen. eauto.
Qed.

Lemma neighbors_not_node (g : Graph) (u : node) :
  u ∉ nodes g -> neighbors g u = Raise NetworkXError.
Proof.
  intros Hu. apply od_get_None in Hu. unfold neighbors. rewrite Hu. reflexivity.
Qed.

Lemma wf_graph_nodup (g : Graph) : wf_graph g = true -> NoDup (nodes g).
Proof.
  unfold wf_graph. intros [H _]%andb_prop. apply bool_decide_eq_true in H. exact H.
Qed.

Lemma wf_graph_back (g : Graph) (u v : node) :
  wf_graph g = true -> adjacent g u v -> adjacent g v u.
Proof.
  unfold wf_graph. intros [_ H]%andb_prop Huv.
  rewrite forallb_forall in H.
  apply adjacent_inv in Huv as (en & Hen & Hv).
  apply od_get_Some_elem, list_elem_of_In, H in Hen.
  unfold wf_entry in Hen. apply andb_prop in Hen as [_ Hen].
  rewrite forallb_forall in Hen.
  apply od_get_is_Some in Hv as [a Ha].
  apply od_get_Some_elem, list_elem_of_In, Hen in Ha.
  apply bool_decide_eq_true in Ha. simpl in Ha.
  unfold adjacent, has_edge. rewrite Ha. reflexivity.
Qed.

Lemma adjacent_source_node (g : Graph) (u v : node) : adjacent g u v -> u ∈ nodes g.
Proof.
  intros (en & Hen & _)%adjacent_inv. apply od_get_is_Some. eauto.
Qed.

Lemma wf_graph_closed (g : Graph) (u v : node) :
  wf_graph g = true -> adjacent g u v -> v ∈ nodes g.
Proof.
  intros Hwf Huv. eapply adjacent_source_node, wf_graph_back; eassumption.
Qed.

(** ** Depth-first search *)

Lemma grows_app (g : Graph) (V : gset node) (l1 l2 : list (node * node)) :
  grows g V l1 -> grows g (list_to_set l1.*2 ∪ V) l2 -> grows g V (l1 ++ l2).
Proof.
  intros H1. induction H1 as [V|V u v l Hu Hv Huv H1 IH]; simpl.
  - intros H2. replace V with ((∅ : gset node) ∪ V) by set_solver. exact H2.
  - intros H2. constructor; [assumption..|].
    apply IH. replace (list_to_set l.*2 ∪ ({[v]} ∪ V))
      with ({[v]} ∪ list_to_set l.*2 ∪ V) by set_solver. exact H2.
Qed.

Lemma grows_fresh (g : Graph) (V : gset node) (l : list (node * node)) :
  grows g V l -> forall v, v ∈ l.*2 -> v ∉ V.
Proof.
  induction 1 as [V|V u v l Hu Hv Huv H1 IH]; simpl; intros w Hw.
  - inversion Hw.
  - apply elem_of_cons in Hw as [->|Hw]; [assumption|].
    apply IH in Hw. set_solver.
Qed.

Lemma grows_nodup (g : Graph) (V : gset node) (l : list (node * node)) :
  grows g V l -> NoDup l.*2.
Proof.
  induction 1 as [V|V u v l Hu Hv Huv H1 IH]; simpl; constructor; [|assumption].
  intros Hin. eapply grows_fresh in Hin; [|eassumption]. set_solver.
Qed.

Lemma grows_edges (g : Graph) (V : gset node) (l : list (node * node)) :
  grows g V l ->
  forall u v, (u, v) ∈ l -> adjacent g u v /\ (u ∈ V \/ u ∈ l.*2).
Proof.
  induction 1 as [V|V u v l Hu Hv Huv H1 IH]; simpl; intros a b Hab.
  - inversion Hab.
  - apply elem_of_cons in Hab as [[= -> ->]|Hab]; [auto|].
    destruct (IH _ _ Hab) as [Hadj [Hs|Hs]]; split; try assumption.
    + apply elem_of_union in Hs as [->%elem_of_singleton|Hs]; [right; left | left; assumption].
    + right; right; assumption.
Qed.

(** The edge back is never among the tree edges. *)
Lemma grows_no_back_edge (g : Graph) (V : gset node) (l : list (node * node)) :
  grows g V l -> forall u v, (u, v) ∈ l -> (v, u) ∉ l.
Proof.
  induction 1 as [V|V u v l Hu Hv Huv H1 IH]; intros a b Hab Hba.
  - inversion Hab.
  - apply elem_of_cons in Hab as [[= -> ->]|Hab];
      apply elem_of_cons in Hba as [[= Hx Hy]|Hba].
    + subst. contradiction.
    + assert (Hin : u ∈ l.*2) by (apply (list_elem_of_fmap_2 snd) in Hba; exact Hba).
      eapply grows_fresh in Hin; [|eassumption]. set_solver.
    + subst. assert (Hin : u ∈ l.*2) by (apply (list_elem_of_fmap_2 snd) in Hab; exact Hab).
      eapply grows_fresh in Hin; [|eassumption]. set_solver.
    + exact (IH _ _ Hab Hba).
Qed.

Lemma grows_reachable (g : Graph) (root : node) (V : gset node) (l : list (node * node)) :
  grows g V l -> (forall u, u ∈ V -> reachable g root u) ->
  forall v, v ∈ l.*2 -> reachable g root v.
Proof.
  induction 1 as [V|V u v l Hu Hv Huv H1 IH]; simpl; intros HV w Hw.
  - inversion Hw.
  - assert (Hrv : reachable g root v) by (eapply rtc_r; [apply HV, Hu | exact Huv]).
    apply elem_of_cons in Hw as [->|Hw]; [exact Hrv|].
    apply IH; [|exact Hw].
    intros x [->%elem_of_singleton|Hx]%elem_of_union; auto.
Qed.

Section dfs_facts.
Variable g : Graph.
Hypothesis Hwf : wf_graph g = true.

Lemma unvisited_mono (V W : gset node) : V ⊆ W -> (unvisited g W <= unvisited g V)%nat.
Proof. intros H. unfold unvisited. apply subseteq_size. set_solver. Qed.

Lemma unvisited_add (V : gset node) (n : node) :
  n ∈ nodes g -> n ∉ V -> S (unvisited g ({[n]} ∪ V)) = unvisited g V.
Proof.
  intros Hn HV. unfold unvisited.
  set (N := list_to_set (nodes g) : gset node).
  assert (Hn' : n ∈ N) by (apply elem_of_list_to_set; exact Hn).
  assert (Heq : N ∖ V = {[n]} ∪ N ∖ ({[n]} ∪ V)).
  { apply set_eq. intros x. destruct (decide (x = n)); set_solver. }
  rewrite Heq.
  assert (Hsz : size ({[n]} ∪ N ∖ ({[n]} ∪ V)) = (size ({[n]} : gset node) + size (N ∖ ({[n]} ∪ V)))%nat).
  { apply size_union. set_solver. }
  rewrite Hsz, size_singleton. reflexivity.
Qed.

(** The loop over the neighbours, given that the recursive calls behave. *)
Lemma dfs_loop_ok (fuel : nat) (cur : node) (parent : option node) :
  (forall c p st, c ∈ nodes g -> c ∉ Hier.visited st ->
     (forall q, p = Some q -> q ∈ Hier.visited st) ->
     (unvisited g (Hier.visited st) <= fuel)%nat -> fuel <> O ->
     exists st', Hier.dfs fuel g c p st = Ret st' /\ dfs_post g c st st') ->
  forall (nb : list node) (st : Hier.dfs_state),
    (forall v, v ∈ nb -> adjacent g cur v) ->
    cur ∈ Hier.visited st ->
    (forall p, parent = Some p -> p ∈ Hier.visited st) ->
    (unvisited g (Hier.visited st) <= fuel)%nat ->
    exists st' new,
      for_each (Hier.dfs_visit (Hier.dfs fuel g) cur parent) nb st = Ret st' /\
      Hier.downstream_edges st' = Hier.downstream_edges st ++ new /\
      Hier.visited st' = list_to_set new.*2 ∪ Hier.visited st /\
      grows g (Hier.visited st) new /\
      (forall u, u ∈ new.*2 -> forall v, adjacent g u v -> v ∈ Hier.visited st') /\
      (forall v, v ∈ nb -> v ∈ Hier.visited st').
Proof.
  intros IHf nb. induction nb as [|n nb IH]; intros st Hadj Hcur Hpar Hfuel.
  - exists st, []. simpl. rewrite app_nil_r.
    repeat split; [set_solver | constructor | set_solver | set_solver].
  - assert (Hadj' : forall v, v ∈ nb -> adjacent g cur v)
      by (intros v Hv; apply Hadj; right; exact Hv).
    assert (Hskip : n ∈ Hier.visited st ->
      exists st' new,
        for_each (Hier.dfs_visit (Hier.dfs fuel g) cur parent) nb st = Ret st' /\
        Hier.downstream_edges st' = Hier.downstream_edges st ++ new /\
        Hier.visited st' = list_to_set new.*2 ∪ Hier.visited st /\
        grows g (Hier.visited st) new /\
        (forall u, u ∈ new.*2 -> forall v, adjacent g u v -> v ∈ Hier.visited st') /\
        (forall v, v ∈ n :: nb -> v ∈ Hier.visited st')).
    { intros Hn. destruct (IH st Hadj' Hcur Hpar Hfuel)
        as (st' & new & Hrun & HE & HV & Hg & Hcl & Hnb).
      exists st', new. repeat split; try assumption.
      intros v [->|Hv]%elem_of_cons; [set_solver | auto]. }
    simpl. unfold Hier.dfs_visit at 1.
    destruct (decide (Some n = parent)) as [Hp|Hp].
    { rewrite bool_decide_eq_false_2 by auto. simpl.
      apply Hskip. apply Hpar. symmetry; exact Hp. }
    rewrite bool_decide_eq_true_2 by exact Hp.
    destruct (decide (n ∈ Hier.visited st)) as [Hn|Hn].
    { rewrite bool_decide_eq_false_2 by auto. simpl. apply Hskip, Hn. }
    rewrite bool_decide_eq_true_2 by exact Hn.
    assert (Hnode : n ∈ nodes g)
      by (eapply wf_graph_closed; [exact Hwf | apply Hadj; left]).
    set (st1 := Hier.mkDfs (Hier.visited st) (Hier.downstream_edges st ++ [(cur, n)])).
    assert (Hpos : fuel <> O).
    { pose proof (unvisited_add (Hier.visited st) n Hnode Hn). lia. }
    assert (Hpar1 : forall q, Some cur = Some q -> q ∈ Hier.visited st1)
      by (intros q [= <-]; exact Hcur).
    destruct (IHf n (Some cur) st1 Hnode Hn Hpar1 Hfuel Hpos)
      as (st2 & Hrun2 & new2 & HE2 & HV2 & Hg2 & Hcl2).
    rewrite Hrun2. simpl.
    destruct (IH st2) as (st3 & new3 & Hrun3 & HE3 & HV3 & Hg3 & Hcl3 & Hnb3).
    + exact Hadj'.
    + rewrite HV2. simpl. set_solver.
    + intros p Hp'. rewrite HV2. simpl. specialize (Hpar p Hp'). set_solver.
    + etransitivity; [apply unvisited_mono | exact Hfuel].
      rewrite HV2. simpl. set_solver.
    + exists st3, ((cur, n) :: new2 ++ new3). rewrite Hrun3.
      split; [reflexivity|].
      split; [rewrite HE3, HE2; simpl; rewrite <- !app_assoc; reflexivity|].
      split.
      { rewrite HV3, HV2. simpl. rewrite fmap_app, list_to_set_app_L. set_solver. }
      split.
      { constructor; [exact Hcur | exact Hn | apply Hadj; left|].
        apply grows_app; [exact Hg2|].
        replace (list_to_set new2.*2 ∪ ({[n]} ∪ Hier.visited st))
          with (Hier.visited st2) by (rewrite HV2; reflexivity).
        exact Hg3. }
      split.
      { intros u Hu v Huv. simpl in Hu. rewrite fmap_app in Hu.
        apply elem_of_cons in Hu as [->|Hu].
        - rewrite HV3. apply elem_of_union_r. eapply Hcl2; [left; reflexivity | exact Huv].
        - apply elem_of_app in Hu as [Hu|Hu].
          + rewrite HV3. apply elem_of_union_r. eapply Hcl2; [right; exact Hu | exact Huv].
          + eapply Hcl3; eassumption. }
      intros v [->|Hv]%elem_of_cons; [|auto].
      rewrite HV3, HV2. simpl. set_solver.
Qed.

Lemma dfs_ok (fuel : nat) :
  forall (cur : node) (parent : option node) (st : Hier.dfs_state),
    cur ∈ nodes g -> cur ∉ Hier.visited st ->
    (forall p, parent = Some p -> p ∈ Hier.visited st) ->
    (unvisited g (Hier.visited st) <= fuel)%nat -> fuel <> O ->
    exists st', Hier.dfs fuel g cur parent st = Ret st' /\ dfs_post g cur st st'.
Proof.
  induction fuel as [|fuel IH]; intros cur parent st Hcur Hfresh Hpar Hfuel Hpos;
    [congruence|].
  simpl. destruct (neighbors_node g cur Hcur) as [nb Hnb]. rewrite Hnb. simpl.
  set (st1 := Hier.mkDfs ({[cur]} ∪ Hier.visited st) (Hier.downstream_edges st)).
  destruct (dfs_loop_ok fuel cur parent IH nb st1)
    as (st' & new & Hrun & HE & HV & Hg & Hcl & Hall).
  - intros v Hv. eapply adjacent_neighbors; eassumption.
  - simpl. set_solver.
  - intros p Hp. simpl. specialize (Hpar p Hp). set_solver.
  - simpl. pose proof (unvisited_add (Hier.visited st) cur Hcur Hfresh). lia.
  - exists st'. split; [exact Hrun|]. exists new.
    repeat split; try assumption.
    intros u [->|Hu] v Huv.
    + apply Hall. eapply adjacent_neighbors; eassumption.
    + eapply Hcl; eassumption.
Qed.

(** More fuel changes nothing. *)
Lemma dfs_fuel_mono (fuel : nat) :
  forall (cur : node) (parent : option node) (st st' : Hier.dfs_state),
    Hier.dfs fuel g cur parent st = Ret st' ->
    forall fuel', (fuel <= fuel')%nat -> Hier.dfs fuel' g cur parent st = Ret st'.
Proof.
  induction fuel as [|fuel IH]; intros cur parent st st' Hrun fuel' Hle;
    [discriminate|].
  destruct fuel' as [|fuel']; [lia|]. simpl in *.
  destruct (neighbors g cur) as [nb| |]; simpl in *; try discriminate.
  revert Hrun. generalize (Hier.mkDfs ({[cur]} ∪ Hier.visited st) (Hier.downstream_edges st)).
  induction nb as [|n nb IHnb]; intros s Hrun; simpl in *; [exact Hrun|].
  unfold Hier.dfs_visit at 1. unfold Hier.dfs_visit at 1 in Hrun.
  destruct (bool_decide (Some n ≠ parent)); [|apply IHnb, Hrun].
  destruct (bool_decide (n ∉ Hier.visited s)); [|apply IHnb, Hrun].
  destruct (Hier.dfs fuel g n (Some cur) _) as [s2| |] eqn:Hsub; simpl in Hrun;
    try discriminate.
  erewrite IH; [|exact Hsub|lia]. simpl. apply IHnb, Hrun.
Qed.

End dfs_facts.

Lemma size_list_to_set_le (l : list node) :
  (size (list_to_set l : gset node) <= length l)%nat.
Proof.
  induction l as [|x l IH].
  - rewrite list_to_set_nil, size_empty. simpl. lia.
  - rewrite list_to_set_cons.
    assert (Hu : size ({[x]} ∪ list_to_set l : gset node)
                 = (size ({[x]} : gset node) + size (list_to_set l ∖ {[x]} : gset node))%nat)
      by apply size_union_alt.
    assert (size (list_to_set l ∖ {[x]} : gset node) <= size (list_to_set l : gset node))%nat
      by (apply subseteq_size; set_solver).
    rewrite Hu, size_singleton. simpl. lia.
Qed.

Lemma unvisited_initial (g : Graph) : (unvisited g ∅ <= length g)%nat.
Proof.
  unfold unvisited, nodes, OD.keys.
  rewrite <- (length_fmap fst g).
  etransitivity; [|apply size_list_to_set_le].
  apply subseteq_size. set_solver.
Qed.

Lemma reachable_stays_in_graph (g : Graph) (u v : node) :
  wf_graph g = true -> u ∈ nodes g -> reachable g u v -> v ∈ nodes g.
Proof.
  intros Hwf Hu Huv. induction Huv as [|x y z Hxy _ IH]; [exact Hu|].
  apply IH. eapply wf_graph_closed; eassumption.
Qed.

Lemma reachable_sym (g : Graph) (u v : node) :
  wf_graph g = true -> reachable g u v -> reachable g v u.
Proof.
  intros Hwf Huv. induction Huv as [|x y z Hxy _ IH]; [apply rtc_refl|].
  eapply rtc_r; [exact IH|]. apply wf_graph_back; assumption.
Qed.

(** The search from a node of the graph returns a tree that spans what
    can be reached from that node. *)
Lemma get_downstream_edges_tree (g : Graph) (root : node) :
  wf_graph g = true -> root ∈ nodes g ->
  exists E : list (node * node),
    Hier.get_downstream_edges g root = Ret E /\
    (forall fuel, (length g < fuel)%nat ->
       exists st, Hier.dfs fuel g root None (Hier.mkDfs ∅ []) = Ret st /\
                  Hier.downstream_edges st = E) /\
    grows g {[root]} E /\
    NoDup (root :: E.*2) /\
    (forall v, v ∈ root :: E.*2 <-> reachable g root v).
Proof.
  intros Hwf Hroot.
  destruct (dfs_ok g Hwf (S (length g)) root None (Hier.mkDfs ∅ []))
    as (st & Hrun & new & HE & HV & Hg & Hcl).
  - exact Hroot.
  - simpl. set_solver.
  - discriminate.
  - simpl. pose proof (unvisited_initial g). lia.
  - lia.
  - simpl in HE, HV, Hg.
    assert (Heq : {[root]} ∪ ∅ = ({[root]} : gset node)) by set_solver.
    rewrite Heq in HV, Hg. clear Heq.
    exists new.
    split; [unfold Hier.get_downstream_edges; rewrite Hrun; simpl; rewrite HE; reflexivity|].
    split.
    { intros fuel Hfuel. exists st. split; [|exact HE].
      eapply dfs_fuel_mono; [exact Hrun | lia]. }
    split; [exact Hg|].
    split.
    { constructor; [|eapply grows_nodup; exact Hg].
      intros Hin. eapply grows_fresh in Hin; [|exact Hg]. set_solver. }
    intros v. split.
    + intros [->|Hv]%elem_of_cons; [apply rtc_refl|].
      eapply grows_reachable; [exact Hg| |exact Hv].
      intros u ->%elem_of_singleton. apply rtc_refl.
    + intros Hreach.
      assert (Hin : v ∈ Hier.visited st).
      { revert v Hreach.
        apply (rtc_ind_r (fun v => v ∈ Hier.visited st)).
        - rewrite HV. set_solver.
        - intros y z _ Hyz IH. rewrite HV in IH.
          apply elem_of_union in IH as [IH| ->%elem_of_singleton].
          + apply elem_of_list_to_set in IH.
            eapply Hcl; [right; exact IH | exact Hyz].
          + eapply Hcl; [left; reflexivity | exact Hyz]. }
      rewrite HV in Hin. apply elem_of_union in Hin as [Hin| ->%elem_of_singleton].
      * right. apply elem_of_list_to_set in Hin. exact Hin.
      * left.
Qed.

Lemma same_elements_same_length (l1 l2 : list node) :
  NoDup l1 -> NoDup l2 -> (forall v, v ∈ l1 <-> v ∈ l2) -> length l1 = length l2.
Proof.
  intros H1 H2 H. apply Permutation_length, NoDup_Permutation; assumption.
Qed.

(** C6: on a well-formed graph [get_downstream_edges] raises
    [NetworkXError] for a root that is not a node and returns for a root
    that is one, cycles or not, with the same result for any larger
    recursion budget; the root and the nodes entered are pairwise distinct
    (no node is entered twice), so no edge is returned twice; every returned
    pair is an edge of the graph whose reverse, the edge back to the parent,
    is not returned; and the number of returned edges is the number of
    nodes that can be reached from the root, minus one. *)
Theorem get_downstream_edges_terminates (g : Graph) (root : node) :
  wf_graph g = true ->
  (root ∉ nodes g -> Hier.get_downstream_edges g root = Raise NetworkXError) /\
  (root ∈ nodes g ->
   exists E : list (node * node),
     Hier.get_downstream_edges g root = Ret E /\
     (forall fuel, (length g < fuel)%nat ->
        exists st, Hier.dfs fuel g root None (Hier.mkDfs ∅ []) = Ret st /\
                   Hier.downstream_edges st = E) /\
     NoDup (root :: E.*2) /\
     NoDup E /\
     (forall u v, (u, v) ∈ E -> adjacent g u v /\ (v, u) ∉ E) /\
     (forall R : list node,
        NoDup R -> (forall v, v ∈ R <-> reachable g root v) ->
        length E = (length R - 1)%nat)).
Proof.
  intros Hwf. split.
  - intros Hroot. unfold Hier.get_downstream_edges. simpl.
    rewrite (neighbors_not_node g root Hroot). reflexivity.
  - intros Hroot.
    destruct (get_downstream_edges_tree g root Hwf Hroot)
      as (E & Hrun & Hfuel & Hg & Hnd & Hreach).
    exists E. repeat split; try assumption.
    + apply NoDup_cons in Hnd as [_ Hnd]. eapply NoDup_fmap_1, Hnd.
    + eapply grows_edges; eassumption.
    + eapply grows_no_back_edge; eassumption.
    + intros R HR HRreach.
      assert (Hlen : length R = length (root :: E.*2)).
      { apply same_elements_same_length; [assumption..|].
        intros v. rewrite HRreach, Hreach. reflexivity. }
      rewrite Hlen. simpl. rewrite length_fmap. lia.
Qed.

(** The statement of C6 on the sample harness, from Junction1. *)
Lemma get_downstream_edges_terminates_sample :
  wf_graph load_sample_data = true /\
  exists E : list (node * node),
    Hier.get_downstream_edges load_sample_data "Junction1" = Ret E /\
    NoDup ("Junction1" :: E.*2) /\
    (forall u v, (u, v) ∈ E -> adjacent load_sample_data u v /\ (v, u) ∉ E).
Proof.
  split; [vm_compute; reflexivity|].
  destruct (get_downstream_edges_terminates load_sample_data "Junction1") as [_ H].
  - vm_compute; reflexivity.
  - destruct H as (E & Hrun & _ & Hnd & _ & Hedges & _).
    + apply od_mem_true. vm_compute; reflexivity.
    + exists E. auto.
Defined.

(** ** The order in which junctions are processed *)

Lemma elem_of_insert_by_key (x y : nat * node) (l : list (nat * node)) :
  y ∈ Hier.insert_by_key x l <-> y = x \/ y ∈ l.
Proof.
  induction l as [|z l IH]; simpl.
  - rewrite list_elem_of_singleton, elem_of_nil. tauto.
  - destruct (x.1 <=? z.1)%nat.
    + rewrite elem_of_cons. reflexivity.
    + rewrite !elem_of_cons, IH. tauto.
Qed.

Lemma elem_of_sort_by_key (y : nat * node) (l : list (nat * node)) :
  y ∈ Hier.sort_by_key l <-> y ∈ l.
Proof.
  induction l as [|x l IH]; simpl; [reflexivity|].
  rewrite elem_of_insert_by_key, IH, elem_of_cons. reflexivity.
Qed.

Lemma filter_cons_bool {A : Type} (q : A -> bool) (x : A) (l : list A) :
  filter q (x :: l) = if q x then x :: filter q l else filter q l.
Proof. rewrite filter_cons. destruct (q x); reflexivity. Qed.

Lemma filter_true {A : Type} (l : list A) : filter (fun _ : A => true) l = l.
Proof.
  induction l as [|x l IH]; [reflexivity|].
  rewrite filter_cons_bool, IH. reflexivity.
Qed.

Lemma filter_fmap_snd {A : Type} (p : node -> bool) (l : list (A * node)) :
  filter p l.*2 = (filter (fun x : A * node => p x.2) l).*2.
Proof.
  induction l as [|x l IH]; [reflexivity|].
  rewrite fmap_cons, !filter_cons_bool. destruct (p x.2); simpl; rewrite IH; reflexivity.
Qed.

(** Stability: among entries with one key the order is kept. *)
Lemma filter_insert_by_key (q : nat * node -> bool) (x : nat * node) (l : list (nat * node)) :
  (forall y, y ∈ l -> q x = true -> q y = true -> y.1 = x.1) ->
  filter q (Hier.insert_by_key x l) = (if q x then [x] else []) ++ filter q l.
Proof.
  induction l as [|y l IH]; intros Hkey; simpl.
  - rewrite filter_cons_bool. destruct (q x); reflexivity.
  - destruct (x.1 <=? y.1)%nat eqn:Hle.
    + rewrite (filter_cons_bool _ x). destruct (q x); reflexivity.
    + rewrite !(filter_cons_bool _ y), IH by (intros z Hz; apply Hkey; right; exact Hz).
      destruct (q y) eqn:Hy; [|reflexivity].
      destruct (q x) eqn:Hx; [|reflexivity].
      exfalso. apply Nat.leb_gt in Hle.
      pose proof (Hkey y ltac:(left) eq_refl Hy). lia.
Qed.

Lemma filter_sort_by_key (q : nat * node -> bool) (l : list (nat * node)) :
  (forall x y, x ∈ l -> y ∈ l -> q x = true -> q y = true -> x.1 = y.1) ->
  filter q (Hier.sort_by_key l) = filter q l.
Proof.
  induction l as [|x l IH]; intros Hkey; simpl; [reflexivity|].
  rewrite filter_insert_by_key.
  - rewrite IH by (intros a b Ha Hb; apply Hkey; right; assumption).
    rewrite (filter_cons_bool _ x). destruct (q x); reflexivity.
  - intros y Hy Hx Hqy. apply (proj1 (elem_of_sort_by_key y l)) in Hy.
    apply Hkey; [right; exact Hy | left | assumption..].
Qed.

Lemma junction_nodes_are_nodes (g : Graph) (j : node) :
  j ∈ Hier.junction_nodes g -> j ∈ nodes g.
Proof.
  unfold Hier.junction_nodes, nodes, OD.keys.
  intros (ne & -> & Hne)%list_elem_of_fmap.
  apply list_elem_of_fmap. exists ne. split; [reflexivity|].
  apply list_elem_of_filter in Hne as [_ Hne]. exact Hne.
Qed.

(** The number of downstream edges of a node, 0 where the search fails. *)
Lemma sorted_junctions_keys (g : Graph) :
  wf_graph g = true ->
  exists key : node -> nat,
    (forall j, j ∈ nodes g ->
       exists E, Hier.get_downstream_edges g j = Ret E /\ key j = length E) /\
    Hier.sorted_junctions g
    = Ret (Hier.sort_by_key (map (fun j => (key j, j)) (Hier.junction_nodes g))).*2.
Proof.
  intros Hwf.
  exists (fun j => match Hier.get_downstream_edges g j with
                   | Ret E => length E | _ => O end).
  split.
  - intros j Hj. destruct (get_downstream_edges_tree g j Hwf Hj) as (E & -> & _).
    eauto.
  - unfold Hier.sorted_junctions.
    assert (Hgen : forall l acc, (forall j, j ∈ l -> j ∈ nodes g) ->
      for_each (fun (acc : list (nat * node)) (j : node) =>
                  de ← Hier.get_downstream_edges g j; Ret (acc ++ [(length de, j)])) l acc
      = Ret (acc ++ map (fun j => (match Hier.get_downstream_edges g j with
                                   | Ret E => length E | _ => O end, j)) l)).
    { induction l as [|j l IH]; intros acc Hl; simpl.
      - rewrite app_nil_r. reflexivity.
      - destruct (get_downstream_edges_tree g j Hwf (Hl j ltac:(left))) as (E & HE & _).
        rewrite HE. simpl. rewrite IH by (intros; apply Hl; right; assumption).
        rewrite <- app_assoc. reflexivity. }
    rewrite Hgen by apply junction_nodes_are_nodes. reflexivity.
Qed.

(** C9: on a well-formed graph two nodes joined by a path report the same
    number of downstream edges; on a connected graph that number is the
    number of nodes minus one at every node, and the sort by downstream-edge
    count leaves the junctions in the order of the node table; in general
    the sort keeps the relative order of the junctions of one component. *)
Theorem downstream_edges_span_component (g : Graph) :
  wf_graph g = true ->
  (forall n m, n ∈ nodes g -> reachable g n m ->
     exists En Em,
       Hier.get_downstream_edges g n = Ret En /\
       Hier.get_downstream_edges g m = Ret Em /\
       length En = length Em) /\
  (connected g ->
     (forall n, n ∈ nodes g ->
        exists E, Hier.get_downstream_edges g n = Ret E /\
                  length E = (number_of_nodes g - 1)%nat) /\
     Hier.sorted_junctions g = Ret (Hier.junction_nodes g)) /\
  (forall p : node -> bool,
     (forall a b, a ∈ Hier.junction_nodes g -> b ∈ Hier.junction_nodes g ->
                  p a = true -> p b = true -> reachable g a b) ->
     exists js, Hier.sorted_junctions g = Ret js /\
                filter p js = filter p (Hier.junction_nodes g)).
Proof.
  intros Hwf.
  assert (Hsame : forall n m, n ∈ nodes g -> reachable g n m ->
     exists En Em,
       Hier.get_downstream_edges g n = Ret En /\
       Hier.get_downstream_edges g m = Ret Em /\
       length En = length Em).
  { intros n m Hn Hnm.
    assert (Hm : m ∈ nodes g) by (eapply reachable_stays_in_graph; eassumption).
    destruct (get_downstream_edges_tree g n Hwf Hn) as (En & HEn & _ & _ & Hndn & Hrn).
    destruct (get_downstream_edges_tree g m Hwf Hm) as (Em & HEm & _ & _ & Hndm & Hrm).
    exists En, Em. repeat split; try assumption.
    assert (Hlen : length (n :: En.*2) = length (m :: Em.*2)).
    { apply same_elements_same_length; [assumption..|].
      intros v. rewrite Hrn, Hrm. split; intros Hv.
      - transitivity n; [apply reachable_sym; assumption | exact Hv].
      - transitivity m; assumption. }
    simpl in Hlen. rewrite !length_fmap in Hlen. lia. }
  assert (Hsort : forall p : node -> bool,
     (forall a b, a ∈ Hier.junction_nodes g -> b ∈ Hier.junction_nodes g ->
                  p a = true -> p b = true -> reachable g a b) ->
     exists js, Hier.sorted_junctions g = Ret js /\
                filter p js = filter p (Hier.junction_nodes g)).
  { intros p Hp.
    destruct (sorted_junctions_keys g Hwf) as (key & Hkey & ->).
    eexists; split; [reflexivity|].
    rewrite filter_fmap_snd, filter_sort_by_key.
    - rewrite <- filter_fmap_snd. f_equal.
      rewrite <- list_fmap_compose. apply list_fmap_id.
    - intros x y (a & -> & Ha)%list_elem_of_fmap (b & -> & Hb)%list_elem_of_fmap Hpa Hpb.
      simpl in *.
      destruct (Hsame a b (junction_nodes_are_nodes g a Ha) (Hp a b Ha Hb Hpa Hpb))
        as (Ea & Eb & HEa & HEb & Hlen).
      destruct (Hkey a (junction_nodes_are_nodes g a Ha)) as (Ea' & HEa' & ->).
      destruct (Hkey b (junction_nodes_are_nodes g b Hb)) as (Eb' & HEb' & ->).
      congruence. }
  split; [exact Hsame|]. split; [|exact Hsort].
  intros Hconn. split.
  - intros n Hn.
    destruct (get_downstream_edges_tree g n Hwf Hn) as (E & HE & _ & _ & Hnd & Hr).
    exists E. split; [exact HE|].
    assert (Hlen : length (nodes g) = length (n :: E.*2)).
    { apply same_elements_same_length; [apply wf_graph_nodup; exact Hwf | exact Hnd|].
      intros v. rewrite Hr. split.
      - intros Hv. apply Hconn; assumption.
      - intros Hv. eapply reachable_stays_in_graph; eassumption. }
    unfold number_of_nodes. unfold nodes, OD.keys in Hlen.
    rewrite length_fmap in Hlen. rewrite Hlen. simpl. rewrite length_fmap. lia.
  - destruct (Hsort (fun _ => true)) as (js & Hjs & Hfilter).
    + intros a b Ha Hb _ _.
      apply Hconn; apply junction_nodes_are_nodes; assumption.
    + rewrite Hjs. f_equal.
      rewrite !filter_true in Hfilter. exact Hfilter.
Qed.


(** The statement of C9 on the sample harness. *)
Lemma downstream_edges_span_component_sample :
  wf_graph load_sample_data = true /\
  exists js, Hier.sorted_junctions load_sample_data = Ret js /\
             filter (fun _ : node => true) js
             = filter (fun _ : node => true) (Hier.junction_nodes load_sample_data).
Proof.
  split; [vm_compute; reflexivity|].
  destruct (downstream_edges_span_component load_sample_data) as (_ & _ & H).
  - vm_compute; reflexivity.
  - apply (H (fun _ => true)).
    intros a b Ha Hb _ _.
    assert (Hroot : "Junction1" ∈ nodes load_sample_data)
      by (apply od_mem_true; vm_compute; reflexivity).
    destruct (get_downstream_edges_tree load_sample_data "Junction1" sample_is_wf Hroot)
      as (E & HE & _ & _ & _ & Hr).
    vm_compute in HE. injection HE as <-.
    assert (Hall : forall v, v ∈ nodes load_sample_data ->
                             reachable load_sample_data "Junction1" v).
    { intros v Hv. apply Hr.
      assert (Hnodes : nodes load_sample_data
                       = ["ECU"; "Sensor1"; "Sensor2"; "Actuator1"; "Actuator2";
                          "Junction1"; "Junction2"]) by (vm_compute; reflexivity).
      rewrite Hnodes in Hv.
      repeat (apply elem_of_cons in Hv as [->|Hv]);
        try compute_done.
      inversion Hv. }
    transitivity "Junction1".
    + apply reachable_sym; [exact sample_is_wf|].
      apply Hall, junction_nodes_are_nodes, Ha.
    + apply Hall, junction_nodes_are_nodes, Hb.
Defined.

(** ** Path mode *)

Lemma rsum_nil : rsum [] = 0.
Proof. reflexivity. Qed.

Lemma diameter_of_0 : diameter_of 0 = 0.
Proof. unfold diameter_of, Rdiv. rewrite Rmult_0_l, sqrt_0. lra. Qed.

Lemma path_diameters_gauges (g : Graph) (pairs : list (node * node)) (acc : list R) :
  let body := fun (diameters : list R) (uv : node * node) =>
                match get_edge g uv.1 uv.2 with
                | None => Ret diameters
                | Some e =>
                    match e_gauge e with
                    | None => Raise KeyError
                    | Some gauge => Ret (diameters ++ [wire_diameter gauge])
                    end
                end in
  let gauges := map e_gauge (omap (fun uv : node * node => get_edge g uv.1 uv.2) pairs) in
  (forall gs, gauges = map Some gs ->
     for_each body pairs acc = Ret (acc ++ map wire_diameter gs)) /\
  (None ∈ gauges -> for_each body pairs acc = Raise KeyError).
Proof.
  intros body gauges. subst gauges. revert acc.
  induction pairs as [|uv pairs IH]; intros acc; simpl.
  - split.
    + intros gs Hgs. destruct gs; [|discriminate]. simpl. rewrite app_nil_r. reflexivity.
    + intros H. inversion H.
  - unfold body at 1 3. destruct (get_edge g uv.1 uv.2) as [e|]; simpl.
    + destruct (e_gauge e) as [ga|]; simpl.
      * destruct (IH (acc ++ [wire_diameter ga])) as [IH1 IH2]. split.
        -- intros gs Hgs. destruct gs as [|ga' gs]; [discriminate|].
           simpl in Hgs. injection Hgs as <- Hgs.
           rewrite (IH1 gs Hgs). simpl. rewrite <- app_assoc. reflexivity.
        -- intros [H|H]%elem_of_cons; [discriminate | exact (IH2 H)].
      * split; [|reflexivity].
        intros gs Hgs. destruct gs; discriminate.
    + apply IH.
Qed.

Lemma gauges_all_or_none (l : list (option Z)) :
  (exists gs, l = map Some gs) \/ None ∈ l.
Proof.
  induction l as [|[ga|] l IH].
  - left. exists []. reflexivity.
  - destruct IH as [[gs ->]|H].
    + left. exists (ga :: gs). reflexivity.
    + right. right. exact H.
  - right. left.
Qed.

Lemma path_bundle_diameter_gauges (g : Graph) (path : list node) :
  (forall gs, path_gauges g path = map Some gs ->
     path_bundle_diameter g path
     = Ret (diameter_of (rsum (map area_of (map wire_diameter gs))))) /\
  (None ∈ path_gauges g path -> path_bundle_diameter g path = Raise KeyError).
Proof.
  unfold path_bundle_diameter, path_diameters, path_gauges, path_edge_attrs.
  destruct (path_diameters_gauges g (path_pairs path) []) as [H1 H2]. split.
  - intros gs Hgs. rewrite (H1 gs Hgs). reflexivity.
  - intros H. rewrite (H2 H). reflexivity.
Qed.

(** C10, as the code has it: for a non-empty path both analyzers return
    the bundle diameter of the path, which is computed from the gauges of
    the consecutive pairs that are edges and from nothing else: pairs that
    are not edges are skipped, the diameter is that of the summed wire
    areas, it is 0 when no pair is an edge (a single-node path has no
    pair), two graphs with the same gauges along the path give the same
    result, and an edge without a gauge raises [KeyError]; an empty path
    is not a path for [if path:] and selects the whole-graph branch. *)
Theorem path_mode_skips_missing_edges (g : Graph) (n : node) (p : list node) :
  let path := n :: p in
  (forall h, Hier.estimate_bundle_diameter g (Some path) h
             = Simple.estimate_bundle_diameter g (Some path)) /\
  (forall gs, path_gauges g path = map Some gs ->
     Simple.estimate_bundle_diameter g (Some path)
     = Ret (BundleDiameter (diameter_of (rsum (map area_of (map wire_diameter gs)))))) /\
  (None ∈ path_gauges g path ->
     Simple.estimate_bundle_diameter g (Some path) = Raise KeyError) /\
  ((forall u v, (u, v) ∈ path_pairs path -> has_edge g u v = false) ->
     Simple.estimate_bundle_diameter g (Some path) = Ret (BundleDiameter 0)) /\
  Simple.estimate_bundle_diameter g (Some [n]) = Ret (BundleDiameter 0) /\
  (forall g', path_gauges g' path = path_gauges g path ->
     Simple.estimate_bundle_diameter g' (Some path)
     = Simple.estimate_bundle_diameter g (Some path)) /\
  (forall h, Hier.estimate_bundle_diameter g (Some []) h
             = Hier.estimate_bundle_diameter g None h) /\
  Simple.estimate_bundle_diameter g (Some [])
  = Ret (SegmentDiameters (base_diameters g)).
Proof.
  intros path.
  assert (Hsome : forall g0 gs, path_gauges g0 path = map Some gs ->
     Simple.estimate_bundle_diameter g0 (Some path)
     = Ret (BundleDiameter (diameter_of (rsum (map area_of (map wire_diameter gs)))))).
  { intros g0 gs Hgs. unfold Simple.estimate_bundle_diameter. subst path.
    destruct (path_bundle_diameter_gauges g0 (n :: p)) as [H _].
    rewrite (H gs Hgs). reflexivity. }
  assert (Hnone : forall g0, None ∈ path_gauges g0 path ->
     Simple.estimate_bundle_diameter g0 (Some path) = Raise KeyError).
  { intros g0 Hin. unfold Simple.estimate_bundle_diameter. subst path.
    destruct (path_bundle_diameter_gauges g0 (n :: p)) as [_ H].
    rewrite (H Hin). reflexivity. }
  repeat split.
  - exact (Hsome g).
  - exact (Hnone g).
  - intros Hmissing. rewrite (Hsome g []).
    + simpl. rewrite rsum_nil, diameter_of_0. reflexivity.
    + unfold path_gauges, path_edge_attrs.
      assert (Hnil : omap (fun uv : node * node => get_edge g uv.1 uv.2) (path_pairs path) = []).
      { induction (path_pairs path) as [|[u v] l IH]; [reflexivity|]. simpl.
        pose proof (Hmissing u v ltac:(left)) as Huv. unfold has_edge in Huv.
        destruct (get_edge g u v); [discriminate|].
        apply IH. intros a b Hab. apply Hmissing. right. exact Hab. }
      rewrite Hnil. reflexivity.
  - unfold Simple.estimate_bundle_diameter, path_bundle_diameter, path_diameters.
    simpl. rewrite rsum_nil, diameter_of_0. reflexivity.
  - intros g' Hg'. destruct (gauges_all_or_none (path_gauges g path)) as [[gs Hgs]|Hin].
    + rewrite (Hsome g gs Hgs), (Hsome g' gs) by congruence. reflexivity.
    + rewrite (Hnone g Hin), (Hnone g') by congruence. reflexivity.
Qed.

(** C10 as stated fails on the empty path: the result is not a bundle
    diameter at all. *)
Lemma empty_path_is_not_path_mode :
  ~ (forall (g : Graph) (path : list node),
       (forall u v, (u, v) ∈ path_pairs path -> has_edge g u v = false) ->
       Simple.estimate_bundle_diameter g (Some path) = Ret (BundleDiameter 0) /\
       forall h, Hier.estimate_bundle_diameter g (Some path) h = Ret (BundleDiameter 0)).
Proof.
  intros H. destruct (H load_sample_data []) as [H1 _].
  - intros u v Huv. inversion Huv.
  - discriminate H1.
Qed.

(** ** The edge list and the base diameters *)

Lemma edges_from_fresh (g : Graph) (done : list node) (u v : node) (e : EdgeAttr) :
  (u, v, e) ∈ edges_from g done ->
  v ∉ done /\ exists en, (u, en) ∈ g /\ (v, e) ∈ nbrs en.
Proof.
  revert done. induction g as [|[n en] g IH]; intros done; simpl.
  - intros H. inversion H.
  - rewrite elem_of_app. intros [H|H].
    + apply list_elem_of_omap in H as ([v' a] & Hin & Hva). simpl in Hva.
      destruct (bool_decide (v' ∈ done)) eqn:Hd; [discriminate|].
      injection Hva as <- <- <-. apply bool_decide_eq_false in Hd.
      split; [exact Hd|]. exists en. split; [left | exact Hin].
    + destruct (IH _ H) as (Hv & en' & Hen' & Hin).
      split; [set_solver|]. exists en'. split; [right; exact Hen' | exact Hin].
Qed.

Lemma edges_from_orient (g : Graph) (done : list node) (u v : node) (e e' : EdgeAttr) :
  (u, v, e) ∈ edges_from g done -> (v, u, e') ∈ edges_from g done -> u = v.
Proof.
  revert done. induction g as [|[n en] g IH]; intros done; simpl.
  - intros H. inversion H.
  - rewrite !elem_of_app. intros [H1|H1] [H2|H2].
    + apply list_elem_of_omap in H1 as ([v1 a1] & _ & Hva1).
      apply list_elem_of_omap in H2 as ([v2 a2] & _ & Hva2). simpl in *.
      destruct (bool_decide (v1 ∈ done)); [discriminate|].
      destruct (bool_decide (v2 ∈ done)); [discriminate|].
      congruence.
    + apply list_elem_of_omap in H1 as ([v1 a1] & _ & Hva1). simpl in *.
      destruct (bool_decide (v1 ∈ done)); [discriminate|].
      injection Hva1 as <- <- <-.
      apply edges_from_fresh in H2 as [H2 _]. set_solver.
    + apply list_elem_of_omap in H2 as ([v2 a2] & _ & Hva2). simpl in *.
      destruct (bool_decide (v2 ∈ done)); [discriminate|].
      injection Hva2 as <- <- <-.
      apply edges_from_fresh in H1 as [H1 _]. set_solver.
    + eapply IH; eassumption.
Qed.

Lemma edges_from_nodup (g : Graph) (done : list node) :
  NoDup g.*1 ->
  (forall n en, (n, en) ∈ g -> NoDup (nbrs en).*1) ->
  NoDup (edges_from g done).*1.
Proof.
  revert done. induction g as [|[n en] g IH]; intros done Hnd Hnb; simpl.
  - constructor.
  - rewrite fmap_app. apply NoDup_app. split; [|split].
    + specialize (Hnb n en ltac:(left)).
      induction (nbrs en) as [|[v a] l IHl]; simpl; [constructor|].
      apply NoDup_cons in Hnb as [Hv Hl].
      destruct (bool_decide (v ∈ done)); simpl; [apply IHl, Hl|].
      constructor; [|apply IHl, Hl].
      intros ([[u' v'] a'] & Heq & Hin)%list_elem_of_fmap. simpl in Heq.
      injection Heq as <- <-.
      apply list_elem_of_omap in Hin as ([v2 a2] & Hin2 & Hva2). simpl in Hva2.
      destruct (bool_decide (v2 ∈ done)); [discriminate|].
      injection Hva2 as <- <-. apply Hv.
      apply list_elem_of_fmap. exists (v2, a2). split; [reflexivity | exact Hin2].
    + intros [u v] ([[u1 v1] a1] & Heq1 & Hin1)%list_elem_of_fmap
                   ([[u2 v2] a2] & Heq2 & Hin2)%list_elem_of_fmap.
      simpl in *. injection Heq1 as -> ->. injection Heq2 as -> ->.
      apply list_elem_of_omap in Hin1 as ([v3 a3] & _ & Hva3). simpl in Hva3.
      destruct (bool_decide (v3 ∈ done)); [discriminate|].
      injection Hva3 as <- <- <-.
      apply edges_from_fresh in Hin2 as (_ & en' & Hen' & _).
      apply NoDup_cons in Hnd as [Hn _]. apply Hn.
      apply list_elem_of_fmap. exists (n, en'). split; [reflexivity | exact Hen'].
    + apply IH.
      * apply NoDup_cons in Hnd as [_ Hnd]. exact Hnd.
      * intros n' en' Hin. apply (Hnb n' en'). right. exact Hin.
Qed.

Lemma edges_keys_nodup (g : Graph) : wf_graph g = true -> NoDup (edges g).*1.
Proof.
  intros Hwf. apply edges_from_nodup.
  - apply wf_graph_nodup, Hwf.
  - intros n en Hin. unfold wf_graph in Hwf.
    apply andb_prop in Hwf as [_ Hwf]. rewrite forallb_forall in Hwf.
    apply list_elem_of_In, Hwf in Hin. unfold wf_entry in Hin. simpl in Hin.
    apply andb_prop in Hin as [Hin _]. apply bool_decide_eq_true in Hin. exact Hin.
Qed.

Lemma edges_orient (g : Graph) (u v : node) (e e' : EdgeAttr) :
  (u, v, e) ∈ edges g -> (v, u, e') ∈ edges g -> u = v.
Proof. apply edges_from_orient. Qed.

Lemma fold_insert_lookup (l : list (node * node * EdgeAttr)) (m : dmap) (k : node * node) :
  (forall e, NoDup l.*1 -> (k, e) ∈ l ->
     fold_left (fun (m : dmap) (x : node * node * EdgeAttr) =>
                  <[(x.1.1, x.1.2) := base_diameter x.2]> m) l m !! k
     = Some (base_diameter e)) /\
  (k ∉ l.*1 ->
     fold_left (fun (m : dmap) (x : node * node * EdgeAttr) =>
                  <[(x.1.1, x.1.2) := base_diameter x.2]> m) l m !! k
     = m !! k).
Proof.
  revert m. induction l as [|[[u v] a] l IH]; intros m; simpl.
  - split; [intros e _ H; inversion H | reflexivity].
  - destruct (IH (<[(u, v) := base_diameter a]> m)) as [IH1 IH2]. split.
    + intros e Hnd Hin. apply NoDup_cons in Hnd as [Hk Hnd].
      apply elem_of_cons in Hin as [Heq|Hin].
      * injection Heq as -> ->. rewrite IH2 by exact Hk. apply lookup_insert_eq.
      * apply IH1; assumption.
    + intros Hk. apply not_elem_of_cons in Hk as [Hne Hk].
      rewrite IH2 by exact Hk. apply lookup_insert_ne. congruence.
Qed.

Lemma base_diameters_edge (g : Graph) (u v : node) (e : EdgeAttr) :
  wf_graph g = true -> (u, v, e) ∈ edges g ->
  base_diameters g !! (u, v) = Some (base_diameter e).
Proof.
  intros Hwf Hin. unfold base_diameters.
  destruct (fold_insert_lookup (edges g) ∅ (u, v)) as [H _].
  apply H; [apply edges_keys_nodup, Hwf | exact Hin].
Qed.

Lemma base_diameters_key (g : Graph) (k : node * node) (d : R) :
  base_diameters g !! k = Some d ->
  exists e, (k, e) ∈ edges g /\ d = base_diameter e.
Proof.
  unfold base_diameters.
  assert (Hgen : forall l (m : dmap),
    fold_left (fun (m : dmap) (x : node * node * EdgeAttr) =>
                 <[(x.1.1, x.1.2) := base_diameter x.2]> m) l m !! k = Some d ->
    (exists e, (k, e) ∈ l /\ d = base_diameter e) \/ m !! k = Some d).
  { induction l as [|[[u v] a] l IH]; intros m; simpl; [auto|].
    intros H. apply IH in H as [(e & He & Hd)|H].
    - left. exists e. split; [right; exact He | exact Hd].
    - destruct (decide ((u, v) = k)) as [<-|Hne].
      + rewrite lookup_insert_eq in H. injection H as <-.
        left. exists a. split; [left | reflexivity].
      + rewrite lookup_insert_ne in H by exact Hne. right. exact H. }
  intros H. apply Hgen in H as [H|H]; [exact H|].
  rewrite lookup_empty in H. discriminate.
Qed.

(** ** The hierarchy loop *)

Lemma total_downstream_area_nonneg (sd : dmap) (de : list (node * node)) :
  0 <= Hier.total_downstream_area sd de.
Proof.
  unfold Hier.total_downstream_area.
  assert (Hgen : forall acc, 0 <= acc ->
    0 <= fold_left (fun (acc : R) (uv : node * node) =>
                      match sd !! uv with
                      | Some diameter => acc + area_of diameter
                      | None => acc
                      end) de acc).
  { induction de as [|uv de IH]; intros acc Hacc; simpl; [exact Hacc|].
    apply IH. destruct (sd !! uv) as [d|]; [|exact Hacc].
    pose proof (area_of_nonneg d). lra. }
  apply Hgen. lra.
Qed.

Lemma hier_inv_initial (g : Graph) : hier_inv (base_diameters g) (base_diameters g, ∅).
Proof.
  constructor; simpl.
  - intros k d0 H. exists d0. split; [exact H | lra].
  - intros u v d d' H1 H2.
    destruct (base_diameters_key g _ _ H1) as (e1 & He1 & _).
    destruct (base_diameters_key g _ _ H2) as (e2 & He2 & _).
    assert (u = v) by (eapply edges_orient; eassumption). subst v.
    congruence.
  - intros k d (e & _ & ->)%base_diameters_key. apply diameter_of_nonneg.
  - intros k x H. rewrite lookup_empty in H. discriminate.
  - intros k [x H]. rewrite lookup_empty in H. discriminate.
  - intros u v. rewrite !lookup_empty. reflexivity.
  - reflexivity.
Qed.

(** What one pass of [for edge in incoming_edges] does to the two
    mappings, in terms of what is stored before and after. *)
Lemma update_edge_effect (de : list (node * node)) (tda : R) (st : dmap * dmap)
    (u v : node) :
  0 <= tda ->
  let base_area := area_of (Hier.current_diameter st.1 u v) in
  let new_diameter := diameter_of (base_area + tda) in
  let utilization := base_area / area_of new_diameter * 100 in
  let st' := Hier.update_edge de tda st (u, v) in
  (Hier.is_downstream de u v = true \/ base_area + tda <= 0 -> st' = st) /\
  (Hier.is_downstream de u v = false -> 0 < base_area + tda ->
     area_of new_diameter = base_area + tda /\
     st'.1 = <[(v, u) := new_diameter]> (<[(u, v) := new_diameter]> st.1) /\
     st'.2 = <[(v, u) := utilization]> (<[(u, v) := utilization]> st.2) /\
     0 <= utilization <= 100 /\
     (utilization = 100 <-> tda = 0) /\
     (utilization = 0 <-> base_area = 0)).
Proof.
  intros Htda base_area new_diameter utilization st'.
  subst st' utilization new_diameter. unfold Hier.update_edge. simpl.
  fold base_area.
  assert (Hbase : 0 <= base_area) by apply area_of_nonneg.
  split.
  - intros [->|Hle]; [reflexivity|].
    destruct (Hier.is_downstream de u v); [reflexivity|].
    destruct (Rlt_dec 0 (base_area + tda)); [lra | reflexivity].
  - intros -> Hpos.
    destruct (Rlt_dec 0 (base_area + tda)) as [_|Hn]; [|contradiction].
    rewrite area_of_diameter_of by lra.
    assert (Hq : 0 <= base_area / (base_area + tda) <= 1).
    { split.
      - apply Rmult_le_pos; [lra | left; apply Rinv_0_lt_compat; lra].
      - apply (Rmult_le_reg_r (base_area + tda)); [lra|]. field_simplify; lra. }
    repeat split; try reflexivity; try lra.
    + intros H. apply (Rmult_eq_compat_r (base_area + tda)) in H.
      field_simplify in H; lra.
    + intros ->. field. lra.
    + intros H. apply (Rmult_eq_compat_r (base_area + tda)) in H.
      field_simplify in H; lra.
    + intros ->. field. lra.
Qed.

Lemma lookup_insert_both (m : dmap) (u v : node) (x : R) (k : node * node) :
  <[(v, u) := x]> (<[(u, v) := x]> m) !! k
  = if decide (k = (u, v) \/ k = (v, u)) then Some x else m !! k.
Proof.
  destruct (decide (k = (u, v) \/ k = (v, u))) as [[->| ->]|Hne].
  - destruct (decide ((v, u) = (u, v))) as [Heq|Hne].
    + rewrite Heq. apply lookup_insert_eq.
    + rewrite lookup_insert_ne by exact Hne. apply lookup_insert_eq.
  - apply lookup_insert_eq.
  - rewrite !lookup_insert_ne by (intros <-; tauto). reflexivity.
Qed.

Lemma update_edge_inv (base : dmap) (de : list (node * node)) (tda : R)
    (st : dmap * dmap) (edge : node * node) :
  0 <= tda -> hier_inv base st -> hier_inv base (Hier.update_edge de tda st edge).
Proof.
  intros Htda Hinv. destruct edge as [u v].
  destruct (update_edge_effect de tda st u v Htda) as [Hsame Hupd].
  destruct (Hier.is_downstream de u v) eqn:Hds.
  { rewrite Hsame by auto. exact Hinv. }
  destruct (Rlt_dec 0 (area_of (Hier.current_diameter st.1 u v) + tda)) as [Hpos|Hneg].
  2: { rewrite Hsame by (right; lra). exact Hinv. }
  destruct (Hupd eq_refl Hpos) as (Harea & Hsd & Hsu & Hutil & _ & _).
  clear Hsame Hupd.
  destruct Hinv as [Hmono Hagree Hnonneg Hrange Hkeys Hboth Huntouched].
  set (cur := Hier.current_diameter st.1 u v) in *.
  set (new := diameter_of (area_of cur + tda)) in *.
  assert (Hgrow : forall k d, (k = (u, v) \/ k = (v, u)) -> st.1 !! k = Some d -> d <= new).
  { intros k d Hk Hd.
    assert (Hcur : cur = d).
    { subst cur. unfold Hier.current_diameter.
      destruct Hk as [-> | ->].
      - rewrite Hd. reflexivity.
      - rewrite Hd. destruct (st.1 !! (u, v)) as [d2|] eqn:H2; simpl; [|reflexivity].
        eapply Hagree; eassumption. }
    subst new. rewrite Hcur.
    rewrite <- (diameter_of_area_of d) at 1 by (eapply Hnonneg; exact Hd).
    apply diameter_of_mono; [apply area_of_nonneg | lra]. }
  assert (Hflip : forall a b, ((a, b) = (u, v) \/ (a, b) = (v, u)) <->
                              ((b, a) = (u, v) \/ (b, a) = (v, u))).
  { intros a b. split; intros [[= -> ->]|[= -> ->]]; auto. }
  constructor.
  - intros k d0 Hk. destruct (Hmono k d0 Hk) as (d & Hd & Hle).
    rewrite Hsd, lookup_insert_both. destruct (decide _) as [Hin|Hout].
    + exists new. split; [reflexivity|]. specialize (Hgrow k d Hin Hd). lra.
    + exists d. auto.
  - intros a b d d'. rewrite Hsd, !lookup_insert_both.
    destruct (decide ((a, b) = (u, v) \/ (a, b) = (v, u))) as [Hin|Hout];
      destruct (decide ((b, a) = (u, v) \/ (b, a) = (v, u))) as [Hin'|Hout'].
    + congruence.
    + apply Hflip in Hin. contradiction.
    + apply Hflip in Hin'. contradiction.
    + apply Hagree.
  - intros k d. rewrite Hsd, lookup_insert_both. destruct (decide _).
    + intros [= <-]. apply diameter_of_nonneg.
    + apply Hnonneg.
  - intros k x. rewrite Hsu, lookup_insert_both. destruct (decide _).
    + intros [= <-]. exact Hutil.
    + apply Hrange.
  - intros k. rewrite Hsu, Hsd, !lookup_insert_both. destruct (decide _).
    + eauto.
    + apply Hkeys.
  - intros a b. rewrite Hsu, !lookup_insert_both.
    destruct (decide ((a, b) = (u, v) \/ (a, b) = (v, u))) as [Hin|Hout];
      destruct (decide ((b, a) = (u, v) \/ (b, a) = (v, u))) as [Hin'|Hout'].
    + reflexivity.
    + apply Hflip in Hin. contradiction.
    + apply Hflip in Hin'. contradiction.
    + apply Hboth.
  - rewrite Hsu. intros Hempty. exfalso.
    apply (f_equal (fun m : dmap => m !! (v, u))) in Hempty.
    rewrite lookup_insert_eq, lookup_empty in Hempty. discriminate.
Qed.

Lemma fold_update_edge_inv (base : dmap) (de : list (node * node)) (tda : R)
    (l : list (node * node)) (st : dmap * dmap) :
  0 <= tda -> hier_inv base st ->
  hier_inv base (fold_left (Hier.update_edge de tda) l st).
Proof.
  intros Htda. revert st. induction l as [|edge l IH]; intros st Hinv; simpl.
  - exact Hinv.
  - apply IH, update_edge_inv; assumption.
Qed.

Lemma process_junction_inv (g : Graph) (base : dmap) (st : dmap * dmap) (j : node) :
  wf_graph g = true -> j ∈ nodes g -> hier_inv base st ->
  exists st', Hier.process_junction g st j = Ret st' /\ hier_inv base st'.
Proof.
  intros Hwf Hj Hinv. unfold Hier.process_junction.
  destruct (get_downstream_edges_tree g j Hwf Hj) as (de & -> & _).
  eexists. split; [reflexivity|].
  apply fold_update_edge_inv; [apply total_downstream_area_nonneg | exact Hinv].
Qed.

Lemma for_each_process_junction_inv (g : Graph) (base : dmap) (js : list node)
    (st : dmap * dmap) :
  wf_graph g = true -> (forall j, j ∈ js -> j ∈ nodes g) -> hier_inv base st ->
  exists st', for_each (Hier.process_junction g) js st = Ret st' /\ hier_inv base st'.
Proof.
  intros Hwf. revert st. induction js as [|j js IH]; intros st Hjs Hinv; simpl.
  - eauto.
  - destruct (process_junction_inv g base st j Hwf (Hjs j ltac:(left)) Hinv)
      as (st1 & -> & Hinv1). simpl.
    apply IH; [|exact Hinv1]. intros j' Hj'. apply Hjs. right. exact Hj'.
Qed.

(** On a well-formed graph the hierarchy branch returns, and its result
    is the outcome of the loop with the default utilization filled in. *)
Lemma hierarchical_diameters_returns (g : Graph) :
  wf_graph g = true ->
  exists st : dmap * dmap,
    hier_inv (base_diameters g) st /\
    Hier.hierarchical_diameters g = Ret (Hier.default_utilization st).
Proof.
  intros Hwf. unfold Hier.hierarchical_diameters.
  destruct (sorted_junctions_keys g Hwf) as (key & _ & ->). simpl.
  destruct (for_each_process_junction_inv g (base_diameters g)
              (Hier.sort_by_key (map (fun j => (key j, j)) (Hier.junction_nodes g))).*2
              (base_diameters g, ∅) Hwf) as (st & -> & Hinv).
  - intros j (x & -> & Hx)%list_elem_of_fmap.
    apply (proj1 (elem_of_sort_by_key _ _)) in Hx.
    apply list_elem_of_fmap in Hx as (j' & -> & Hj'). simpl.
    apply junction_nodes_are_nodes, Hj'.
  - apply hier_inv_initial.
  - exists st. split; [exact Hinv | reflexivity].
Qed.

Lemma default_utilization_diameters (st : dmap * dmap) :
  (Hier.default_utilization st).1 = st.1.
Proof. unfold Hier.default_utilization. destruct (bool_decide _); reflexivity. Qed.

(** C2, over the real numbers: on a well-formed graph the hierarchy
    branch returns, and in the diameters it returns every edge, under the
    key [edges()] reports it with, has a diameter at least its base
    diameter, the one computed from its gauge and its signal count alone.
    In binary64 the recomputation of a diameter can round below it, as the
    section on rounding shows. *)
Theorem hierarchical_diameter_monotone (g : Graph) :
  wf_graph g = true ->
  exists sd su : dmap,
    Hier.estimate_bundle_diameter g None true = Ret (WithUtilization sd su) /\
    forall u v e, (u, v, e) ∈ edges g ->
      base_diameters g !! (u, v) = Some (base_diameter e) /\
      exists d, sd !! (u, v) = Some d /\ base_diameter e <= d.
Proof.
  intros Hwf. destruct (hierarchical_diameters_returns g Hwf) as (st & Hinv & Hrun).
  exists (Hier.default_utilization st).1, (Hier.default_utilization st).2.
  split.
  - unfold Hier.estimate_bundle_diameter. rewrite Hrun. reflexivity.
  - intros u v e Hin.
    pose proof (base_diameters_edge g u v e Hwf Hin) as Hbase.
    split; [exact Hbase|].
    rewrite default_utilization_diameters.
    apply (inv_mono _ _ Hinv). exact Hbase.
Qed.

(** ** The harness with a loop *)

Lemma wire_diameter_pos (gauge : Z) : 0 < wire_diameter gauge.
Proof.
  unfold wire_diameter, gauge_to_diameter.
  repeat (destruct (_ =? _)%Z; [unfold Q2R; simpl; lra|]).
  unfold Q2R; simpl; lra.
Qed.

Lemma segment_area_nonneg (e : EdgeAttr) : 0 <= segment_area e.
Proof.
  unfold segment_area.
  apply Rmult_le_pos; [|left; apply PI_RGT_0].
  apply Rmult_le_pos; [apply pos_INR | apply pow2_ge_0].
Qed.

Lemma area_of_base_diameter (e : EdgeAttr) : area_of (base_diameter e) = segment_area e.
Proof. apply area_of_diameter_of, segment_area_nonneg. Qed.

Lemma segment_area_pos (e : EdgeAttr) : (0 < num_signals e)%nat -> 0 < segment_area e.
Proof.
  intros Hn. unfold segment_area.
  pose proof (wire_diameter_pos (default 20%Z (e_gauge e))) as Hw.
  apply Rmult_lt_0_compat; [|apply PI_RGT_0].
  apply Rmult_lt_0_compat; [apply lt_0_INR; lia|].
  apply pow_lt. lra.
Qed.


Lemma update_edge_downstream (de : list (node * node)) (tda : R) (st : dmap * dmap)
    (edge : node * node) :
  Hier.is_downstream de edge.1 edge.2 = true -> Hier.update_edge de tda st edge = st.
Proof. intros H. unfold Hier.update_edge. rewrite H. reflexivity. Qed.

(** The run of the hierarchy branch on the harness with a loop: J is the
    only junction, its downstream edges are J-A and A-B, of which only A-B
    is a key of the diameters, and B-J is the one edge that is updated. *)
Lemma loop_harness_run (sigs : list string) :
  let g := loop_harness sigs in
  let eAJ := mk_edge "power" 18 1.0 ["P1"] in
  let eAB := mk_edge "signal" 22 1.0 ["S1"] in
  let eBJ := mk_edge "signal" 20 1.0 sigs in
  let sd0 : dmap := <[("B", "J") := base_diameter eBJ]>
                      (<[("A", "B") := base_diameter eAB]>
                         (<[("A", "J") := base_diameter eAJ]> ∅)) in
  let de := [("J", "A"); ("A", "B")] in
  let new_diameter := diameter_of (segment_area eBJ + segment_area eAB) in
  let utilization := segment_area eBJ / (segment_area eBJ + segment_area eAB) * 100 in
  base_diameters g = sd0 /\
  Hier.get_downstream_edges g "J" = Ret de /\
  Hier.total_downstream_area sd0 de = segment_area eAB /\
  all_downstream_area sd0 de = segment_area eAJ + segment_area eAB /\
  Hier.current_diameter sd0 "J" "B" = base_diameter eBJ /\
  Hier.hierarchical_diameters g
  = Ret (<[("B", "J") := new_diameter]> (<[("J", "B") := new_diameter]> sd0),
         <[("B", "J") := utilization]> (<[("J", "B") := utilization]> ∅)).
Proof.
  intros g eAJ eAB eBJ sd0 de new_diameter utilization.
  assert (Hedges : edges g = [("A", "J", eAJ); ("A", "B", eAB); ("B", "J", eBJ)])
    by (vm_compute; reflexivity).
  assert (Hbase : base_diameters g = sd0)
    by (unfold base_diameters; rewrite Hedges; reflexivity).
  assert (Hde : Hier.get_downstream_edges g "J" = Ret de) by (vm_compute; reflexivity).
  assert (Hjs : Hier.sorted_junctions g = Ret ["J"]) by (vm_compute; reflexivity).
  assert (Hinc : Hier.incoming_edges g "J" = [("J", "A"); ("J", "B")])
    by (vm_compute; reflexivity).
  assert (HJA : sd0 !! ("J", "A") = None).
  { unfold sd0. rewrite 3!lookup_insert_ne by compute_done. apply lookup_empty. }
  assert (HAJ : sd0 !! ("A", "J") = Some (base_diameter eAJ)).
  { unfold sd0. rewrite 2!lookup_insert_ne by compute_done. apply lookup_insert_eq. }
  assert (HAB : sd0 !! ("A", "B") = Some (base_diameter eAB)).
  { unfold sd0. rewrite lookup_insert_ne by compute_done. apply lookup_insert_eq. }
  assert (HBA : sd0 !! ("B", "A") = None).
  { unfold sd0. rewrite 3!lookup_insert_ne by compute_done. apply lookup_empty. }
  assert (HJB : sd0 !! ("J", "B") = None).
  { unfold sd0. rewrite 3!lookup_insert_ne by compute_done. apply lookup_empty. }
  assert (HBJ : sd0 !! ("B", "J") = Some (base_diameter eBJ)).
  { unfold sd0. apply lookup_insert_eq. }
  assert (Htda : Hier.total_downstream_area sd0 de = segment_area eAB).
  { unfold Hier.total_downstream_area, de. cbn [fold_left].
    rewrite HJA, HAB, area_of_base_diameter. lra. }
  assert (Hpos : 0 < segment_area eAB) by (apply segment_area_pos; unfold eAB, num_signals; cbn; lia).
  pose proof (segment_area_nonneg eBJ) as HposBJ.
  split; [exact Hbase|]. split; [exact Hde|]. split; [exact Htda|].
  split; [|split].
  - unfold all_downstream_area, de, rsum, Hier.current_diameter. cbn [map fold_left fst snd].
    rewrite HJA, HAJ, HAB. cbn [from_option]; unfold Datatypes.id. rewrite !area_of_base_diameter. lra.
  - unfold Hier.current_diameter. rewrite HJB, HBJ. reflexivity.
  - unfold Hier.hierarchical_diameters. rewrite Hjs, Hbase.
    cbn [mbind result_bind rbind for_each].
    unfold Hier.process_junction. rewrite Hde.
    cbn [mbind result_bind rbind for_each fst snd]. rewrite Hinc, Htda.
    cbn [fold_left]. rewrite (update_edge_downstream de _ _ ("J", "A")) by (vm_compute; reflexivity).
    unfold Hier.update_edge.
    replace (Hier.is_downstream de (("J", "B").1) (("J", "B").2)) with false
      by (vm_compute; reflexivity).
    cbn [fst snd]. unfold Hier.current_diameter. rewrite HJB, HBJ. cbn [from_option]; unfold Datatypes.id.
    rewrite area_of_base_diameter.
    destruct (Rlt_dec 0 (segment_area eBJ + segment_area eAB)) as [_|Hn]; [|lra].
    unfold Hier.default_utilization. cbn [fst snd].
    rewrite bool_decide_eq_false_2; [reflexivity|].
    intros Hempty. apply (f_equal (fun m : dmap => m !! ("B", "J"))) in Hempty.
    rewrite lookup_insert_eq, lookup_empty in Hempty. discriminate.
Qed.

Lemma loop_harness_estimate (sigs : list string) (sd su : dmap) :
  Hier.estimate_bundle_diameter (loop_harness sigs) None true
  = Ret (WithUtilization sd su) ->
  let eAJ := mk_edge "power" 18 1.0 ["P1"] in
  let eAB := mk_edge "signal" 22 1.0 ["S1"] in
  let eBJ := mk_edge "signal" 20 1.0 sigs in
  let sd0 : dmap := <[("B", "J") := base_diameter eBJ]>
                      (<[("A", "B") := base_diameter eAB]>
                         (<[("A", "J") := base_diameter eAJ]> ∅)) in
  let new_diameter := diameter_of (segment_area eBJ + segment_area eAB) in
  let utilization := segment_area eBJ / (segment_area eBJ + segment_area eAB) * 100 in
  sd = <[("B", "J") := new_diameter]> (<[("J", "B") := new_diameter]> sd0) /\
  su = <[("B", "J") := utilization]> (<[("J", "B") := utilization]> ∅).
Proof.
  intros Hrun eAJ eAB eBJ sd0 new_diameter utilization.
  destruct (loop_harness_run sigs) as (_ & _ & _ & _ & _ & Hrun').
  unfold Hier.estimate_bundle_diameter in Hrun. rewrite Hrun' in Hrun.
  cbn [mbind result_bind rbind fst snd] in Hrun. injection Hrun as <- <-. auto.
Qed.

(** The statement of C2 on the harness with a loop, where the wire B-J
    is updated at J: its diameter grows from its base diameter to the
    diameter of its own area and the area of A-B together. *)
Lemma hierarchical_diameter_monotone_loop :
  wf_graph (loop_harness ["S2"]) = true /\
  exists (sd su : dmap) (d : R),
    Hier.estimate_bundle_diameter (loop_harness ["S2"]) None true
    = Ret (WithUtilization sd su) /\
    sd !! ("B", "J") = Some d /\
    base_diameter (mk_edge "signal" 20 1.0 ["S2"]) <= d /\
    d = diameter_of (segment_area (mk_edge "signal" 20 1.0 ["S2"])
                     + segment_area (mk_edge "signal" 22 1.0 ["S1"])).
Proof.
  set (g := loop_harness ["S2"]).
  set (eAB := mk_edge "signal" 22 1.0 ["S1"]).
  set (eBJ := mk_edge "signal" 20 1.0 ["S2"]).
  assert (Hwf : wf_graph g = true) by (vm_compute; reflexivity).
  split; [exact Hwf|].
  destruct (hierarchical_diameter_monotone g Hwf) as (sd & su & Hrun & H).
  destruct (H "B" "J" eBJ) as (_ & d & Hd & Hle).
  { assert (Hedges : edges g = [("A", "J", mk_edge "power" 18 1.0 ["P1"]);
                                ("A", "B", eAB); ("B", "J", eBJ)])
      by (vm_compute; reflexivity).
    rewrite Hedges. compute_done. }
  exists sd, su, d. split; [exact Hrun|]. split; [exact Hd|]. split; [exact Hle|].
  destruct (loop_harness_estimate ["S2"] _ _ Hrun) as [Hsd _].
  rewrite Hsd, lookup_insert_eq in Hd. injection Hd as <-. reflexivity.
Defined.


(** C1 at its failing input, the harness with a loop: from J the search
    returns J-A and A-B; the diameter of J-A is keyed (A, J), so the code
    adds the area of A-B alone to the upstream edge B-J, less than the
    area of all the downstream edges; the new diameter is stored under both
    (J, B) and (B, J). *)
Theorem downstream_area_misses_reversed_keys :
  let g := loop_harness ["S2"] in
  let sd0 := base_diameters g in
  let de := [("J", "A"); ("A", "B")] in
  wf_graph g = true /\
  Hier.get_downstream_edges g "J" = Ret de /\
  Hier.total_downstream_area sd0 de < all_downstream_area sd0 de /\
  exists (sd su : dmap) (d : R),
    Hier.estimate_bundle_diameter g None true = Ret (WithUtilization sd su) /\
    sd !! ("J", "B") = Some d /\
    sd !! ("B", "J") = Some d /\
    area_of d = area_of (Hier.current_diameter sd0 "J" "B")
                + Hier.total_downstream_area sd0 de /\
    area_of d < area_of (Hier.current_diameter sd0 "J" "B")
                + all_downstream_area sd0 de.
Proof.
  intros g sd0 de.
  destruct (loop_harness_run ["S2"]) as (Hbase & Hde & Htda & Hall & Hcur & Hrun).
  fold g in Hbase, Hde, Hrun. fold sd0 in Hbase. rewrite <- Hbase in Htda, Hall, Hcur.
  fold de in Hde, Htda, Hall.
  set (eAJ := mk_edge "power" 18 1.0 ["P1"]) in *.
  set (eAB := mk_edge "signal" 22 1.0 ["S1"]) in *.
  set (eBJ := mk_edge "signal" 20 1.0 ["S2"]) in *.
  assert (HposAJ : 0 < segment_area eAJ) by (apply segment_area_pos; cbn; lia).
  pose proof (segment_area_nonneg eAB) as HposAB.
  pose proof (segment_area_nonneg eBJ) as HposBJ.
  split; [vm_compute; reflexivity|].
  split; [exact Hde|].
  rewrite Htda, Hall, Hcur, area_of_base_diameter.
  split; [lra|].
  eexists _, _, (diameter_of (segment_area eBJ + segment_area eAB)).
  split; [unfold Hier.estimate_bundle_diameter; rewrite Hrun; reflexivity|].
  cbn [fst snd].
  split; [rewrite lookup_insert_ne by compute_done; apply lookup_insert_eq|].
  split; [apply lookup_insert_eq|].
  rewrite area_of_diameter_of by lra. split; lra.
Qed.





(** ** Installation complexity *)

Lemma rsum_acc (l : list R) (a : R) : fold_left Rplus l a = a + rsum l.
Proof.
  unfold rsum. revert a. induction l as [|x l IH]; intros a; simpl.
  - lra.
  - rewrite (IH (a + x)), (IH (0 + x)). lra.
Qed.

Lemma rsum_cons (x : R) (l : list R) : rsum (x :: l) = x + rsum l.
Proof. unfold rsum at 1. simpl. rewrite rsum_acc. lra. Qed.

Lemma rsum_perm (l l' : list R) : l ≡ₚ l' -> rsum l = rsum l'.
Proof.
  induction 1 as [|x l l' _ IH|x y l|l l' l'' _ IH1 _ IH2].
  - reflexivity.
  - rewrite !rsum_cons, IH. reflexivity.
  - rewrite !rsum_cons. lra.
  - rewrite IH1. exact IH2.
Qed.

Lemma values_insert_fresh (m : dmap) (k : node * node) (x : R) :
  m !! k = None -> values (<[k := x]> m) ≡ₚ x :: values m.
Proof.
  intros Hk. unfold values. rewrite (map_to_list_insert m k x Hk). reflexivity.
Qed.

Lemma fold_insert_values (l : list (node * node * EdgeAttr)) (m : dmap) :
  NoDup l.*1 -> (forall k, k ∈ l.*1 -> m !! k = None) ->
  values (fold_left (fun (m : dmap) (x : node * node * EdgeAttr) =>
                       <[(x.1.1, x.1.2) := base_diameter x.2]> m) l m)
  ≡ₚ map (fun x : node * node * EdgeAttr => base_diameter x.2) l ++ values m.
Proof.
  revert m. induction l as [|[[u v] e] l IH]; intros m Hnd Hm; [reflexivity|].
  cbn [fold_left fst snd map app]. rewrite fmap_cons in Hnd. cbn [fst] in Hnd.
  apply NoDup_cons in Hnd as [Hk Hnd].
  rewrite IH.
  - rewrite values_insert_fresh by (apply Hm; left).
    symmetry. apply Permutation_middle.
  - exact Hnd.
  - intros k Hin. rewrite lookup_insert_ne; [apply Hm; right; exact Hin|].
    intros <-. contradiction.
Qed.

(** In [harness_analyzer.py] the mean of the values of the mapping is the
    average diameter of the segments. *)
Lemma mean_base_diameters (g : Graph) :
  wf_graph g = true ->
  let ds := values (base_diameters g) in
  rsum ds / INR (length ds) = average_segment_diameter g (base_diameters g).
Proof.
  intros Hwf ds.
  assert (Hperm : ds ≡ₚ map (fun x : node * node * EdgeAttr => base_diameter x.2) (edges g)).
  { unfold ds, base_diameters. rewrite fold_insert_values.
    - unfold values. rewrite map_to_list_empty. cbn [fmap list_fmap]. rewrite app_nil_r. reflexivity.
    - apply edges_keys_nodup, Hwf.
    - intros k _. apply lookup_empty. }
  unfold average_segment_diameter, number_of_edges.
  rewrite (rsum_perm _ _ Hperm), (Permutation_length Hperm), length_map.
  f_equal. f_equal. apply map_ext_in. intros [[u v] e] Hin%list_elem_of_In.
  unfold Hier.current_diameter. cbn [fst snd].
  rewrite (base_diameters_edge g u v e Hwf Hin). reflexivity.
Qed.

Lemma np_mean_nonempty (l : list R) :
  l <> [] -> np_mean l = Some (rsum l / INR (length l)).
Proof. destruct l; [congruence | reflexivity]. Qed.

Lemma values_nonempty (m : dmap) : m <> ∅ -> values m <> [].
Proof.
  intros Hm Hv. apply Hm. apply map_to_list_empty_iff.
  unfold values in Hv. apply fmap_nil_inv in Hv. exact Hv.
Qed.

Lemma base_diameters_nonempty (g : Graph) : edges g <> [] -> base_diameters g <> ∅.
Proof.
  unfold base_diameters.
  assert (Hgen : forall (l : list (node * node * EdgeAttr)) (m : dmap),
    (l <> [] \/ m <> ∅) ->
    fold_left (fun (m : dmap) (x : node * node * EdgeAttr) =>
                 <[(x.1.1, x.1.2) := base_diameter x.2]> m) l m <> ∅).
  { induction l as [|x l IH]; intros m Hor; simpl.
    - destruct Hor as [H|H]; [congruence | exact H].
    - apply IH. right. apply insert_non_empty. }
  intros H. apply Hgen. left. exact H.
Qed.

Lemma clamp_value (y : R) : clamp (Some y) = Some (Rmin 10 (Rmax 1 y)).
Proof.
  destruct (clamp_spec (Some y)) as (x & Hx & _ & Hy).
  rewrite Hx. f_equal. apply Hy. reflexivity.
Qed.

Lemma clamp_in_range (c : option R) : exists x, clamp c = Some x /\ 1 <= x <= 10.
Proof. destruct (clamp_spec c) as (x & Hx & Hr & _). eauto. Qed.

(** X16, over the real numbers: in both analyzers whatever
    [estimate_installation_complexity] returns is a number in [1, 10]; for
    a non-empty path all of whose pairs are edges it is
    path_length * path_bundle_diameter * 0.8 clamped; for the whole graph it
    is total_length * m * 0.5 + junction_count * 1.5 clamped, where m is the
    mean of the values of the diameter mapping: in [harness_analyzer.py], on
    a graph with an edge, the mapping of the base diameters, whose mean is
    the average diameter of the segments; in [gui.py] the mapping of the
    hierarchy branch, in which an updated wire is stored under both of its
    keys, and 0 when the mapping is empty. *)
Theorem installation_complexity_clamped (g : Graph) :
  (forall path c,
     Hier.estimate_installation_complexity g path = Ret c \/
     Simple.estimate_installation_complexity g path = Ret c ->
     exists x, c = Some x /\ 1 <= x <= 10) /\
  (forall n p len d,
     path_length g (n :: p) = Ret len ->
     path_bundle_diameter g (n :: p) = Ret d ->
     Hier.estimate_installation_complexity g (Some (n :: p))
     = Ret (Some (Rmin 10 (Rmax 1 (Q2R len * d * 0.8)))) /\
     Simple.estimate_installation_complexity g (Some (n :: p))
     = Ret (Some (Rmin 10 (Rmax 1 (Q2R len * d * 0.8))))) /\
  (edges g <> [] ->
     let ds := values (base_diameters g) in
     Simple.estimate_installation_complexity g None
     = Ret (Some (Rmin 10 (Rmax 1
              (Q2R (calculate_total_length g) * (rsum ds / INR (length ds)) * 0.5
               + INR (Simple.num_junctions g) * 1.5)))) /\
     (wf_graph g = true ->
      rsum ds / INR (length ds) = average_segment_diameter g (base_diameters g))) /\
  (wf_graph g = true ->
     exists sd su : dmap,
       Hier.hierarchical_diameters g = Ret (sd, su) /\
       let ds := values sd in
       let avg := if bool_decide (sd = ∅) then 0 else rsum ds / INR (length ds) in
       Hier.estimate_installation_complexity g None
       = Ret (Some (Rmin 10 (Rmax 1
                (Q2R (calculate_total_length g) * avg * 0.5
                 + INR (Hier.num_junctions g) * 1.5))))).
Proof.
  split; [|split; [|split]].
  - intros path c [H|H].
    + unfold Hier.estimate_installation_complexity in H.
      assert (Hwhole : (c0 ← Hier.whole_complexity g; Ret (clamp c0)) = Ret c ->
                       exists x, c = Some x /\ 1 <= x <= 10).
      { destruct (Hier.whole_complexity g) as [c0| |]; simpl; try discriminate.
        intros [= <-]. apply clamp_in_range. }
      destruct path as [[|n p]|]; try (apply Hwhole; exact H).
      unfold path_complexity in H.
      destruct (path_length g (n :: p)) as [len| |]; simpl in H; try discriminate.
      destruct (path_bundle_diameter g (n :: p)) as [d| |]; simpl in H; try discriminate.
      injection H as <-. apply clamp_in_range.
    + unfold Simple.estimate_installation_complexity in H.
      destruct path as [[|n p]|]; try (injection H as <-; apply clamp_in_range).
      unfold path_complexity in H.
      destruct (path_length g (n :: p)) as [len| |]; simpl in H; try discriminate.
      destruct (path_bundle_diameter g (n :: p)) as [d| |]; simpl in H; try discriminate.
      injection H as <-. apply clamp_in_range.
  - intros n p len d Hlen Hd.
    unfold Hier.estimate_installation_complexity, Simple.estimate_installation_complexity,
      path_complexity.
    rewrite Hlen, Hd. cbn [mbind result_bind rbind]. rewrite clamp_value. auto.
  - intros Hedges ds. split; [|intros Hwf; apply mean_base_diameters, Hwf].
    unfold Simple.estimate_installation_complexity, Simple.whole_complexity.
    rewrite np_mean_nonempty
      by (apply values_nonempty, base_diameters_nonempty, Hedges).
    cbn [fmul fadd mbind option_bind]. rewrite clamp_value. reflexivity.
  - intros Hwf. destruct (hierarchical_diameters_returns g Hwf) as (st & _ & Hrun).
    exists (Hier.default_utilization st).1, (Hier.default_utilization st).2.
    split; [rewrite Hrun; destruct (Hier.default_utilization st); reflexivity|].
    intros ds avg.
    unfold Hier.estimate_installation_complexity, Hier.whole_complexity.
    rewrite Hrun. cbn [mbind result_bind rbind].
    unfold Hier.mean_or_zero. subst avg ds.
    destruct (decide ((Hier.default_utilization st).1 = ∅)) as [He|Hne].
    + rewrite !bool_decide_eq_true_2 by exact He.
      cbn [fmul fadd mbind option_bind]. rewrite clamp_value. reflexivity.
    + rewrite !bool_decide_eq_false_2 by exact Hne.
      rewrite np_mean_nonempty by (apply values_nonempty, Hne).
      cbn [fmul fadd mbind option_bind]. rewrite clamp_value. reflexivity.
Qed.


(** On the sample harness. *)
Lemma installation_complexity_clamped_sample :
  wf_graph load_sample_data = true /\
  edges load_sample_data <> [] /\
  exists x y : R,
    Hier.estimate_installation_complexity load_sample_data None = Ret (Some x) /\
    Simple.estimate_installation_complexity load_sample_data None = Ret (Some y).
Proof.
  assert (Hwf : wf_graph load_sample_data = true) by (vm_compute; reflexivity).
  assert (Hedges : edges load_sample_data <> []) by (vm_compute; discriminate).
  split; [exact Hwf|]. split; [exact Hedges|].
  destruct (installation_complexity_clamped load_sample_data) as (_ & _ & Hs & Hh).
  destruct (Hh Hwf) as (sd & su & _ & Hx).
  pose proof (Hs Hedges) as Hy. cbv zeta in Hx, Hy.
  eexists _, _. split; [exact Hx | exact (proj1 Hy)].
Defined.

(** ** Shortest paths *)

Lemma Qltb_true (a b : Q) : Qltb a b = true <-> (a < b)%Q.
Proof.
  unfold Qltb. rewrite Qlt_alt. destruct (a ?= b)%Q; split; congruence.
Qed.

Lemma Qltb_false (a b : Q) : Qltb a b = false <-> (b <= a)%Q.
Proof.
  rewrite <- not_true_iff_false, Qltb_true. split.
  - apply Qnot_lt_le.
  - apply Qle_not_lt.
Qed.

Lemma item_ltb_le (a b : item) : item_ltb a b = true -> (a.1.1 <= b.1.1)%Q.
Proof.
  unfold item_ltb. intros [H|H]%orb_prop.
  - apply Qltb_true in H. apply Qlt_le_weak, H.
  - apply andb_prop in H as [H _]. apply Qeq_bool_iff in H. rewrite H. apply Qle_refl.
Qed.

Lemma item_ltb_ge (a b : item) : item_ltb a b = false -> (b.1.1 <= a.1.1)%Q.
Proof.
  unfold item_ltb. intros [H _]%orb_false_elim. apply Qltb_false, H.
Qed.

Lemma heappop_None (h : list item) : heappop h = None <-> h = [].
Proof.
  destruct h as [|x h]; simpl; [tauto|].
  split; [|discriminate].
  destruct (heappop h) as [[m r]|]; [destruct (item_ltb m x)|]; discriminate.
Qed.

(** [heappop] takes out an entry of least distance. *)
Lemma heappop_Some (h : list item) (m : item) (r : list item) :
  heappop h = Some (m, r) ->
  h ≡ₚ m :: r /\ forall y, y ∈ h -> (m.1.1 <= y.1.1)%Q.
Proof.
  revert m r. induction h as [|x h IH]; intros m r; simpl; [discriminate|].
  destruct (heappop h) as [[m' r']|] eqn:Hpop.
  - destruct (IH m' r' eq_refl) as [Hperm Hmin].
    destruct (item_ltb m' x) eqn:Hlt; intros [= <- <-].
    + split.
      * rewrite Hperm. apply Permutation_swap.
      * intros y [->|Hy]%elem_of_cons; [apply item_ltb_le, Hlt | apply Hmin, Hy].
    + split; [reflexivity|].
      intros y [->|Hy]%elem_of_cons; [apply Qle_refl|].
      eapply Qle_trans; [apply item_ltb_ge, Hlt | apply Hmin, Hy].
  - intros [= <- <-]. apply heappop_None in Hpop. subst h.
    split; [reflexivity|].
    intros y ->%list_elem_of_singleton. apply Qle_refl.
Qed.

Lemma path_pairs_cons (x y : node) (p : list node) :
  path_pairs (x :: y :: p) = (x, y) :: path_pairs (y :: p).
Proof. reflexivity. Qed.

Lemma path_pairs_snoc (p : list node) (x u : node) :
  last p = Some x -> path_pairs (p ++ [u]) = path_pairs p ++ [(x, u)].
Proof.
  induction p as [|a [|b p] IH]; [discriminate| |].
  - intros [= ->]. reflexivity.
  - intros Hlast. change ((a :: b :: p) ++ [u]) with (a :: b :: (p ++ [u])).
    rewrite !path_pairs_cons.
    change (b :: p ++ [u]) with ((b :: p) ++ [u]). rewrite IH by exact Hlast.
    reflexivity.
Qed.

Lemma path_weight_cons (g : Graph) (x y : node) (p : list node) :
  path_weight g (x :: y :: p) = (edge_length g (x, y) + path_weight g (y :: p))%Q.
Proof. reflexivity. Qed.

Lemma path_weight_snoc (g : Graph) (p : list node) (x u : node) :
  last p = Some x ->
  (path_weight g (p ++ [u]) == path_weight g p + edge_length g (x, u))%Q.
Proof.
  intros Hlast. unfold path_weight. rewrite (path_pairs_snoc p x u Hlast).
  induction (path_pairs p) as [|uv l IH]; cbn [foldr app].
  - lra.
  - rewrite IH. lra.
Qed.

Lemma walk_single (g : Graph) (s : node) : walk g s s [s].
Proof. repeat split. constructor. Qed.

Lemma walk_snoc (g : Graph) (s x u : node) (p : list node) :
  walk g s x p -> adjacent g x u -> walk g s u (p ++ [u]).
Proof.
  intros (Hhead & Hlast & Hok) Hadj. split; [|split].
  - destruct p; [discriminate | exact Hhead].
  - apply last_snoc.
  - unfold path_ok. rewrite (path_pairs_snoc p x u Hlast).
    apply Forall_app. split; [exact Hok|]. constructor; [exact Hadj | constructor].
Qed.

Lemma walk_cons_inv (g : Graph) (s t y : node) (p : list node) :
  walk g s t (s :: y :: p) -> adjacent g s y /\ walk g y t (y :: p).
Proof.
  intros (_ & Hlast & Hok). unfold path_ok in Hok. rewrite path_pairs_cons in Hok.
  apply Forall_cons in Hok as [Hadj Hok].
  split; [exact Hadj|]. split; [reflexivity|]. split; [exact Hlast | exact Hok].
Qed.

Lemma walk_reachable (g : Graph) (s t : node) (p : list node) :
  walk g s t p -> reachable g s t.
Proof.
  revert s. induction p as [|a p IH]; intros s (Hhead & Hlast & Hok); [discriminate|].
  injection Hhead as ->. destruct p as [|y p].
  - injection Hlast as ->. apply rtc_refl.
  - destruct (walk_cons_inv g s t y p) as [Hadj Hw]; [repeat split; assumption|].
    eapply rtc_l; [exact Hadj | apply IH, Hw].
Qed.

Lemma reachable_walk (g : Graph) (s t : node) :
  reachable g s t -> exists p, walk g s t p.
Proof.
  revert t. apply (rtc_ind_r (fun t => exists p, walk g s t p)).
  - exists [s]. apply walk_single.
  - intros y z _ Hyz [p Hp]. exists (p ++ [z]). eapply walk_snoc; eassumption.
Qed.

Lemma nonneg_lengths_edge (g : Graph) (u v : node) (e : EdgeAttr) :
  nonneg_lengths g = true -> get_edge g u v = Some e -> (0 <= e_length e)%Q.
Proof.
  unfold nonneg_lengths, get_edge. intros Hnn Hget.
  destruct (OD.get u g) as [en|] eqn:Hu; [|discriminate]. simpl in Hget.
  rewrite forallb_forall in Hnn.
  apply od_get_Some_elem, list_elem_of_In, Hnn in Hu. simpl in Hu.
  rewrite forallb_forall in Hu.
  apply od_get_Some_elem, list_elem_of_In, Hu in Hget.
  apply Qle_bool_iff in Hget. exact Hget.
Qed.

Lemma edge_length_nonneg (g : Graph) (uv : node * node) :
  nonneg_lengths g = true -> (0 <= edge_length g uv)%Q.
Proof.
  intros Hnn. unfold edge_length.
  destruct (get_edge g uv.1 uv.2) as [e|] eqn:He; [|apply Qle_refl].
  eapply nonneg_lengths_edge; eassumption.
Qed.

Lemma path_weight_nonneg (g : Graph) (p : list node) :
  nonneg_lengths g = true -> (0 <= path_weight g p)%Q.
Proof.
  intros Hnn. unfold path_weight.
  induction (path_pairs p) as [|uv l IH]; cbn [foldr]; [apply Qle_refl|].
  pose proof (edge_length_nonneg g uv Hnn). lra.
Qed.

Lemma adjacent_edge_length (g : Graph) (u v : node) :
  adjacent g u v ->
  exists e, get_edge g u v = Some e /\ edge_length g (u, v) = e_length e.
Proof.
  unfold adjacent, has_edge, edge_length. simpl.
  destruct (get_edge g u v) as [e|]; [eauto | discriminate].
Qed.

Lemma od_elem_get {K V : Type} `{EqDecision K} (d : list (K * V)) (k : K) (v : V) :
  NoDup (OD.keys d) -> (k, v) ∈ d -> OD.get k d = Some v.
Proof.
  unfold OD.keys. induction d as [|[k' v'] d IH]; simpl; intros Hnd Hin.
  - inversion Hin.
  - apply NoDup_cons in Hnd as [Hk Hnd].
    apply elem_of_cons in Hin as [[= -> ->]|Hin].
    + destruct (decide (k' = k')); [reflexivity | congruence].
    + destruct (decide (k = k')) as [->|Hne]; [|apply IH; assumption].
      exfalso. apply Hk. apply list_elem_of_fmap. exists (k', v). split; [reflexivity | exact Hin].
Qed.

Lemma wf_graph_entry (g : Graph) (v : node) (en : entry) :
  wf_graph g = true -> OD.get v g = Some en -> NoDup (OD.keys (nbrs en)).
Proof.
  unfold wf_graph. intros [_ H]%andb_prop Hen.
  rewrite forallb_forall in H.
  apply od_get_Some_elem, list_elem_of_In, H in Hen.
  unfold wf_entry in Hen. apply andb_prop in Hen as [Hen _].
  apply bool_decide_eq_true in Hen. exact Hen.
Qed.

Lemma get_edge_elem (g : Graph) (v u : node) (en : entry) (e : EdgeAttr) :
  wf_graph g = true -> OD.get v g = Some en ->
  (get_edge g v u = Some e <-> (u, e) ∈ nbrs en).
Proof.
  intros Hwf Hen. unfold get_edge. rewrite Hen. simpl. split.
  - apply od_get_Some_elem.
  - apply od_elem_get. eapply wf_graph_entry; eassumption.
Qed.

Lemma get_edge_adjacent (g : Graph) (v u : node) (e : EdgeAttr) :
  get_edge g v u = Some e -> adjacent g v u.
Proof. unfold adjacent, has_edge. intros ->. reflexivity. Qed.

(** Without the record of paths the search settles the same distances. *)
Lemma relax_forget (v : node) (st : dijkstra_state) (ue : node * EdgeAttr) :
  relax v (forget_paths st) ue
  = match relax v st ue with
    | Ret st' => Ret (forget_paths st')
    | Raise e => Raise e
    | OutOfFuel => OutOfFuel
    end.
Proof.
  unfold relax. simpl.
  destruct (dist st !! v) as [dv|]; [|reflexivity].
  destruct (dist st !! ue.1) as [du|].
  - destruct (Qltb _ _); reflexivity.
  - destruct (seen st !! ue.1) as [su|]; [destruct (Qltb _ _)|]; reflexivity.
Qed.

Lemma for_each_relax_forget (v : node) (l : list (node * EdgeAttr)) (st : dijkstra_state) :
  for_each (relax v) l (forget_paths st)
  = match for_each (relax v) l st with
    | Ret st' => Ret (forget_paths st')
    | Raise e => Raise e
    | OutOfFuel => OutOfFuel
    end.
Proof.
  revert st. induction l as [|ue l IH]; intros st; simpl; [reflexivity|].
  rewrite relax_forget. destruct (relax v st ue) as [st'| |]; simpl; [apply IH|reflexivity..].
Qed.

Lemma dijkstra_loop_forget (fuel : nat) (g : Graph) (target : node) (st : dijkstra_state) :
  dijkstra_loop fuel g target (forget_paths st)
  = match dijkstra_loop fuel g target st with
    | Ret st' => Ret (forget_paths st')
    | Raise e => Raise e
    | OutOfFuel => OutOfFuel
    end.
Proof.
  revert st. induction fuel as [|fuel IH]; intros st; simpl; [reflexivity|].
  destruct (heappop (fringe st)) as [[[[d c] v] rest]|]; [|reflexivity].
  destruct (bool_decide (v ∈ dom (dist st))).
  - apply (IH (mkDijkstra (dist st) (seen st) rest (count st) (paths st))).
  - destruct (bool_decide (v = target)); [reflexivity|].
    destruct (OD.get v g) as [en|]; [|reflexivity].
    change (mkDijkstra (<[v:=d]> (dist st)) (seen st) rest (count st) None)
      with (forget_paths (mkDijkstra (<[v:=d]> (dist st)) (seen st) rest (count st) (paths st))).
    rewrite for_each_relax_forget.
    destruct (for_each (relax v) (nbrs en) _) as [st'| |]; simpl; [apply IH|reflexivity..].
Qed.

Section dijkstra_facts.
Variables (g : Graph) (s : node).
Hypothesis Hwf : wf_graph g = true.
Hypothesis Hnn : nonneg_lengths g = true.

(** One pass of the loop over the neighbours of the node [v] just
    settled at distance [d], no settled node being farther than [d]. *)
Lemma relax_ok (v : node) (d : Q) (st : dijkstra_state) (u : node) (e : EdgeAttr) :
  dijkstra_inv g s st ->
  dist st !! v = Some d ->
  (forall x dx, dist st !! x = Some dx -> (dx <= d)%Q) ->
  get_edge g v u = Some e ->
  exists st',
    relax v st (u, e) = Ret st' /\
    dijkstra_inv g s st' /\
    dist st' = dist st /\
    (forall x sx, seen st !! x = Some sx ->
       exists sx', seen st' !! x = Some sx' /\ (sx' <= sx)%Q) /\
    (is_Some (dist st !! u) \/
     exists su, seen st' !! u = Some su /\ (su <= d + e_length e)%Q) /\
    (length (fringe st') <= S (length (fringe st)))%nat.
Proof.
  intros Hinv Hv Hmax He.
  pose proof (nonneg_lengths_edge g v u e Hnn He) as Hlen.
  assert (Hadj : adjacent g v u) by (eapply get_edge_adjacent; exact He).
  assert (Hpush : dist st !! u = None ->
    (forall su, seen st !! u = Some su -> (d + e_length e < su)%Q) ->
    exists st',
      Ret (push_node v u (d + e_length e)%Q st) = Ret st' /\
      dijkstra_inv g s st' /\ dist st' = dist st /\
      (forall x sx, seen st !! x = Some sx ->
         exists sx', seen st' !! x = Some sx' /\ (sx' <= sx)%Q) /\
      (is_Some (dist st !! u) \/
       exists su, seen st' !! u = Some su /\ (su <= d + e_length e)%Q) /\
      (length (fringe st') <= S (length (fringe st)))%nat).
  { intros Hu Hless. eexists. split; [reflexivity|].
    destruct Hinv as [Hpaths Hpend Hfringe Hseen Hopt Horder Hstart].
    destruct Hpaths as (ps & Hps & Hpaths).
    destruct (Hseen v d Hv) as [sv Hsv].
    destruct (Hpaths v sv Hsv) as (pv & Hpv & Hwalkv & Hwv).
    rewrite Hv in Hwv. simpl in Hwv.
    split; [|split; [reflexivity|split; [|split]]].
    - constructor; simpl.
      + exists (<[u := pv ++ [u]]> ps). rewrite Hps, Hpv. split; [reflexivity|].
        intros x sx. destruct (decide (x = u)) as [->|Hne].
        * rewrite lookup_insert_eq. intros [= <-].
          exists (pv ++ [u]). rewrite lookup_insert_eq. split; [reflexivity|].
          split; [eapply walk_snoc; eassumption|].
          rewrite Hu. simpl.
          rewrite (path_weight_snoc g pv v u) by (apply Hwalkv).
          destruct (adjacent_edge_length g v u Hadj) as (e' & He' & ->).
          rewrite He in He'. injection He' as <-. rewrite Hwv. reflexivity.
        * rewrite !lookup_insert_ne by congruence. apply Hpaths.
      + intros x sx. destruct (decide (x = u)) as [->|Hne].
        * rewrite lookup_insert_eq. intros [= <-] _. exists (count st). left.
        * rewrite lookup_insert_ne by congruence. intros Hx Hdx.
          destruct (Hpend x sx Hx Hdx) as [c Hc]. exists c. right. exact Hc.
      + intros d0 c0 x [[= -> -> ->]|Hin]%elem_of_cons.
        * split; [eapply wf_graph_closed; eassumption|].
          exists (d + e_length e)%Q. rewrite lookup_insert_eq.
          split; [reflexivity | apply Qle_refl].
        * destruct (Hfringe d0 c0 x Hin) as (Hx & sx & Hsx & Hle).
          split; [exact Hx|].
          destruct (decide (x = u)) as [->|Hne].
          -- exists (d + e_length e)%Q. rewrite lookup_insert_eq. split; [reflexivity|].
             specialize (Hless sx Hsx). lra.
          -- exists sx. rewrite lookup_insert_ne by congruence. auto.
      + intros x dx Hx. destruct (decide (x = u)) as [->|Hne].
        * rewrite lookup_insert_eq. eauto.
        * rewrite lookup_insert_ne by congruence. eapply Hseen, Hx.
      + exact Hopt.
      + intros x dx d0 c0 y Hx [[= -> -> ->]|Hin]%elem_of_cons.
        * specialize (Hmax x dx Hx). lra.
        * eapply Horder; eassumption.
      + left. destruct Hstart as [H|(H & _)]; [exact H|].
        rewrite H, lookup_empty in Hv. discriminate.
    - simpl. intros x sx Hx. destruct (decide (x = u)) as [->|Hne].
      + exists (d + e_length e)%Q. rewrite lookup_insert_eq. split; [reflexivity|].
        specialize (Hless sx Hx). lra.
      + exists sx. rewrite lookup_insert_ne by congruence. split; [exact Hx | apply Qle_refl].
    - right. simpl. exists (d + e_length e)%Q. rewrite lookup_insert_eq.
      split; [reflexivity | apply Qle_refl].
    - simpl. lia. }
  unfold relax. simpl. rewrite Hv.
  destruct (dist st !! u) as [du|] eqn:Hu.
  - specialize (Hmax u du Hu).
    rewrite (proj2 (Qltb_false (d + e_length e) du)) by lra.
    exists st. split; [reflexivity|]. split; [exact Hinv|]. split; [reflexivity|].
    split; [|split; [left; eauto | lia]].
    intros x sx Hx. exists sx. split; [exact Hx | apply Qle_refl].
  - destruct (seen st !! u) as [su|] eqn:Hsu.
    + destruct (Qltb (d + e_length e) su) eqn:Hlt.
      * apply Hpush; [reflexivity|]. intros su' [= <-]. apply Qltb_true, Hlt.
      * exists st. split; [reflexivity|]. split; [exact Hinv|]. split; [reflexivity|].
        split; [|split; [|lia]].
        -- intros x sx Hx. exists sx. split; [exact Hx | apply Qle_refl].
        -- right. exists su. split; [exact Hsu | apply Qltb_false, Hlt].
    + apply Hpush; [reflexivity|]. intros su' [=].
Qed.


(** The whole loop over the neighbours of [v]. *)
Lemma for_each_relax_ok (v : node) (d : Q) (en : entry) :
  OD.get v g = Some en ->
  forall (l : list (node * EdgeAttr)) (st : dijkstra_state),
    (forall ue, ue ∈ l -> ue ∈ nbrs en) ->
    dijkstra_inv g s st ->
    dist st !! v = Some d ->
    (forall x dx, dist st !! x = Some dx -> (dx <= d)%Q) ->
    exists st',
      for_each (relax v) l st = Ret st' /\
      dijkstra_inv g s st' /\
      dist st' = dist st /\
      (forall x sx, seen st !! x = Some sx ->
         exists sx', seen st' !! x = Some sx' /\ (sx' <= sx)%Q) /\
      (forall u e, (u, e) ∈ l ->
         is_Some (dist st !! u) \/
         exists su, seen st' !! u = Some su /\ (su <= d + e_length e)%Q) /\
      (length (fringe st') <= length (fringe st) + length l)%nat.
Proof.
  intros Hen l. induction l as [|[u e] l IH]; intros st Hsub Hinv Hv Hmax.
  - exists st. split; [reflexivity|]. split; [exact Hinv|]. split; [reflexivity|].
    split; [|split; [|simpl; lia]].
    + intros x sx Hx. exists sx. split; [exact Hx | apply Qle_refl].
    + intros u e H. inversion H.
  - assert (He : get_edge g v u = Some e).
    { eapply get_edge_elem; [exact Hwf | exact Hen | apply Hsub; left]. }
    destruct (relax_ok v d st u e Hinv Hv Hmax He)
      as (st1 & Hrun1 & Hinv1 & Hd1 & Hmono1 & Hrel1 & Hlen1).
    destruct (IH st1) as (st2 & Hrun2 & Hinv2 & Hd2 & Hmono2 & Hrel2 & Hlen2).
    + intros ue Hue. apply Hsub. right. exact Hue.
    + exact Hinv1.
    + rewrite Hd1. exact Hv.
    + rewrite Hd1. exact Hmax.
    + exists st2. simpl. rewrite Hrun1. simpl.
      split; [exact Hrun2|]. split; [exact Hinv2|].
      split; [rewrite Hd2, Hd1; reflexivity|].
      split; [|split; [|simpl; lia]].
      * intros x sx Hx. destruct (Hmono1 x sx Hx) as (sx1 & Hx1 & Hle1).
        destruct (Hmono2 x sx1 Hx1) as (sx2 & Hx2 & Hle2).
        exists sx2. split; [exact Hx2 | lra].
      * intros u' e' [[= -> ->]|Hin]%elem_of_cons.
        -- destruct Hrel1 as [H|(su & Hsu & Hle)]; [left; exact H|].
           destruct (Hmono2 u su Hsu) as (su2 & Hsu2 & Hle2).
           right. exists su2. split; [exact Hsu2 | lra].
        -- destruct (Hrel2 u' e' Hin) as [H|H]; [|right; exact H].
           left. rewrite <- Hd1. exact H.
Qed.

(** From a settled node whose edges have been looked at, a walk to a
    node not settled costs at least as much as the cheapest entry of the
    queue. *)
Lemma walk_lower_bound (st : dijkstra_state) (m : Q) :
  dijkstra_inv g s st -> relaxed_but g None st ->
  (forall d c u, (d, c, u) ∈ fringe st -> (m <= d)%Q) ->
  forall (p : list node) (x t : node) (dx : Q),
    walk g x t p -> dist st !! x = Some dx -> dist st !! t = None ->
    (m <= dx + path_weight g p)%Q.
Proof.
  intros Hinv Hrel Hmin p. induction p as [|a p IH]; intros x t dx Hwalk Hx Ht.
  - destruct Hwalk as [H _]. discriminate.
  - pose proof Hwalk as (Hhead & Hlast & Hok). injection Hhead as ->.
    destruct p as [|y p].
    + injection Hlast as ->. congruence.
    + destruct (walk_cons_inv g x t y p Hwalk) as [Hadj Hwalk'].
      destruct (adjacent_edge_length g x y Hadj) as (e & He & Hlen).
      rewrite path_weight_cons, Hlen.
      pose proof (nonneg_lengths_edge g x y e Hnn He) as Hpos.
      pose proof (path_weight_nonneg g (y :: p) Hnn) as Hrest.
      destruct (dist st !! y) as [dy|] eqn:Hy.
      * specialize (IH y t dy Hwalk' Hy Ht).
        assert (Hdy : (dy <= dx + e_length e)%Q).
        { destruct (di_seen _ _ _ Hinv x dx Hx) as [sx Hsx].
          destruct (di_paths _ _ _ Hinv) as (ps & _ & Hpaths).
          destruct (Hpaths x sx Hsx) as (px & _ & Hwx & Hweight).
          rewrite Hx in Hweight. simpl in Hweight.
          pose proof (di_opt _ _ _ Hinv y dy Hy (px ++ [y])
                        (walk_snoc g s x y px Hwx Hadj)) as Hopt.
          rewrite (path_weight_snoc g px x y) in Hopt by (apply Hwx).
          rewrite Hlen, Hweight in Hopt. exact Hopt. }
        lra.
      * destruct (Hrel x dx Hx ltac:(discriminate) y e He) as [[dy Hy']|(su & Hsu & Hle)].
        -- congruence.
        -- destruct (di_pending _ _ _ Hinv y su Hsu Hy) as [c Hc].
           specialize (Hmin su c y Hc). lra.
Qed.

Lemma pending_slots_mono (D D' : gmap node Q) :
  dom D ⊆ dom D' -> (pending_slots g D' <= pending_slots g D)%nat.
Proof.
  intros Hsub. unfold pending_slots. clear Hwf Hnn.
  induction g as [|[n en] g' IH]; simpl; [lia|].
  destruct (decide (n ∈ dom D)) as [Hn|Hn].
  - rewrite (bool_decide_eq_true_2 (n ∈ dom D')) by set_solver.
    rewrite (bool_decide_eq_true_2 (n ∈ dom D)) by exact Hn. simpl. exact IH.
  - rewrite (bool_decide_eq_false_2 (n ∈ dom D)) by exact Hn.
    destruct (bool_decide (n ∈ dom D')); simpl; lia.
Qed.

Lemma pending_slots_settle (D : gmap node Q) (v : node) (d : Q) (en : entry) :
  OD.get v g = Some en -> v ∉ dom D ->
  (pending_slots g (<[v := d]> D) + length (nbrs en) <= pending_slots g D)%nat.
Proof.
  unfold pending_slots. clear Hwf Hnn.
  induction g as [|[n en'] g' IH]; simpl; [discriminate|].
  intros Hget Hv. destruct (decide (v = n)) as [->|Hne].
  - injection Hget as ->.
    rewrite (bool_decide_eq_true_2 (n ∈ dom (<[n:=d]> D))) by set_solver.
    rewrite (bool_decide_eq_false_2 (n ∈ dom D)) by exact Hv. simpl.
    assert (Hsub : dom D ⊆ dom (<[n:=d]> D)) by set_solver.
    clear IH. revert Hsub. generalize (<[n:=d]> D). intros D' Hsub.
    induction g' as [|[m em] g'' IH]; simpl; [lia|].
    destruct (decide (m ∈ dom D)) as [Hm|Hm].
    + rewrite (bool_decide_eq_true_2 (m ∈ dom D')) by set_solver.
      rewrite (bool_decide_eq_true_2 (m ∈ dom D)) by exact Hm. simpl. exact IH.
    + rewrite (bool_decide_eq_false_2 (m ∈ dom D)) by exact Hm.
      destruct (bool_decide (m ∈ dom D')); simpl; lia.
  - specialize (IH Hget Hv).
    destruct (decide (n ∈ dom D)) as [Hn|Hn].
    + rewrite (bool_decide_eq_true_2 (n ∈ dom (<[v:=d]> D))) by set_solver.
      rewrite (bool_decide_eq_true_2 (n ∈ dom D)) by exact Hn. simpl. exact IH.
    + rewrite (bool_decide_eq_false_2 (n ∈ dom (<[v:=d]> D))) by set_solver.
      rewrite (bool_decide_eq_false_2 (n ∈ dom D)) by exact Hn. simpl. lia.
Qed.

(** Popping an entry whose node is settled already. *)
Lemma skip_ok (st : dijkstra_state) (d : Q) (c : nat) (v : node) (rest : list item) :
  dijkstra_inv g s st -> relaxed_but g None st ->
  heappop (fringe st) = Some ((d, c, v), rest) ->
  v ∈ dom (dist st) ->
  let st1 := mkDijkstra (dist st) (seen st) rest (count st) (paths st) in
  dijkstra_inv g s st1 /\ relaxed_but g None st1.
Proof.
  intros Hinv Hrel Hpop Hv st1.
  destruct (heappop_Some _ _ _ Hpop) as [Hperm _].
  assert (Hrest : forall y, y ∈ rest -> y ∈ fringe st).
  { intros y Hy. rewrite Hperm. right. exact Hy. }
  split; [|exact Hrel].
  destruct Hinv as [Hpaths Hpend Hfringe Hseen Hopt Horder Hstart].
  constructor; simpl; try assumption.
  - intros u su Hu Hd. destruct (Hpend u su Hu Hd) as [c' Hc'].
    exists c'. rewrite Hperm in Hc'.
    apply elem_of_cons in Hc' as [[= -> -> ->]|Hc']; [|exact Hc'].
    apply elem_of_dom in Hv as [dv Hdv]. congruence.
  - intros d0 c0 u Hin. apply (Hfringe d0 c0 u), Hrest, Hin.
  - intros u du d0 c0 x Hu Hin. eapply Horder; [exact Hu | apply Hrest, Hin].
  - left. destruct Hstart as [H|(H & _)]; [exact H|].
    rewrite H in Hv. set_solver.
Qed.

(** Popping an entry whose node is not settled yet settles it at the
    distance of the entry. *)
Lemma settle_ok (st : dijkstra_state) (d : Q) (c : nat) (v : node) (rest : list item) :
  dijkstra_inv g s st -> relaxed_but g None st ->
  heappop (fringe st) = Some ((d, c, v), rest) ->
  v ∉ dom (dist st) ->
  let st1 := mkDijkstra (<[v := d]> (dist st)) (seen st) rest (count st) (paths st) in
  dijkstra_inv g s st1 /\ relaxed_but g (Some v) st1 /\
  (forall x dx, dist st1 !! x = Some dx -> (dx <= d)%Q) /\
  v ∈ nodes g.
Proof.
  intros Hinv Hrel Hpop Hv st1.
  destruct (heappop_Some _ _ _ Hpop) as [Hperm Hmin].
  assert (Hin : (d, c, v) ∈ fringe st) by (rewrite Hperm; left).
  assert (Hrest : forall y, y ∈ rest -> y ∈ fringe st).
  { intros y Hy. rewrite Hperm. right. exact Hy. }
  assert (Hdv : dist st !! v = None) by (apply not_elem_of_dom; exact Hv).
  pose proof Hinv as [Hpaths Hpend Hfringe Hseen Hopt Horder Hstart].
  destruct (Hfringe d c v Hin) as (Hnode & sv & Hsv & Hle).
  assert (Heq : (sv == d)%Q).
  { destruct (Hpend v sv Hsv Hdv) as [c' Hc']. specialize (Hmin _ Hc'). simpl in Hmin. lra. }
  split; [|split; [|split]]; [|
    | intros x dx; subst st1; simpl; destruct (decide (x = v)) as [->|Hne];
      [rewrite lookup_insert_eq; intros [= <-]; apply Qle_refl
      |rewrite lookup_insert_ne by congruence; intros Hx; eapply Horder; eassumption]
    | exact Hnode].
  - constructor; simpl.
    + destruct Hpaths as (ps & Hps & Hpaths). exists ps. split; [exact Hps|].
      intros u su Hu. destruct (Hpaths u su Hu) as (p & Hp & Hwalk & Hweight).
      exists p. split; [exact Hp|]. split; [exact Hwalk|].
      destruct (decide (u = v)) as [->|Hne].
      * rewrite lookup_insert_eq. simpl. rewrite Hdv in Hweight. simpl in Hweight.
        rewrite Hweight. assert (su = sv) by congruence. subst su. exact Heq.
      * rewrite lookup_insert_ne by congruence. exact Hweight.
    + intros u su Hu Hd. destruct (decide (u = v)) as [->|Hne].
      * rewrite lookup_insert_eq in Hd. discriminate.
      * rewrite lookup_insert_ne in Hd by congruence.
        destruct (Hpend u su Hu Hd) as [c' Hc']. exists c'.
        rewrite Hperm in Hc'. apply elem_of_cons in Hc' as [[= -> -> ->]|Hc']; [congruence|exact Hc'].
    + intros d0 c0 u Hu. apply (Hfringe d0 c0 u), Hrest, Hu.
    + intros u du. destruct (decide (u = v)) as [->|Hne].
      * intros _. eauto.
      * rewrite lookup_insert_ne by congruence. apply Hseen.
    + intros u du. destruct (decide (u = v)) as [->|Hne].
      * rewrite lookup_insert_eq. intros [= <-] p Hwalk.
        destruct Hstart as [[ds Hds]|(Hempty & _ & Hinit)].
        -- assert (Hbound : (d <= ds + path_weight g p)%Q).
           { eapply (walk_lower_bound st d Hinv Hrel); [|exact Hwalk|exact Hds|exact Hdv].
             intros d0 c0 u Hu. apply (Hmin _ Hu). }
           pose proof (Hopt s ds Hds [s] (walk_single g s)) as Hs.
           change (path_weight g [s]) with 0%Q in Hs. lra.
        -- rewrite Hinit in Hin. apply list_elem_of_singleton in Hin.
           injection Hin as -> _ _. apply path_weight_nonneg, Hnn.
      * rewrite lookup_insert_ne by congruence. apply Hopt.
    + intros u du d0 c0 x Hu Hx. destruct (decide (u = v)) as [->|Hne].
      * rewrite lookup_insert_eq in Hu. injection Hu as <-.
        apply (Hmin _ (Hrest _ Hx)).
      * rewrite lookup_insert_ne in Hu by congruence.
        eapply Horder; [exact Hu | apply Hrest, Hx].
    + left. destruct Hstart as [[ds Hds]|(_ & _ & Hinit)].
      * destruct (decide (s = v)) as [->|Hne]; [congruence|].
        rewrite lookup_insert_ne by congruence. eauto.
      * rewrite Hinit in Hin. apply list_elem_of_singleton in Hin.
        injection Hin as _ _ ->. rewrite lookup_insert_eq. eauto.
  - intros x dx Hx Hskip u e He. subst st1. simpl in *.
    assert (Hne : x <> v) by congruence.
    rewrite lookup_insert_ne in Hx by congruence.
    destruct (Hrel x dx Hx ltac:(discriminate) u e He) as [[du Hdu]|H]; [|right; exact H].
    left. destruct (decide (u = v)) as [->|Hne'].
    + rewrite lookup_insert_eq. eauto.
    + rewrite lookup_insert_ne by congruence. eauto.
Qed.

(** The [while fringe] loop returns, with fuel to spare, either at the
    target or with an empty queue. *)
Lemma dijkstra_loop_ok (target : node) (fuel : nat) :
  forall st : dijkstra_state,
    dijkstra_inv g s st -> relaxed_but g None st ->
    (length (fringe st) + pending_slots g (dist st) < fuel)%nat ->
    exists st',
      dijkstra_loop fuel g target st = Ret st' /\
      dijkstra_inv g s st' /\
      (is_Some (dist st' !! target) \/
       (fringe st' = [] /\ relaxed_but g None st')).
Proof.
  induction fuel as [|fuel IH]; intros st Hinv Hrel Hfuel; [lia|].
  simpl. destruct (heappop (fringe st)) as [[[[d c] v] rest]|] eqn:Hpop.
  2: { apply heappop_None in Hpop. exists st. auto. }
  destruct (heappop_Some _ _ _ Hpop) as [Hperm _].
  assert (Hlen : length (fringe st) = S (length rest)) by (rewrite Hperm; reflexivity).
  destruct (decide (v ∈ dom (dist st))) as [Hv|Hv].
  - rewrite bool_decide_eq_true_2 by exact Hv.
    destruct (skip_ok st d c v rest Hinv Hrel Hpop Hv) as [Hinv1 Hrel1].
    apply IH; [exact Hinv1 | exact Hrel1 | simpl; lia].
  - rewrite bool_decide_eq_false_2 by exact Hv.
    destruct (settle_ok st d c v rest Hinv Hrel Hpop Hv) as (Hinv1 & Hrel1 & Hmax & Hnode).
    set (st1 := mkDijkstra (<[v := d]> (dist st)) (seen st) rest (count st) (paths st)) in *.
    destruct (decide (v = target)) as [->|Hne].
    { rewrite bool_decide_eq_true_2 by reflexivity.
      exists st1. split; [reflexivity|]. split; [exact Hinv1|].
      left. simpl. rewrite lookup_insert_eq. eauto. }
    rewrite bool_decide_eq_false_2 by exact Hne.
    apply od_get_is_Some in Hnode as [en Hen]. rewrite Hen.
    destruct (for_each_relax_ok v d en Hen (nbrs en) st1)
      as (st2 & Hrun & Hinv2 & Hd2 & Hmono & Hdone & Hlen2); auto.
    { simpl. apply lookup_insert_eq. }
    rewrite Hrun. simpl. apply IH.
    + exact Hinv2.
    + intros x dx Hx _ u e He. rewrite Hd2 in Hx |- *.
      destruct (decide (x = v)) as [->|Hxv].
      * assert (Hdx : dx = d).
        { simpl in Hx. rewrite lookup_insert_eq in Hx. congruence. }
        subst dx. apply Hdone. eapply get_edge_elem; eassumption.
      * destruct (Hrel1 x dx Hx ltac:(congruence) u e He) as [H|(su & Hsu & Hle)];
          [left; exact H|].
        destruct (Hmono u su Hsu) as (su' & Hsu' & Hle').
        right. exists su'. split; [exact Hsu' | lra].
    + rewrite Hd2. simpl.
      pose proof (pending_slots_settle (dist st) v d en Hen Hv). simpl in Hlen2. lia.
Qed.

Lemma initial_inv (with_node : s ∈ nodes g) :
  let st0 := mkDijkstra ∅ {[ s := 0%Q ]} [(0%Q, O, s)] 1 (Some {[ s := [s] ]}) in
  dijkstra_inv g s st0 /\ relaxed_but g None st0 /\
  (length (fringe st0) + pending_slots g (dist st0) < dijkstra_fuel g)%nat.
Proof.
  intros st0. split; [|split].
  - constructor; simpl.
    + eexists. split; [reflexivity|].
      intros u su [<- <-]%lookup_singleton_Some.
      exists [s]. rewrite lookup_singleton_eq, lookup_empty.
      split; [reflexivity|]. split; [apply walk_single | reflexivity].
    + intros u su [<- <-]%lookup_singleton_Some _. exists O. left.
    + intros d c u [= -> -> ->]%list_elem_of_singleton.
      split; [exact with_node|]. exists 0%Q. rewrite lookup_singleton_eq.
      split; [reflexivity | apply Qle_refl].
    + intros u d H. rewrite lookup_empty in H. discriminate.
    + intros u d H. rewrite lookup_empty in H. discriminate.
    + intros u du d c x H. rewrite lookup_empty in H. discriminate.
    + right. auto.
  - intros v dv H. simpl in H. rewrite lookup_empty in H. discriminate.
  - simpl. unfold dijkstra_fuel, pending_slots.
    assert (Hle : forall l : list (node * entry),
      (sum_list (map (fun ne : node * entry =>
                        if bool_decide (ne.1 ∈ dom (∅ : gmap node Q)) then O
                        else length (nbrs ne.2)) l)
       <= sum_list (map (fun ne : node * entry => length (nbrs ne.2)) l))%nat).
    { induction l as [|x l IHl]; simpl; [lia|].
      destruct (bool_decide _); simpl; lia. }
    specialize (Hle g). lia.
Qed.

(** What the search from a node of the graph to another node settles. *)
Lemma dijkstra_multisource_ok (target : node) :
  s ∈ nodes g ->
  exists st,
    _dijkstra_multisource g s target true = Ret st /\
    _dijkstra_multisource g s target false = Ret (forget_paths st) /\
    (forall d, dist st !! target = Some d ->
       exists ps p, paths st = Some ps /\ ps !! target = Some p /\
                    walk g s target p /\ (path_weight g p == d)%Q /\
                    forall p', walk g s target p' -> (d <= path_weight g p')%Q) /\
    (dist st !! target = None -> ~ reachable g s target).
Proof.
  intros Hs. destruct (initial_inv Hs) as (Hinv0 & Hrel0 & Hfuel0).
  destruct (dijkstra_loop_ok target (dijkstra_fuel g) _ Hinv0 Hrel0 Hfuel0)
    as (st & Hrun & Hinv & Hend).
  exists st. split; [exact Hrun|]. split.
  { unfold _dijkstra_multisource in *.
    change (mkDijkstra ∅ {[s := 0%Q]} [(0%Q, O, s)] 1 None)
      with (forget_paths (mkDijkstra ∅ {[s := 0%Q]} [(0%Q, O, s)] 1 (Some {[s := [s]]}))).
    rewrite dijkstra_loop_forget, Hrun. reflexivity. }
  split.
  - intros d Hd. destruct (di_seen _ _ _ Hinv target d Hd) as [su Hsu].
    destruct (di_paths _ _ _ Hinv) as (ps & Hps & Hpaths).
    destruct (Hpaths target su Hsu) as (p & Hp & Hwalk & Hweight).
    rewrite Hd in Hweight. simpl in Hweight.
    exists ps, p. repeat split; try assumption; try apply Hwalk.
    intros p' Hp'. eapply (di_opt _ _ _ Hinv); eassumption.
  - intros Hnone Hreach. destruct Hend as [[d Hd]|[Hempty Hrel]]; [congruence|].
    destruct (reachable_walk g s target Hreach) as [p Hp].
    destruct (di_start _ _ _ Hinv) as [[ds Hds]|(_ & _ & Hinit)].
    + pose proof (walk_lower_bound st (ds + path_weight g p + 1)%Q Hinv Hrel) as Hb.
      specialize (Hb ltac:(intros d c u Hu; rewrite Hempty in Hu; inversion Hu)
                     p s target ds Hp Hds Hnone).
      lra.
    + rewrite Hempty in Hinit. discriminate.
Qed.

End dijkstra_facts.

Lemma has_node_true (g : Graph) (n : node) : has_node g n = true <-> n ∈ nodes g.
Proof. apply od_mem_true. Qed.

(** All the outcomes of [find_optimal_path] on a well-formed graph
    without negative lengths. *)
Lemma find_optimal_path_outcome (g : Graph) (s t : node) :
  wf_graph g = true -> nonneg_lengths g = true ->
  (s ∉ nodes g /\ find_optimal_path g s t = Raise NodeNotFound) \/
  (s ∈ nodes g /\ ~ reachable g s t /\ find_optimal_path g s t = Ret (None, PosInf)) \/
  (s ∈ nodes g /\
   exists p w, find_optimal_path g s t = Ret (Some p, Finite w) /\
               walk g s t p /\ (path_weight g p == w)%Q /\
               forall p', walk g s t p' -> (w <= path_weight g p')%Q).
Proof.
  intros Hwf Hnn. unfold find_optimal_path, dijkstra_path, dijkstra_path_length.
  destruct (has_node g s) eqn:Hs; simpl.
  2: { left. split; [|reflexivity]. rewrite <- has_node_true, Hs. discriminate. }
  apply has_node_true in Hs. right.
  destruct (decide (t = s)) as [->|Hne].
  { rewrite !bool_decide_eq_true_2 by reflexivity. right. split; [exact Hs|].
    exists [s], 0%Q. split; [reflexivity|]. split; [apply walk_single|].
    split; [reflexivity|]. intros p' _. apply path_weight_nonneg, Hnn. }
  rewrite (bool_decide_eq_false_2 (t = s)) by exact Hne.
  rewrite (bool_decide_eq_false_2 (s = t)) by congruence.
  destruct (dijkstra_multisource_ok g s Hwf Hnn t Hs) as (st & Hrun & Hrun' & Hsome & Hnone).
  rewrite Hrun, Hrun'. cbn [mbind result_bind rbind forget_paths dist].
  destruct (dist st !! t) as [d|] eqn:Hd.
  - right. split; [exact Hs|].
    destruct (Hsome d eq_refl) as (ps & p & Hps & Hp & Hwalk & Hweight & Hopt).
    rewrite Hps. cbn [mbind option_bind]. rewrite Hp.
    exists p, d. auto.
  - left. split; [exact Hs|]. split; [apply Hnone; reflexivity|].
    reflexivity.
Qed.

(** C5 at its failing input: the sample harness has no node Battery;
    with Battery as the target [find_optimal_path] reports no path, with
    weight infinity, and with Battery as the source it raises
    [NodeNotFound], which its [except] clause does not catch. *)
Theorem missing_source_is_not_caught :
  has_node load_sample_data "Battery" = false /\
  find_optimal_path load_sample_data "ECU" "Battery" = Ret (None, PosInf) /\
  find_optimal_path load_sample_data "Battery" "ECU" = Raise NodeNotFound /\
  find_optimal_path load_sample_data "Battery" "Battery" = Raise NodeNotFound.
Proof.
  split; [vm_compute; reflexivity|].
  split; [vm_compute; reflexivity|].
  split; vm_compute; reflexivity.
Qed.

(** X1: [find_optimal_path] catches [NetworkXNoPath] only: a source that is
    not a node of the graph raises [NodeNotFound], whatever the target.
    With the source in the graph it returns, and it reports no path, with
    weight infinity, exactly when the target cannot be reached from the
    source; a target that is not a node is such a target. *)
Theorem find_optimal_path_no_path (g : Graph) (source target : node) :
  wf_graph g = true -> nonneg_lengths g = true ->
  (has_node g source = false ->
   find_optimal_path g source target = Raise NodeNotFound) /\
  (has_node g source = true ->
   (exists r, find_optimal_path g source target = Ret r) /\
   (find_optimal_path g source target = Ret (None, PosInf)
    <-> ~ reachable g source target) /\
   (has_node g target = false ->
    find_optimal_path g source target = Ret (None, PosInf))).
Proof.
  intros Hwf Hnn. split.
  { intros Hs. unfold find_optimal_path, dijkstra_path. rewrite Hs. reflexivity. }
  intros Hs. apply has_node_true in Hs.
  assert (Hiff : find_optimal_path g source target = Ret (None, PosInf)
                 <-> ~ reachable g source target).
  { destruct (find_optimal_path_outcome g source target Hwf Hnn)
      as [[Hno _]|[(_ & Hunreach & Hrun)|(_ & p & w & Hrun & Hwalk & _)]].
    - contradiction.
    - rewrite Hrun. tauto.
    - rewrite Hrun. split; [discriminate|].
      intros Hunreach. exfalso. eapply Hunreach, walk_reachable, Hwalk. }
  split; [|split; [exact Hiff|]].
  - destruct (find_optimal_path_outcome g source target Hwf Hnn)
      as [[Hno _]|[(_ & _ & Hrun)|(_ & p & w & Hrun & _)]]; [contradiction|eauto..].
  - intros Ht. apply Hiff. intros Hreach.
    assert (target ∈ nodes g) by (eapply reachable_stays_in_graph; eassumption).
    apply has_node_true in H. congruence.
Qed.

(** On the sample harness, which has no node Battery. *)
Lemma find_optimal_path_no_path_sample :
  find_optimal_path load_sample_data "Battery" "ECU" = Raise NodeNotFound /\
  find_optimal_path load_sample_data "ECU" "Battery" = Ret (None, PosInf).
Proof.
  assert (Hwf : wf_graph load_sample_data = true) by (vm_compute; reflexivity).
  assert (Hnn : nonneg_lengths load_sample_data = true) by (vm_compute; reflexivity).
  split.
  - apply (find_optimal_path_no_path load_sample_data "Battery" "ECU" Hwf Hnn).
    vm_compute; reflexivity.
  - destruct (find_optimal_path_no_path load_sample_data "ECU" "Battery" Hwf Hnn)
      as [_ H].
    destruct H as (_ & _ & H); [vm_compute; reflexivity|].
    apply H. vm_compute; reflexivity.
Defined.

(** X2, in exact arithmetic (lengths are rationals here, which neither
    round nor overflow): a path returned by [find_optimal_path] starts at
    the source, ends at the target, follows edges of the graph, and the
    weight returned with it is the sum of the lengths of its edges. *)
Theorem find_optimal_path_is_walk (g : Graph) (source target : node)
    (p : list node) (w : weight) :
  wf_graph g = true -> nonneg_lengths g = true ->
  find_optimal_path g source target = Ret (Some p, w) ->
  exists q, w = Finite q /\ walk g source target p /\ (path_weight g p == q)%Q.
Proof.
  intros Hwf Hnn Hrun.
  destruct (find_optimal_path_outcome g source target Hwf Hnn)
    as [[_ Hr]|[(_ & _ & Hr)|(_ & p' & w' & Hr & Hwalk & Hweight & _)]];
    rewrite Hr in Hrun; try discriminate.
  injection Hrun as <- <-. eauto.
Qed.


Lemma sample_optimal_path :
  find_optimal_path load_sample_data "ECU" "Actuator2"
  = Ret (Some ["ECU"; "Junction1"; "Junction2"; "Actuator2"], Finite 4.600%Q).
Proof. vm_compute. reflexivity. Qed.

Lemma find_optimal_path_is_walk_sample :
  wf_graph load_sample_data = true /\ nonneg_lengths load_sample_data = true /\
  walk load_sample_data "ECU" "Actuator2" ["ECU"; "Junction1"; "Junction2"; "Actuator2"].
Proof.
  assert (Hwf : wf_graph load_sample_data = true) by (vm_compute; reflexivity).
  assert (Hnn : nonneg_lengths load_sample_data = true) by (vm_compute; reflexivity).
  split; [exact Hwf|]. split; [exact Hnn|].
  destruct (find_optimal_path_is_walk load_sample_data "ECU" "Actuator2" _ _ Hwf Hnn
              sample_optimal_path) as (q & _ & Hwalk & _).
  exact Hwalk.
Defined.


(** ** The length of a path and the complexity of a found path *)

Lemma path_length_acc (g : Graph) (pairs : list (node * node)) (acc : Q) :
  let body := fun (acc : Q) (uv : node * node) =>
                match get_edge g uv.1 uv.2 with
                | None => Raise KeyError
                | Some e => Ret (acc + e_length e)%Q
                end in
  (Forall (fun uv : node * node => adjacent g uv.1 uv.2) pairs ->
   exists w, for_each body pairs acc = Ret w /\
             (w == acc + foldr (fun uv a => (edge_length g uv + a)%Q) 0%Q pairs)%Q) /\
  (~ Forall (fun uv : node * node => adjacent g uv.1 uv.2) pairs ->
   for_each body pairs acc = Raise KeyError).
Proof.
  intros body. revert acc. induction pairs as [|[u v] l IH]; intros acc.
  - split.
    + intros _. exists acc. split; [reflexivity|]. cbn [foldr]. lra.
    + intros H. exfalso. apply H. constructor.
  - cbn [for_each]. unfold body at 1 3. cbn [fst snd].
    destruct (get_edge g u v) as [e|] eqn:He.
    + assert (Hadj : adjacent g u v) by (eapply get_edge_adjacent; exact He).
      destruct (IH (acc + e_length e)%Q) as [IH1 IH2].
      cbn [rbind foldr]. unfold edge_length at 1. cbn [fst snd]. rewrite He. split.
      * intros Hall. apply Forall_cons in Hall as [_ Hall].
        destruct (IH1 Hall) as (w & Hw & Heq). exists w. split; [exact Hw|].
        rewrite Heq. lra.
      * intros Hnot. apply IH2. intros Hall. apply Hnot. constructor; assumption.
    + split; [|reflexivity].
      intros Hall. apply Forall_cons in Hall as [Hadj _].
      unfold adjacent, has_edge in Hadj. simpl in Hadj. rewrite He in Hadj. discriminate.
Qed.

Lemma path_length_walk (g : Graph) (p : list node) :
  (path_ok g p -> exists w, path_length g p = Ret w /\ (w == path_weight g p)%Q) /\
  (~ path_ok g p -> path_length g p = Raise KeyError).
Proof.
  unfold path_ok, path_length, path_weight.
  destruct (path_length_acc g (path_pairs p) 0%Q) as [H1 H2]. split.
  - intros Hok. destruct (H1 Hok) as (w & Hw & Heq). exists w. split; [exact Hw|].
    rewrite Heq. lra.
  - exact H2.
Qed.

(** X5: In path mode [estimate_installation_complexity] raises [KeyError]
    as soon as two consecutive nodes of the path are not joined by an
    edge, in both analyzers, where [estimate_bundle_diameter] skips the
    pair. *)
Theorem path_complexity_needs_edges (g : Graph) (n : node) (p : list node) :
  ~ path_ok g (n :: p) ->
  Hier.estimate_installation_complexity g (Some (n :: p)) = Raise KeyError /\
  Simple.estimate_installation_complexity g (Some (n :: p)) = Raise KeyError.
Proof.
  intros Hnot.
  unfold Hier.estimate_installation_complexity, Simple.estimate_installation_complexity,
    path_complexity.
  destruct (path_length_walk g (n :: p)) as [_ H]. rewrite (H Hnot). auto.
Qed.

Lemma path_complexity_needs_edges_sample :
  ~ path_ok load_sample_data ["ECU"; "Sensor1"] /\
  Hier.estimate_installation_complexity load_sample_data (Some ["ECU"; "Sensor1"])
  = Raise KeyError.
Proof.
  assert (Hnot : ~ path_ok load_sample_data ["ECU"; "Sensor1"]).
  { intros H. unfold path_ok in H. apply Forall_cons in H as [H _].
    vm_compute in H. discriminate. }
  split; [exact Hnot|].
  apply (path_complexity_needs_edges load_sample_data "ECU" ["Sensor1"] Hnot).
Defined.

(** X6: The path [find_optimal_path] returns can be handed on as the GUI
    does: its length as [estimate_installation_complexity] sums it is the
    weight returned with it, and when the wires along it have gauges the
    complexity of the path is that weight times the bundle diameter of the
    path times 0.8, clamped to [1, 10]. *)
Theorem optimal_path_complexity (g : Graph) (source target : node)
    (p : list node) (q : Q) :
  wf_graph g = true -> nonneg_lengths g = true ->
  find_optimal_path g source target = Ret (Some p, Finite q) ->
  (exists w, path_length g p = Ret w /\ (w == q)%Q) /\
  forall gs, path_gauges g p = map Some gs ->
    let d := diameter_of (rsum (map area_of (map wire_diameter gs))) in
    path_bundle_diameter g p = Ret d /\
    Hier.estimate_installation_complexity g (Some p)
    = Ret (Some (Rmin 10 (Rmax 1 (Q2R q * d * 0.8)))) /\
    Simple.estimate_installation_complexity g (Some p)
    = Ret (Some (Rmin 10 (Rmax 1 (Q2R q * d * 0.8)))).
Proof.
  intros Hwf Hnn Hrun.
  assert (Hfound : walk g source target p /\ (path_weight g p == q)%Q).
  { destruct (find_optimal_path_outcome g source target Hwf Hnn)
      as [[_ Hr]|[(_ & _ & Hr)|(_ & p' & w' & Hr & Hwalk & Hweight & _)]];
      rewrite Hr in Hrun; try discriminate.
    injection Hrun as <- <-. auto. }
  destruct Hfound as [Hwalk Hweight].
  destruct (path_length_walk g p) as [Hlen _].
  destruct (Hlen ltac:(apply Hwalk)) as (w & Hw & Heq).
  assert (Hwq : (w == q)%Q) by (rewrite Heq; exact Hweight).
  split; [eauto|].
  intros gs Hgs d.
  destruct (path_bundle_diameter_gauges g p) as [Hd _]. specialize (Hd gs Hgs).
  split; [exact Hd|].
  destruct p as [|n p]; [destruct Hwalk as [H _]; discriminate|].
  unfold Hier.estimate_installation_complexity, Simple.estimate_installation_complexity,
    path_complexity.
  rewrite Hw, Hd. cbn [mbind result_bind rbind]. rewrite clamp_value.
  rewrite (Qeq_eqR _ _ Hwq). auto.
Qed.

Lemma optimal_path_complexity_sample :
  wf_graph load_sample_data = true /\ nonneg_lengths load_sample_data = true /\
  exists w, path_length load_sample_data ["ECU"; "Junction1"; "Junction2"; "Actuator2"]
            = Ret w /\ (w == 4.600)%Q.
Proof.
  assert (Hwf : wf_graph load_sample_data = true) by (vm_compute; reflexivity).
  assert (Hnn : nonneg_lengths load_sample_data = true) by (vm_compute; reflexivity).
  split; [exact Hwf|]. split; [exact Hnn|].
  exact (proj1 (optimal_path_complexity load_sample_data "ECU" "Actuator2" _ _ Hwf Hnn
                  sample_optimal_path)).
Defined.

(** ** Building graphs *)

Section od_set_facts.
Context {K V : Type} `{EqDecision K}.
Implicit Types (d : list (K * V)) (k : K) (v : V).

Lemma od_get_set d k k' v :
  OD.get k' (OD.set k v d) = if decide (k' = k) then Some v else OD.get k' d.
Proof.
  induction d as [|[k0 v0] d IH]; simpl.
  - destruct (decide (k' = k)); reflexivity.
  - destruct (decide (k = k0)) as [->|Hne]; simpl.
    + destruct (decide (k' = k0)); reflexivity.
    + destruct (decide (k' = k0)) as [->|Hne'].
      * destruct (decide (k0 = k)); [congruence | reflexivity].
      * exact IH.
Qed.

Lemma od_keys_set d k v :
  OD.keys (OD.set k v d) = if bool_decide (k ∈ OD.keys d) then OD.keys d else OD.keys d ++ [k].
Proof.
  unfold OD.keys. induction d as [|[k0 v0] d IH]; [reflexivity|].
  cbn [OD.set]. destruct (decide (k = k0)) as [->|Hne]; rewrite !fmap_cons; cbn [fst].
  - rewrite bool_decide_eq_true_2 by left. reflexivity.
  - rewrite IH. destruct (decide (k ∈ d.*1)) as [Hin|Hout].
    + rewrite !bool_decide_eq_true_2; [reflexivity | right; exact Hin | exact Hin].
    + rewrite !bool_decide_eq_false_2; [reflexivity | | exact Hout].
      intros [?|?]%elem_of_cons; contradiction.
Qed.

Lemma od_set_nodup d k v : NoDup (OD.keys d) -> NoDup (OD.keys (OD.set k v d)).
Proof.
  intros Hnd. rewrite od_keys_set. destruct (decide (k ∈ OD.keys d)) as [Hin|Hout].
  - rewrite bool_decide_eq_true_2 by exact Hin. exact Hnd.
  - rewrite bool_decide_eq_false_2 by exact Hout.
    apply NoDup_app. split; [exact Hnd|]. split.
    + intros x Hx ->%list_elem_of_singleton. contradiction.
    + apply NoDup_singleton.
Qed.

End od_set_facts.

Lemma get_edge_add_node (g : Graph) (n : node) (a : NodeAttr) (u v : node) :
  get_edge (add_node g n a) u v = get_edge g u v.
Proof.
  unfold get_edge, add_node.
  destruct (OD.get n g) as [en|] eqn:Hn; rewrite od_get_set;
    destruct (decide (u = n)) as [->|Hne]; try reflexivity; rewrite Hn; reflexivity.
Qed.

Lemma add_node_wf (g : Graph) (n : node) (a : NodeAttr) :
  wf_lookup g -> wf_lookup (add_node g n a).
Proof.
  intros (Hnd & Hnb & Hsym). split; [|split].
  - unfold add_node. destruct (OD.get n g); apply od_set_nodup, Hnd.
  - intros m en. unfold add_node.
    destruct (OD.get n g) as [en0|] eqn:Hn; rewrite od_get_set;
      destruct (decide (m = n)) as [->|Hne]; try apply Hnb.
    + intros [= <-]. simpl. eapply Hnb, Hn.
    + intros [= <-]. simpl. constructor.
  - intros u v b. rewrite !get_edge_add_node. apply Hsym.
Qed.

Lemma has_node_add_node (g : Graph) (n m : node) (a : NodeAttr) :
  has_node g m = true -> has_node (add_node g n a) m = true.
Proof.
  rewrite !has_node_true. unfold nodes, add_node.
  destruct (OD.get n g); rewrite od_keys_set; destruct (bool_decide _); set_solver.
Qed.

Lemma has_node_added (g : Graph) (n : node) (a : NodeAttr) :
  has_node (add_node g n a) n = true.
Proof.
  apply has_node_true. unfold nodes. apply od_get_is_Some.
  unfold add_node. destruct (OD.get n g); rewrite od_get_set;
    destruct (decide (n = n)); try congruence; eauto.
Qed.

Lemma get_edge_set_nbr (g : Graph) (u v : node) (a : EdgeAttr) (x y : node) :
  has_node g u = true ->
  get_edge (set_nbr g u v a) x y
  = if decide (x = u /\ y = v) then Some a else get_edge g x y.
Proof.
  intros Hu. apply has_node_true, od_get_is_Some in Hu as [en Hen].
  unfold get_edge, set_nbr. rewrite Hen, od_get_set.
  destruct (decide (x = u)) as [->|Hne]; simpl.
  - rewrite od_get_set, Hen. simpl.
    destruct (decide (y = v)) as [->|Hne'].
    + rewrite decide_True by auto. reflexivity.
    + rewrite decide_False by tauto. reflexivity.
  - rewrite decide_False by tauto. reflexivity.
Qed.

Lemma set_nbr_shape (g : Graph) (u v : node) (a : EdgeAttr) :
  NoDup (OD.keys g) ->
  (forall n en, OD.get n g = Some en -> NoDup (OD.keys (nbrs en))) ->
  NoDup (OD.keys (set_nbr g u v a)) /\
  (forall n en, OD.get n (set_nbr g u v a) = Some en -> NoDup (OD.keys (nbrs en))) /\
  (forall m, has_node g m = true -> has_node (set_nbr g u v a) m = true).
Proof.
  intros Hnd Hnb. unfold set_nbr.
  destruct (OD.get u g) as [en|] eqn:Hen; [|auto].
  split; [apply od_set_nodup, Hnd|]. split.
  - intros n en'. rewrite od_get_set. destruct (decide (n = u)) as [->|Hne].
    + intros [= <-]. simpl. apply od_set_nodup. eapply Hnb, Hen.
    + apply Hnb.
  - intros m. rewrite !has_node_true. unfold nodes. rewrite od_keys_set.
    destruct (bool_decide _); set_solver.
Qed.

Lemma add_edge_wf (g : Graph) (u v : node) (a : EdgeAttr) :
  wf_lookup g -> wf_lookup (add_edge g u v a).
Proof.
  intros Hg. unfold add_edge.
  set (g1 := if has_node g u then g else add_node g u no_attr).
  assert (Hg1 : wf_lookup g1 /\ has_node g1 u = true).
  { subst g1. destruct (has_node g u) eqn:Hu; [auto|].
    split; [apply add_node_wf, Hg | apply has_node_added]. }
  destruct Hg1 as [Hg1 Hu1].
  set (g2 := if has_node g1 v then g1 else add_node g1 v no_attr).
  assert (Hg2 : wf_lookup g2 /\ has_node g2 u = true /\ has_node g2 v = true).
  { subst g2. destruct (has_node g1 v) eqn:Hv; [auto|].
    split; [apply add_node_wf, Hg1|].
    split; [apply has_node_add_node, Hu1 | apply has_node_added]. }
  destruct Hg2 as ((Hnd & Hnb & Hsym) & Hu2 & Hv2).
  set (dd := update_edge_attr (get_edge g2 u v) a).
  destruct (set_nbr_shape g2 u v dd Hnd Hnb) as (Hnd3 & Hnb3 & Hnodes3).
  destruct (set_nbr_shape (set_nbr g2 u v dd) v u dd Hnd3 Hnb3) as (Hnd4 & Hnb4 & _).
  split; [exact Hnd4|]. split; [exact Hnb4|].
  intros x y b.
  rewrite !(get_edge_set_nbr (set_nbr g2 u v dd) v u dd) by (apply Hnodes3, Hv2).
  rewrite !(get_edge_set_nbr g2 u v dd) by exact Hu2.
  destruct (decide (x = v /\ y = u)) as [[-> ->]|H1].
  - intros [= <-]. destruct (decide (u = v /\ v = u)); [reflexivity|].
    rewrite decide_True by auto. reflexivity.
  - destruct (decide (x = u /\ y = v)) as [[-> ->]|H2].
    + intros [= <-]. rewrite decide_True by auto. reflexivity.
    + intros Hxy. rewrite decide_False by tauto. rewrite decide_False by tauto.
      apply Hsym, Hxy.
Qed.

Lemma wf_lookup_empty : wf_lookup empty_graph.
Proof.
  split; [constructor|]. split; [intros n en H; discriminate | intros u v a H; discriminate].
Qed.

Lemma wf_lookup_wf_graph (g : Graph) : wf_lookup g -> wf_graph g = true.
Proof.
  intros (Hnd & Hnb & Hsym). unfold wf_graph.
  apply andb_true_intro. split; [apply bool_decide_eq_true_2, Hnd|].
  apply forallb_forall. intros [n en] Hin%list_elem_of_In.
  apply (od_elem_get g n en Hnd) in Hin.
  unfold wf_entry. simpl. apply andb_true_intro.
  split; [apply bool_decide_eq_true_2; eapply Hnb, Hin|].
  apply forallb_forall. intros [v a] Hva%list_elem_of_In.
  apply bool_decide_eq_true_2. simpl. apply Hsym.
  unfold get_edge. rewrite Hin. simpl.
  apply od_elem_get; [eapply Hnb, Hin | exact Hva].
Qed.

(** X7: Every graph built the way [load_sample_data] builds its graph, nodes
    first and then edges, from whatever lists, is well-formed: the
    theorems about well-formed graphs hold of every harness the analyzers
    can be given. *)
Theorem built_graph_is_wf (ns : list (node * NodeAttr)) (es : list (node * node * EdgeAttr)) :
  wf_graph (add_edges_from (add_nodes_from empty_graph ns) es) = true.
Proof.
  apply wf_lookup_wf_graph. unfold add_edges_from, add_nodes_from.
  assert (Hn : forall l g, wf_lookup g ->
            wf_lookup (fold_left (fun g na => add_node g na.1 na.2) l g)).
  { induction l as [|x l IH]; intros g Hg; simpl; [exact Hg|].
    apply IH, add_node_wf, Hg. }
  assert (He : forall l g, wf_lookup g ->
            wf_lookup (fold_left (fun g e => add_edge g e.1.1 e.1.2 e.2) l g)).
  { induction l as [|x l IH]; intros g Hg; simpl; [exact Hg|].
    apply IH, add_edge_wf, Hg. }
  apply He, Hn, wf_lookup_empty.
Qed.

(** ** Trees: the hierarchy changes nothing *)

Lemma edges_from_either (g : Graph) (done : list node) (u v : node)
    (en_u en_v : entry) (a a' : EdgeAttr) :
  NoDup g.*1 ->
  (u, en_u) ∈ g -> (v, en_v) ∈ g ->
  (v, a) ∈ nbrs en_u -> (u, a') ∈ nbrs en_v ->
  u ∉ done -> v ∉ done ->
  (u, v, a) ∈ edges_from g done \/ (v, u, a') ∈ edges_from g done.
Proof.
  revert done. induction g as [|[m em] g' IH]; intros done Hnd Hu Hv Ha Ha' Hud Hvd.
  - inversion Hu.
  - simpl. rewrite !elem_of_app.
    apply NoDup_cons in Hnd as [Hm Hnd].
    apply elem_of_cons in Hu as [[= <- <-]|Hu].
    { left. left. apply list_elem_of_omap. exists (v, a). split; [exact Ha|].
      simpl. rewrite bool_decide_eq_false_2 by exact Hvd. reflexivity. }
    apply elem_of_cons in Hv as [[= <- <-]|Hv].
    { right. left. apply list_elem_of_omap. exists (u, a'). split; [exact Ha'|].
      simpl. rewrite bool_decide_eq_false_2 by exact Hud. reflexivity. }
    assert (Hum : u <> m).
    { intros ->. apply Hm. apply list_elem_of_fmap. exists (m, en_u). auto. }
    assert (Hvm : v <> m).
    { intros ->. apply Hm. apply list_elem_of_fmap. exists (m, en_v). auto. }
    destruct (IH (m :: done) Hnd Hu Hv Ha Ha') as [H|H].
    + intros [?|?]%elem_of_cons; contradiction.
    + intros [?|?]%elem_of_cons; contradiction.
    + left. right. exact H.
    + right. right. exact H.
Qed.

(** Every edge of a well-formed graph is reported by [edges()], from one
    end or from the other. *)
Lemma edges_complete (g : Graph) (u v : node) :
  wf_graph g = true -> adjacent g u v ->
  (u, v) ∈ (edges g).*1 \/ (v, u) ∈ (edges g).*1.
Proof.
  intros Hwf Huv.
  pose proof (wf_graph_back g u v Hwf Huv) as Hvu.
  apply adjacent_inv in Huv as (en_u & Hen_u & Hv).
  apply adjacent_inv in Hvu as (en_v & Hen_v & Hu).
  apply od_get_is_Some in Hv as [a Ha]. apply od_get_is_Some in Hu as [a' Ha'].
  destruct (edges_from_either g [] u v en_u en_v a a') as [H|H].
  - apply wf_graph_nodup, Hwf.
  - apply od_get_Some_elem, Hen_u.
  - apply od_get_Some_elem, Hen_v.
  - apply od_get_Some_elem, Ha.
  - apply od_get_Some_elem, Ha'.
  - apply not_elem_of_nil.
  - apply not_elem_of_nil.
  - left. apply list_elem_of_fmap. exists (u, v, a). auto.
  - right. apply list_elem_of_fmap. exists (v, u, a'). auto.
Qed.

Lemma nodup_full (l1 l2 : list (node * node)) :
  NoDup l1 -> (forall x, x ∈ l1 -> x ∈ l2) -> (length l2 <= length l1)%nat ->
  forall x, x ∈ l2 -> x ∈ l1.
Proof.
  intros Hnd Hsub Hlen x Hx.
  assert (Hperm : l1 ≡ₚ l2).
  { apply submseteq_length_Permutation; [|exact Hlen].
    apply NoDup_submseteq; assumption. }
  rewrite Hperm. exact Hx.
Qed.

(** In a graph with one edge fewer than nodes, the search from a node
    that reaches every node returns every edge, in one direction or the
    other. *)
Lemma tree_edges_all_downstream (g : Graph) (j : node) (de : list (node * node)) :
  wf_graph g = true -> connected g -> S (number_of_edges g) = number_of_nodes g ->
  j ∈ nodes g -> Hier.get_downstream_edges g j = Ret de ->
  forall u v, (u, v) ∈ (edges g).*1 -> (u, v) ∈ de \/ (v, u) ∈ de.
Proof.
  intros Hwf Hconn Htree Hj Hde.
  destruct (get_downstream_edges_tree g j Hwf Hj) as (E & HE & _ & Hgrow & Hnd & Hreach).
  rewrite HE in Hde. injection Hde as <-.
  set (ks := (edges g).*1).
  assert (Hlen : length E = number_of_edges g).
  { assert (Hn : length (nodes g) = length (j :: E.*2)).
    { apply same_elements_same_length; [apply wf_graph_nodup, Hwf | exact Hnd|].
      intros x. rewrite Hreach. split.
      - intros Hx. apply Hconn; assumption.
      - intros Hx. eapply reachable_stays_in_graph; eassumption. }
    unfold number_of_nodes in Htree. unfold nodes, OD.keys in Hn.
    rewrite length_fmap in Hn. simpl in Hn. rewrite length_fmap in Hn. lia. }
  assert (Hkey : forall uv, uv ∈ E -> edge_key ks uv ∈ ks).
  { intros [u v] Huv. unfold edge_key.
    destruct (decide ((u, v) ∈ ks)) as [Hin|Hout].
    - rewrite bool_decide_eq_true_2 by exact Hin. exact Hin.
    - rewrite bool_decide_eq_false_2 by exact Hout. simpl.
      destruct (grows_edges g _ _ Hgrow u v Huv) as [Hadj _].
      destruct (edges_complete g u v Hwf Hadj) as [H|H]; [contradiction | exact H]. }
  assert (Hinj : forall x y, x ∈ E -> y ∈ E -> edge_key ks x = edge_key ks y -> x = y).
  { intros [a b] [c d] Hx Hy. unfold edge_key.
    destruct (bool_decide ((a, b) ∈ ks)); destruct (bool_decide ((c, d) ∈ ks));
      simpl; intros [= -> ->]; try reflexivity.
    - exfalso. eapply (grows_no_back_edge g _ _ Hgrow); eassumption.
    - exfalso. eapply (grows_no_back_edge g _ _ Hgrow); eassumption. }
  assert (HndE : NoDup E).
  { apply NoDup_cons in Hnd as [_ Hnd]. eapply NoDup_fmap_1, Hnd. }
  assert (Hfull : forall k, k ∈ ks -> k ∈ map (edge_key ks) E).
  { apply nodup_full.
    - apply NoDup_fmap_2_strong; assumption.
    - intros k (uv & -> & Huv)%list_elem_of_fmap. apply Hkey, Huv.
    - rewrite length_map, Hlen. unfold ks, number_of_edges. rewrite length_fmap. lia. }
  intros u v Huv. apply Hfull in Huv.
  apply list_elem_of_fmap in Huv as ([a b] & Heq & Hab).
  unfold edge_key in Heq. destruct (bool_decide ((a, b) ∈ ks)); simpl in Heq;
    injection Heq as -> ->; auto.
Qed.

Lemma incoming_edges_reversed (g : Graph) (j : node) (x y : node) :
  (x, y) ∈ Hier.incoming_edges g j -> (y, x) ∈ (edges g).*1.
Proof.
  unfold Hier.incoming_edges.
  intros ([[u v] a] & Hin & Hf)%list_elem_of_omap. simpl in Hf.
  destruct (bool_decide (u = j \/ v = j)) eqn:Hor; [|discriminate].
  apply bool_decide_eq_true in Hor.
  apply list_elem_of_fmap. exists (u, v, a). split; [|exact Hin]. simpl.
  destruct (decide (u = j)) as [->|Hne].
  - rewrite !bool_decide_eq_true_2 in Hf by reflexivity. congruence.
  - rewrite !bool_decide_eq_false_2 in Hf by exact Hne.
    destruct Hor as [?| ->]; [contradiction | congruence].
Qed.

Lemma is_downstream_true (de : list (node * node)) (u v : node) :
  (u, v) ∈ de \/ (v, u) ∈ de -> Hier.is_downstream de u v = true.
Proof.
  intros H. unfold Hier.is_downstream. apply existsb_exists.
  destruct H as [H|H].
  - exists (u, v). split; [apply list_elem_of_In, H|].
    apply bool_decide_eq_true_2. auto.
  - exists (v, u). split; [apply list_elem_of_In, H|].
    apply bool_decide_eq_true_2. auto.
Qed.

(** On a tree the loop over the junctions changes nothing. *)
Lemma hierarchical_diameters_tree (g : Graph) :
  wf_graph g = true -> connected g -> S (number_of_edges g) = number_of_nodes g ->
  Hier.hierarchical_diameters g
  = Ret (base_diameters g, (fun _ => 100) <$> base_diameters g).
Proof.
  intros Hwf Hconn Htree.
  assert (Hstep : forall j st, j ∈ nodes g -> Hier.process_junction g st j = Ret st).
  { intros j st Hj. unfold Hier.process_junction.
    destruct (get_downstream_edges_tree g j Hwf Hj) as (de & Hde & _).
    rewrite Hde. cbn [mbind result_bind rbind]. f_equal.
    pose proof (tree_edges_all_downstream g j de Hwf Hconn Htree Hj Hde) as Hall.
    pose proof (incoming_edges_reversed g j) as Hrev.
    induction (Hier.incoming_edges g j) as [|[x y] l IH]; [reflexivity|].
    cbn [fold_left]. rewrite update_edge_downstream.
    - apply IH. intros a b Hab. apply Hrev. right. exact Hab.
    - apply is_downstream_true. simpl.
      destruct (Hall y x (Hrev x y ltac:(left))); auto. }
  assert (Hloop : forall js st, (forall j, j ∈ js -> j ∈ nodes g) ->
            for_each (Hier.process_junction g) js st = Ret st).
  { induction js as [|j js IH]; intros st Hjs; [reflexivity|].
    cbn [for_each]. rewrite Hstep by (apply Hjs; left). cbn [rbind].
    apply IH. intros j' Hj'. apply Hjs. right. exact Hj'. }
  unfold Hier.hierarchical_diameters.
  destruct (sorted_junctions_keys g Hwf) as (key & _ & ->).
  cbn [mbind result_bind rbind]. rewrite Hloop.
  - cbn [mbind result_bind rbind]. unfold Hier.default_utilization. cbn [fst snd].
    rewrite bool_decide_eq_true_2 by reflexivity. reflexivity.
  - intros j (x & -> & Hx)%list_elem_of_fmap.
    apply (proj1 (elem_of_sort_by_key _ _)) in Hx.
    apply list_elem_of_fmap in Hx as (j' & -> & Hj'). simpl.
    apply junction_nodes_are_nodes, Hj'.
Qed.

(** X11: On a tree-shaped harness (well-formed, connected, one edge fewer
    than nodes) every edge at a junction is one of its downstream edges, so
    the hierarchy loop updates nothing: the diameters returned are the base
    diameters of the segments and every segment has utilization 100. *)
Theorem hierarchy_is_identity_on_trees (g : Graph) :
  wf_graph g = true -> connected g -> S (number_of_edges g) = number_of_nodes g ->
  Hier.estimate_bundle_diameter g None true
  = Ret (WithUtilization (base_diameters g) ((fun _ => 100) <$> base_diameters g)) /\
  Hier.estimate_bundle_diameter g None false = Ret (SegmentDiameters (base_diameters g)).
Proof.
  intros Hwf Hconn Htree. split; [|reflexivity].
  unfold Hier.estimate_bundle_diameter.
  rewrite (hierarchical_diameters_tree g Hwf Hconn Htree). reflexivity.
Qed.

Lemma sample_connected : connected load_sample_data.
Proof.
  assert (Hroot : "Junction1" ∈ nodes load_sample_data)
    by (apply od_mem_true; vm_compute; reflexivity).
  destruct (get_downstream_edges_tree load_sample_data "Junction1" sample_is_wf Hroot)
    as (E & HE & _ & _ & _ & Hr).
  vm_compute in HE. injection HE as <-.
  assert (Hall : forall v, v ∈ nodes load_sample_data ->
                           reachable load_sample_data "Junction1" v).
  { intros v Hv. apply Hr.
    assert (Hnodes : nodes load_sample_data
                     = ["ECU"; "Sensor1"; "Sensor2"; "Actuator1"; "Actuator2";
                        "Junction1"; "Junction2"]) by (vm_compute; reflexivity).
    rewrite Hnodes in Hv.
    repeat (apply elem_of_cons in Hv as [->|Hv]);
      try compute_done.
    inversion Hv. }
  intros u v Hu Hv. transitivity "Junction1".
  - apply reachable_sym; [exact sample_is_wf|]. apply Hall, Hu.
  - apply Hall, Hv.
Qed.

(** The sample harness is such a tree. *)
Lemma hierarchy_is_identity_on_trees_sample :
  Hier.estimate_bundle_diameter load_sample_data None true
  = Ret (WithUtilization (base_diameters load_sample_data)
           ((fun _ => 100) <$> base_diameters load_sample_data)) /\
  Hier.estimate_bundle_diameter load_sample_data None false
  = Ret (SegmentDiameters (base_diameters load_sample_data)).
Proof.
  apply (hierarchy_is_identity_on_trees load_sample_data).
  - exact sample_is_wf.
  - exact sample_connected.
  - vm_compute; reflexivity.
Defined.

(** ** Reports *)

Lemma rsum_bounds (a b : R) (l : list R) :
  (forall x, x ∈ l -> a <= x <= b) ->
  INR (length l) * a <= rsum l <= INR (length l) * b.
Proof.
  induction l as [|x l IH]; intros Hl.
  - rewrite rsum_nil. simpl. lra.
  - rewrite rsum_cons. cbn [length]. rewrite S_INR.
    destruct IH as [IH1 IH2]; [intros y Hy; apply Hl; right; exact Hy|].
    destruct (Hl x ltac:(left)) as [Hx1 Hx2]. lra.
Qed.

Lemma np_mean_bounds (a b : R) (l : list R) :
  l <> [] -> (forall x, x ∈ l -> a <= x <= b) ->
  exists m, np_mean l = Some m /\ a <= m <= b.
Proof.
  intros Hne Hl. rewrite np_mean_nonempty by exact Hne.
  eexists. split; [reflexivity|].
  assert (Hlen : 0 < INR (length l)).
  { apply lt_0_INR. destruct l; [congruence | simpl; lia]. }
  destruct (rsum_bounds a b l Hl) as [H1 H2].
  split.
  - apply Rmult_le_reg_l with (INR (length l)); [exact Hlen|].
    replace (INR (length l) * (rsum l / INR (length l))) with (rsum l) by (field; lra).
    exact H1.
  - apply Rmult_le_reg_l with (INR (length l)); [exact Hlen|].
    replace (INR (length l) * (rsum l / INR (length l))) with (rsum l) by (field; lra).
    exact H2.
Qed.

Lemma max_of_spec (l : list R) :
  l <> [] -> exists mx, max_of l = Ret mx /\ mx ∈ l /\ forall x, x ∈ l -> x <= mx.
Proof.
  destruct l as [|x l]; [congruence|]. intros _. unfold max_of.
  eexists. split; [reflexivity|].
  revert x. induction l as [|y l IH]; intros x; cbn [fold_left].
  - split; [left|]. intros z Hz. apply list_elem_of_singleton in Hz. lra.
  - destruct (Rlt_dec x y) as [Hlt|Hge].
    + destruct (IH y) as [Hin Hmax]. split.
      * right. exact Hin.
      * intros z [->|Hz]%elem_of_cons; [|apply Hmax, Hz].
        specialize (Hmax y ltac:(left)). lra.
    + destruct (IH x) as [Hin Hmax]. split.
      * apply elem_of_cons in Hin as [Hin|Hin]; [rewrite Hin; left | right; right; exact Hin].
      * intros z [->|[->|Hz]%elem_of_cons]%elem_of_cons.
        -- apply Hmax. left.
        -- specialize (Hmax x ltac:(left)). lra.
        -- apply Hmax. right. exact Hz.
Qed.

Lemma min_of_spec (l : list R) :
  l <> [] -> exists mn, min_of l = Ret mn /\ mn ∈ l /\ forall x, x ∈ l -> mn <= x.
Proof.
  destruct l as [|x l]; [congruence|]. intros _. unfold min_of.
  eexists. split; [reflexivity|].
  revert x. induction l as [|y l IH]; intros x; cbn [fold_left].
  - split; [left|]. intros z Hz. apply list_elem_of_singleton in Hz. lra.
  - destruct (Rlt_dec y x) as [Hlt|Hge].
    + destruct (IH y) as [Hin Hmin]. split.
      * right. exact Hin.
      * intros z [->|Hz]%elem_of_cons; [|apply Hmin, Hz].
        specialize (Hmin y ltac:(left)). lra.
    + destruct (IH x) as [Hin Hmin]. split.
      * apply elem_of_cons in Hin as [Hin|Hin]; [rewrite Hin; left | right; right; exact Hin].
      * intros z [->|[->|Hz]%elem_of_cons]%elem_of_cons.
        -- apply Hmin. left.
        -- specialize (Hmin x ltac:(left)). lra.
        -- apply Hmin. right. exact Hz.
Qed.

Lemma elem_of_values (m : dmap) (x : R) :
  x ∈ values m <-> exists k, m !! k = Some x.
Proof.
  unfold values. rewrite list_elem_of_fmap. split.
  - intros ([k y] & -> & Hin). exists k. apply elem_of_map_to_list in Hin. exact Hin.
  - intros (k & Hk). exists (k, x). split; [reflexivity|].
    apply elem_of_map_to_list. exact Hk.
Qed.

Lemma base_diameters_empty (g : Graph) : edges g = [] -> base_diameters g = ∅.
Proof. unfold base_diameters. intros ->. reflexivity. Qed.

Lemma base_diameters_values_nonneg (g : Graph) (d : R) :
  d ∈ values (base_diameters g) -> 0 <= d.
Proof.
  intros (k & Hk)%elem_of_values.
  apply base_diameters_key in Hk as (e & _ & ->). apply diameter_of_nonneg.
Qed.

(** X12: [generate_report] of [harness_analyzer.py] needs an edge: on a graph
    without one, [max] of the empty diameters raises [ValueError], whatever
    the nodes; with an edge the report is built, its average diameter is a
    number between 0 and the maximum, the maximum is the diameter of some
    segment and bounds them all, and the complexity lies in [1, 10]. *)
Theorem simple_report_needs_an_edge (g : Graph) :
  (number_of_edges g = 0%nat -> Simple.generate_report g = Raise ValueError) /\
  (number_of_edges g <> 0%nat ->
   exists avg mx c : R,
     np_mean (values (base_diameters g)) = Some avg /\
     mx ∈ values (base_diameters g) /\
     (forall d, d ∈ values (base_diameters g) -> 0 <= d <= mx) /\
     0 <= avg <= mx /\
     Simple.estimate_installation_complexity g None = Ret (Some c) /\
     1 <= c <= 10 /\
     Simple.generate_report g
     = Ret [ ("Total Components", VInt (number_of_nodes g));
             ("Total Connections", VInt (number_of_edges g));
             ("Total Wire Length (m)",
              VFloat (py_round (Some (Q2R (calculate_total_length g))) 2));
             ("Average Bundle Diameter (mm)", VFloat (py_round (Some avg) 2));
             ("Maximum Bundle Diameter (mm)", VFloat (py_round (Some mx) 2));
             ("Installation Complexity (1-10)", VFloat (py_round (Some c) 1)) ]).
Proof.
  unfold number_of_edges. split.
  - intros He. apply length_zero_iff_nil in He.
    unfold Simple.generate_report. rewrite (base_diameters_empty g He). reflexivity.
  - intros He.
    assert (Hedges : edges g <> []) by (intros H; rewrite H in He; apply He; reflexivity).
    pose proof (values_nonempty _ (base_diameters_nonempty g Hedges)) as Hv.
    destruct (max_of_spec _ Hv) as (mx & Hmx & Hin & Hmax).
    assert (Hall : forall d, d ∈ values (base_diameters g) -> 0 <= d <= mx).
    { intros d Hd. split; [eapply base_diameters_values_nonneg, Hd | apply Hmax, Hd]. }
    destruct (np_mean_bounds 0 mx _ Hv Hall) as (avg & Havg & Hrange).
    destruct (clamp_in_range (Simple.whole_complexity g)) as (c & Hc & Hcr).
    exists avg, mx, c.
    split; [exact Havg|]. split; [exact Hin|]. split; [exact Hall|].
    split; [exact Hrange|].
    assert (Hcx : Simple.estimate_installation_complexity g None = Ret (Some c)).
    { unfold Simple.estimate_installation_complexity. rewrite Hc. reflexivity. }
    split; [exact Hcx|]. split; [exact Hcr|].
    unfold Simple.generate_report. rewrite Hmx, Hcx, Havg. reflexivity.
Qed.

(** On the sample harness, and on the sample nodes without any wire. *)
Lemma simple_report_needs_an_edge_sample :
  Simple.generate_report (add_nodes_from empty_graph sample_nodes) = Raise ValueError /\
  exists r, Simple.generate_report load_sample_data = Ret r.
Proof.
  split.
  - apply (simple_report_needs_an_edge (add_nodes_from empty_graph sample_nodes)).
    vm_compute; reflexivity.
  - destruct (simple_report_needs_an_edge load_sample_data) as [_ H].
    destruct H as (avg & mx & c & _ & _ & _ & _ & _ & _ & Hr).
    + vm_compute; discriminate.
    + eexists. exact Hr.
Defined.

Lemma map_summary (m : dmap) (a b : R) :
  a <= 0 <= b -> (forall k x, m !! k = Some x -> a <= x <= b) ->
  exists avg mx mn : R,
    Hier.mean_or_zero m = Some avg /\
    Hier.max_or_zero m = Ret mx /\
    Hier.min_or_zero m = Ret mn /\
    a <= mn /\ mn <= avg /\ avg <= mx /\ mx <= b.
Proof.
  intros Hab Hm. unfold Hier.mean_or_zero, Hier.max_or_zero, Hier.min_or_zero.
  destruct (decide (m = ∅)) as [He|Hne].
  - rewrite !bool_decide_eq_true_2 by exact He.
    exists 0, 0, 0. repeat (split; [reflexivity || lra|]). lra.
  - rewrite !bool_decide_eq_false_2 by exact Hne.
    pose proof (values_nonempty m Hne) as Hv.
    destruct (max_of_spec _ Hv) as (mx & Hmx & Hinx & Hmax).
    destruct (min_of_spec _ Hv) as (mn & Hmn & Hinn & Hmin).
    destruct (np_mean_bounds mn mx (values m) Hv) as (avg & Havg & Hrange).
    { intros x Hx. split; [apply Hmin, Hx | apply Hmax, Hx]. }
    apply elem_of_values in Hinx as (kx & Hkx). apply Hm in Hkx.
    apply elem_of_values in Hinn as (kn & Hkn). apply Hm in Hkn.
    exists avg, mx, mn.
    split; [exact Havg|]. split; [exact Hmx|]. split; [exact Hmn|]. lra.
Qed.

Lemma hierarchical_diameters_bounds (g : Graph) :
  wf_graph g = true ->
  exists sd su : dmap,
    Hier.hierarchical_diameters g = Ret (sd, su) /\
    (forall k d, sd !! k = Some d -> 0 <= d) /\
    (forall k x, su !! k = Some x -> 0 <= x <= 100).
Proof.
  intros Hwf. destruct (hierarchical_diameters_returns g Hwf) as (st & Hinv & Hrun).
  destruct Hinv as [_ _ Hnonneg Hrange _ _ _].
  exists (Hier.default_utilization st).1, (Hier.default_utilization st).2.
  split; [rewrite Hrun; destruct (Hier.default_utilization st); reflexivity|].
  split.
  - rewrite default_utilization_diameters. exact Hnonneg.
  - unfold Hier.default_utilization. destruct (bool_decide (st.2 = ∅)); cbn [snd].
    + intros k x H. apply lookup_fmap_Some in H as (d & <- & _). lra.
    + exact Hrange.
Qed.

(** X13, values before rounding, over the real numbers:
    [generate_report] of [gui.py] on a well-formed graph: with
    [include_utilization] (the default) it returns its nine entries, none
    of them NaN: the average diameter lies between 0 and the maximum, the
    complexity in [1, 10], the minimum utilization between 0 and the
    average, the average at most 100; without [include_utilization] it
    raises [AttributeError], the diameters being the pair returned by the
    hierarchy branch. *)
Theorem hier_report_on_wf_graph (g : Graph) :
  wf_graph g = true ->
  (exists (sd su : dmap) (avg mx c au mn : R),
     Hier.estimate_bundle_diameter g None true = Ret (WithUtilization sd su) /\
     Hier.mean_or_zero sd = Some avg /\
     Hier.max_or_zero sd = Ret mx /\
     Hier.estimate_installation_complexity g None = Ret (Some c) /\
     Hier.mean_or_zero su = Some au /\
     Hier.min_or_zero su = Ret mn /\
     0 <= avg <= mx /\ 1 <= c <= 10 /\ 0 <= mn <= au /\ au <= 100 /\
     Hier.generate_report g true
     = Ret [ ("Total Components", VInt (number_of_nodes g));
             ("Total Connections", VInt (number_of_edges g));
             ("Number of Junctions", VInt (Hier.num_junctions g));
             ("Total Wire Length (m)",
              VFloat (py_round (Some (Q2R (calculate_total_length g))) 2));
             ("Average Bundle Diameter (mm)", VFloat (py_round (Some avg) 2));
             ("Maximum Bundle Diameter (mm)", VFloat (py_round (Some mx) 2));
             ("Installation Complexity (1-10)", VFloat (py_round (Some c) 1));
             ("Average Space Utilization (%)", VFloat (py_round (Some au) 1));
             ("Minimum Space Utilization (%)", VFloat (py_round (Some mn) 1)) ]) /\
  Hier.generate_report g false = Raise AttributeError.
Proof.
  intros Hwf.
  destruct (hierarchical_diameters_bounds g Hwf) as (sd & su & Hrun & Hsd & Hsu).
  split; [|unfold Hier.generate_report; rewrite Hrun; reflexivity].
  assert (Hmx0 : exists mx0, 0 <= mx0 /\ forall k d, sd !! k = Some d -> 0 <= d <= mx0).
  { destruct (decide (sd = ∅)) as [->|Hne].
    - exists 0. split; [lra|]. intros k d H. rewrite lookup_empty in H. discriminate.
    - destruct (max_of_spec _ (values_nonempty sd Hne)) as (mx0 & _ & Hin & Hmax).
      exists mx0. apply elem_of_values in Hin as (k0 & Hk0). split; [eapply Hsd, Hk0|].
      intros k d H. split; [eapply Hsd, H|]. apply Hmax, elem_of_values. eauto. }
  destruct Hmx0 as (mx0 & Hmx0 & Hsd').
  destruct (map_summary sd 0 mx0 ltac:(lra) Hsd')
    as (avg & mx & mn' & Havg & Hmx & _ & Hd1 & Hd2 & Hd3 & _).
  destruct (map_summary su 0 100 ltac:(lra) Hsu)
    as (au & mx' & mn & Hau & _ & Hmn & Hu1 & Hu2 & Hu3 & Hu4).
  assert (Hc : exists c, Hier.estimate_installation_complexity g None = Ret (Some c) /\
                         1 <= c <= 10).
  { unfold Hier.estimate_installation_complexity, Hier.whole_complexity.
    rewrite Hrun. cbn [mbind result_bind rbind].
    match goal with |- context [clamp ?x] => destruct (clamp_in_range x) as (c & -> & Hcr) end.
    eauto. }
  destruct Hc as (c & Hc & Hcr).
  exists sd, su, avg, mx, c, au, mn.
  split; [unfold Hier.estimate_bundle_diameter; rewrite Hrun; reflexivity|].
  split; [exact Havg|]. split; [exact Hmx|]. split; [exact Hc|].
  split; [exact Hau|]. split; [exact Hmn|].
  split; [lra|]. split; [exact Hcr|]. split; [lra|]. split; [lra|].
  unfold Hier.generate_report. rewrite Hrun. cbn [mbind result_bind rbind fst snd].
  rewrite Hmx, Hmn, Hc, Havg, Hau. reflexivity.
Qed.

(** On the sample harness. *)
Lemma hier_report_on_wf_graph_sample :
  (exists r, Hier.generate_report load_sample_data true = Ret r) /\
  Hier.generate_report load_sample_data false = Raise AttributeError.
Proof.
  destruct (hier_report_on_wf_graph load_sample_data sample_is_wf) as [H1 H2].
  split; [|exact H2].
  destruct H1 as (sd & su & avg & mx & c & au & mn & H). 
  eexists. apply H.
Defined.

(** ** One diameter per wire *)

Lemma wf_graph_sym (g : Graph) (u v : node) (e : EdgeAttr) :
  wf_graph g = true -> get_edge g u v = Some e -> get_edge g v u = Some e.
Proof.
  unfold wf_graph. intros [_ H]%andb_prop Huv.
  rewrite forallb_forall in H. unfold get_edge in Huv.
  destruct (OD.get u g) as [en|] eqn:Hen; [|discriminate]. simpl in Huv.
  apply od_get_Some_elem, list_elem_of_In, H in Hen.
  unfold wf_entry in Hen. apply andb_prop in Hen as [_ Hen].
  rewrite forallb_forall in Hen.
  apply od_get_Some_elem, list_elem_of_In, Hen in Huv.
  apply bool_decide_eq_true in Huv. exact Huv.
Qed.

Lemma edges_get_edge (g : Graph) (u v : node) (e : EdgeAttr) :
  wf_graph g = true -> (u, v, e) ∈ edges g -> get_edge g u v = Some e.
Proof.
  intros Hwf Hin. apply edges_from_fresh in Hin as (_ & en & Hen & Hv).
  apply (od_elem_get g u en (wf_graph_nodup g Hwf)) in Hen.
  apply (get_edge_elem g u v en e Hwf Hen), Hv.
Qed.

(** [edges()] reports every wire once, from one of its ends. *)
Lemma edges_once (g : Graph) (u v : node) (e : EdgeAttr) :
  wf_graph g = true -> get_edge g u v = Some e ->
  (u, v, e) ∈ edges g \/ (v, u, e) ∈ edges g.
Proof.
  intros Hwf Huv.
  pose proof (wf_graph_sym g u v e Hwf Huv) as Hvu.
  unfold get_edge in Huv, Hvu.
  destruct (OD.get u g) as [en_u|] eqn:Hen_u; [|discriminate].
  destruct (OD.get v g) as [en_v|] eqn:Hen_v; [|discriminate].
  simpl in Huv, Hvu.
  apply (edges_from_either g [] u v en_u en_v e e).
  - apply wf_graph_nodup, Hwf.
  - apply od_get_Some_elem, Hen_u.
  - apply od_get_Some_elem, Hen_v.
  - apply od_get_Some_elem, Huv.
  - apply od_get_Some_elem, Hvu.
  - apply not_elem_of_nil.
  - apply not_elem_of_nil.
Qed.

Lemma fold_insert_size (l : list (node * node * EdgeAttr)) (m : dmap) :
  NoDup l.*1 -> (forall k, k ∈ l.*1 -> m !! k = None) ->
  size (fold_left (fun (m : dmap) (x : node * node * EdgeAttr) =>
                     <[(x.1.1, x.1.2) := base_diameter x.2]> m) l m)
  = (length l + size m)%nat.
Proof.
  revert m. induction l as [|[[u v] e] l IH]; intros m Hnd Hm; [reflexivity|].
  cbn [fold_left fst snd]. rewrite fmap_cons in Hnd. cbn [fst] in Hnd.
  apply NoDup_cons in Hnd as [Hk Hnd].
  rewrite IH.
  - rewrite map_size_insert_None by (apply Hm; left). simpl. lia.
  - exact Hnd.
  - intros k Hin. rewrite lookup_insert_ne; [apply Hm; right; exact Hin|].
    intros <-. contradiction.
Qed.

Lemma base_diameter_closed_form (e : EdgeAttr) :
  base_diameter e
  = wire_diameter (default 20%Z (e_gauge e)) * sqrt (INR (num_signals e)).
Proof.
  unfold base_diameter, diameter_of, segment_area.
  pose proof PI_RGT_0 as Hpi.
  pose proof (wire_diameter_pos (default 20%Z (e_gauge e))) as Hw.
  set (w := wire_diameter _) in *. set (n := INR _).
  assert (Hn : 0 <= n) by apply pos_INR.
  replace (n * (w / 2) ^ 2 * PI / PI) with (n * (w / 2) ^ 2) by (field; lra).
  rewrite sqrt_mult_alt by exact Hn.
  rewrite sqrt_pow2 by lra. lra.
Qed.

(** X9: Whole-graph mode without the hierarchy, the only mode of
    [harness_analyzer.py]: on a well-formed graph the mapping has exactly
    one entry per wire, under the key [edges()] reports it with and never
    under both keys of a wire between two different nodes; every key is a
    wire of the graph; the diameter of a wire is the diameter of one of
    its conductors (0.8 for a gauge that is not in the table, the table
    entry of 20 for a wire without a gauge) times the square root of its
    number of signals. *)
Theorem segment_diameters_per_wire (g : Graph) :
  wf_graph g = true ->
  Simple.estimate_bundle_diameter g None = Ret (SegmentDiameters (base_diameters g)) /\
  size (base_diameters g) = number_of_edges g /\
  (forall u v e, get_edge g u v = Some e ->
     let d := wire_diameter (default 20%Z (e_gauge e)) * sqrt (INR (num_signals e)) in
     base_diameters g !! (u, v) = Some d \/ base_diameters g !! (v, u) = Some d) /\
  (forall u v d, base_diameters g !! (u, v) = Some d ->
     (exists e, get_edge g u v = Some e /\
        d = wire_diameter (default 20%Z (e_gauge e)) * sqrt (INR (num_signals e))) /\
     (u <> v -> base_diameters g !! (v, u) = None)).
Proof.
  intros Hwf. split; [reflexivity|]. split; [|split].
  - unfold base_diameters, number_of_edges.
    rewrite fold_insert_size.
    + rewrite map_size_empty. lia.
    + apply edges_keys_nodup, Hwf.
    + intros k _. apply lookup_empty.
  - intros u v e Huv d. subst d. rewrite <- base_diameter_closed_form.
    destruct (edges_once g u v e Hwf Huv) as [H|H]; [left | right];
      apply base_diameters_edge; assumption.
  - intros u v d Hd.
    apply base_diameters_key in Hd as (e & Hin & ->). split.
    + exists e. split; [apply edges_get_edge; assumption|].
      apply base_diameter_closed_form.
    + intros Hne. destruct (base_diameters g !! (v, u)) as [d'|] eqn:Hd'; [|reflexivity].
      apply base_diameters_key in Hd' as (e' & Hin' & _).
      contradict Hne. eapply edges_orient; eassumption.
Qed.

(** On the sample harness. *)
Lemma segment_diameters_per_wire_sample :
  size (base_diameters load_sample_data) = 6%nat /\
  (base_diameters load_sample_data !! ("ECU", "Junction1") = Some (Q2R 1.02 * sqrt 2) \/
   base_diameters load_sample_data !! ("Junction1", "ECU") = Some (Q2R 1.02 * sqrt 2)).
Proof.
  destruct (segment_diameters_per_wire load_sample_data sample_is_wf)
    as (_ & Hsize & Hedge & _).
  split; [exact Hsize|].
  apply (Hedge "ECU" "Junction1" (mk_edge "power" 18 0.5 ["CAN_H"; "CAN_L"])).
  vm_compute; reflexivity.
Defined.

(** ** The wires of a built graph *)

Lemma get_edge_add_edge (g : Graph) (u v : node) (a : EdgeAttr) (x y : node) :
  get_edge (add_edge g u v a) x y
  = if bool_decide ((x = u /\ y = v) \/ (x = v /\ y = u))
    then Some (update_edge_attr (get_edge g u v) a)
    else get_edge g x y.
Proof.
  unfold add_edge.
  set (g1 := if has_node g u then g else add_node g u no_attr).
  assert (Hg1 : (forall x y, get_edge g1 x y = get_edge g x y) /\ has_node g1 u = true).
  { subst g1. destruct (has_node g u) eqn:Hu; [auto|].
    split; [intros; apply get_edge_add_node | apply has_node_added]. }
  destruct Hg1 as [Hget1 Hu1].
  set (g2 := if has_node g1 v then g1 else add_node g1 v no_attr).
  assert (Hg2 : (forall x y, get_edge g2 x y = get_edge g x y) /\
                has_node g2 u = true /\ has_node g2 v = true).
  { subst g2. destruct (has_node g1 v) eqn:Hv; [auto|].
    split; [intros; rewrite get_edge_add_node; apply Hget1|].
    split; [apply has_node_add_node, Hu1 | apply has_node_added]. }
  destruct Hg2 as (Hget2 & Hu2 & Hv2).
  rewrite Hget2. set (dd := update_edge_attr (get_edge g u v) a).
  assert (Hv3 : has_node (set_nbr g2 u v dd) v = true).
  { apply has_node_true. apply has_node_true in Hv2. unfold nodes, set_nbr in *.
    destruct (OD.get u g2); [|exact Hv2].
    rewrite od_keys_set. destruct (bool_decide _); set_solver. }
  rewrite (get_edge_set_nbr _ v u dd) by exact Hv3.
  rewrite (get_edge_set_nbr g2 u v dd) by exact Hu2.
  rewrite Hget2.
  destruct (decide (x = v /\ y = u)) as [H1|H1].
  - rewrite bool_decide_eq_true_2 by auto. reflexivity.
  - destruct (decide (x = u /\ y = v)) as [H2|H2].
    + rewrite bool_decide_eq_true_2 by auto. reflexivity.
    + rewrite bool_decide_eq_false_2 by tauto. reflexivity.
Qed.

Lemma od_set_fresh {K V : Type} `{EqDecision K} (d : list (K * V)) (k : K) (v : V) :
  OD.get k d = None -> OD.set k v d = d ++ [(k, v)].
Proof.
  induction d as [|[k' v'] d IH]; simpl; [reflexivity|].
  destruct (decide (k = k')); [discriminate|]. intros H. rewrite IH by exact H. reflexivity.
Qed.

Lemma od_set_idem {K V : Type} `{EqDecision K} (d : list (K * V)) (k : K) (v : V) :
  OD.set k v (OD.set k v d) = OD.set k v d.
Proof.
  induction d as [|[k' v'] d IH]; simpl.
  - rewrite decide_True by reflexivity. reflexivity.
  - destruct (decide (k = k')) as [->|Hne]; simpl.
    + rewrite decide_True by reflexivity. reflexivity.
    + rewrite decide_False by exact Hne. rewrite IH. reflexivity.
Qed.

Lemma set_nbr_head (g : Graph) (u v : node) (e : entry) (a : EdgeAttr) :
  set_nbr ((u, e) :: g) u v a = (u, mkEntry (attrs e) (OD.set v a (nbrs e))) :: g.
Proof. unfold set_nbr. simpl. rewrite !decide_True by reflexivity. reflexivity. Qed.

Lemma set_nbr_tail (g : Graph) (k u v : node) (e : entry) (a : EdgeAttr) :
  u <> k -> set_nbr ((k, e) :: g) u v a = (k, e) :: set_nbr g u v a.
Proof.
  intros Hne. unfold set_nbr. simpl. rewrite decide_False by exact Hne.
  destruct (OD.get u g); [|reflexivity].
  simpl. rewrite decide_False by exact Hne. reflexivity.
Qed.

Lemma omap_set_dropped {B : Type} (f : node * EdgeAttr -> option B)
    (d : list (node * EdgeAttr)) (x : node) (a : EdgeAttr) :
  (forall b, f (x, b) = None) -> omap f (OD.set x a d) = omap f d.
Proof.
  intros Hf.
  assert (Hc : forall y l, omap f (y :: l)
                           = match f y with Some z => z :: omap f l | None => omap f l end)
    by reflexivity.
  induction d as [|[k b] d IH]; cbn [OD.set].
  - rewrite Hc, Hf. reflexivity.
  - destruct (decide (x = k)) as [->|Hne]; rewrite !Hc.
    + rewrite !Hf. reflexivity.
    + rewrite IH. reflexivity.
Qed.

(** A neighbour that [edges()] has already passed adds nothing to it. *)
Lemma edges_from_set_nbr_done (g : Graph) (done : list node) (v x : node) (a : EdgeAttr) :
  x ∈ done -> edges_from (set_nbr g v x a) done = edges_from g done.
Proof.
  revert done. induction g as [|[k e] g IH]; intros done Hx; [reflexivity|].
  destruct (decide (v = k)) as [->|Hne].
  - rewrite set_nbr_head. cbn [edges_from nbrs]. f_equal.
    apply omap_set_dropped. intros b. simpl.
    rewrite bool_decide_eq_true_2 by exact Hx. reflexivity.
  - rewrite set_nbr_tail by exact Hne. cbn [edges_from]. f_equal.
    apply IH. right. exact Hx.
Qed.

Lemma edges_from_new_nbr (done : list node) (n v : node) (a : EdgeAttr)
    (d : list (node * EdgeAttr)) :
  v ∉ done -> OD.get v d = None ->
  omap (fun va : node * EdgeAttr =>
          if bool_decide (va.1 ∈ done) then None else Some (n, va.1, va.2))
       (OD.set v a d)
  = omap (fun va : node * EdgeAttr =>
            if bool_decide (va.1 ∈ done) then None else Some (n, va.1, va.2)) d
    ++ [(n, v, a)].
Proof.
  intros Hv Hd. rewrite od_set_fresh by exact Hd. rewrite omap_app. f_equal.
  simpl. rewrite bool_decide_eq_false_2 by exact Hv. reflexivity.
Qed.

Lemma get_edge_head (g : Graph) (u v : node) (e : entry) :
  get_edge ((u, e) :: g) u v = OD.get v (nbrs e).
Proof. unfold get_edge. simpl. rewrite decide_True by reflexivity. reflexivity. Qed.

Lemma get_edge_tail (g : Graph) (k u v : node) (e : entry) :
  u <> k -> get_edge ((k, e) :: g) u v = get_edge g u v.
Proof. intros Hne. unfold get_edge. simpl. rewrite decide_False by exact Hne. reflexivity. Qed.

(** A new wire between two different nodes is reported once, from the
    end that comes first in the node order. *)
Lemma edges_from_new_wire (g : Graph) (done : list node) (u v : node) (a : EdgeAttr) :
  u <> v -> u ∉ done -> v ∉ done -> u ∈ OD.keys g -> v ∈ OD.keys g ->
  get_edge g u v = None -> get_edge g v u = None ->
  exists t, (t = (u, v, a) \/ t = (v, u, a)) /\
    edges_from (set_nbr (set_nbr g u v a) v u a) done ≡ₚ t :: edges_from g done.
Proof.
  intros Huv. revert done.
  induction g as [|[k e] g IH]; intros done Hud Hvd Hu Hv Hguv Hgvu.
  - inversion Hu.
  - destruct (decide (u = k)) as [<-|Huk].
    + exists (u, v, a). split; [left; reflexivity|].
      rewrite set_nbr_head, set_nbr_tail by congruence.
      rewrite get_edge_head in Hguv.
      cbn [edges_from nbrs].
      rewrite edges_from_new_nbr by assumption.
      rewrite edges_from_set_nbr_done by left.
      rewrite <- app_assoc. cbn [app].
      symmetry. apply Permutation_middle.
    + destruct (decide (v = k)) as [<-|Hvk].
      * exists (v, u, a). split; [right; reflexivity|].
        rewrite set_nbr_tail, set_nbr_head by congruence.
        rewrite get_edge_head in Hgvu.
        cbn [edges_from nbrs].
        rewrite edges_from_new_nbr by assumption.
        rewrite edges_from_set_nbr_done by left.
        rewrite <- app_assoc. cbn [app].
        symmetry. apply Permutation_middle.
      * rewrite get_edge_tail in Hguv, Hgvu by assumption.
        rewrite set_nbr_tail by assumption.
        rewrite set_nbr_tail by assumption.
        cbn [edges_from].
        unfold OD.keys in Hu, Hv. rewrite fmap_cons in Hu, Hv. cbn [fst] in Hu, Hv.
        apply elem_of_cons in Hu as [?|Hu]; [contradiction|].
        apply elem_of_cons in Hv as [?|Hv]; [contradiction|].
        destruct (IH (k :: done)) as (t & Ht & Hperm); try assumption.
        -- intros [?|?]%elem_of_cons; contradiction.
        -- intros [?|?]%elem_of_cons; contradiction.
        -- exists t. split; [exact Ht|].
           rewrite Hperm. symmetry. apply Permutation_middle.
Qed.

(** A new wire from a node to itself is reported once. *)
Lemma edges_from_new_loop (g : Graph) (done : list node) (u : node) (a : EdgeAttr) :
  u ∉ done -> u ∈ OD.keys g -> get_edge g u u = None ->
  edges_from (set_nbr (set_nbr g u u a) u u a) done ≡ₚ (u, u, a) :: edges_from g done.
Proof.
  revert done. induction g as [|[k e] g IH]; intros done Hud Hu Hg.
  - inversion Hu.
  - destruct (decide (u = k)) as [<-|Huk].
    + rewrite !set_nbr_head. cbn [attrs nbrs]. rewrite od_set_idem.
      rewrite get_edge_head in Hg.
      cbn [edges_from nbrs].
      rewrite edges_from_new_nbr by assumption.
      rewrite <- app_assoc. cbn [app].
      symmetry. apply Permutation_middle.
    + rewrite get_edge_tail in Hg by assumption.
      rewrite !set_nbr_tail by assumption.
      cbn [edges_from].
      unfold OD.keys in Hu. rewrite fmap_cons in Hu. cbn [fst] in Hu.
      apply elem_of_cons in Hu as [?|Hu]; [contradiction|].
      rewrite IH; try assumption.
      * symmetry. apply Permutation_middle.
      * intros [?|?]%elem_of_cons; contradiction.
Qed.

Lemma edges_from_add_fresh_node (g : Graph) (done : list node) (n : node) (a : NodeAttr) :
  OD.get n g = None -> edges_from (OD.set n (mkEntry a []) g) done = edges_from g done.
Proof.
  revert done. induction g as [|[k e] g IH]; intros done; simpl; [reflexivity|].
  destruct (decide (n = k)); [discriminate|]. intros H.
  cbn [edges_from]. rewrite IH by exact H. reflexivity.
Qed.

Lemma edges_ensure_node (g : Graph) (n : node) :
  edges (if has_node g n then g else add_node g n no_attr) = edges g.
Proof.
  destruct (has_node g n) eqn:Hn; [reflexivity|].
  assert (Hget : OD.get n g = None).
  { apply od_get_None. intros Hin. apply has_node_true in Hin. congruence. }
  unfold add_node. rewrite Hget. apply edges_from_add_fresh_node, Hget.
Qed.

(** Adding a wire that the graph does not have adds one edge to [edges()]. *)
Lemma edges_add_edge (g : Graph) (u v : node) (a : EdgeAttr) :
  wf_lookup g -> get_edge g u v = None ->
  exists t, (t = (u, v, a) \/ t = (v, u, a)) /\
    edges (add_edge g u v a) ≡ₚ t :: edges g.
Proof.
  intros Hg Hnone. unfold add_edge.
  set (g1 := if has_node g u then g else add_node g u no_attr).
  assert (Hg1 : wf_lookup g1 /\ has_node g1 u = true /\
                (forall x y, get_edge g1 x y = get_edge g x y) /\ edges g1 = edges g).
  { split; [|split; [|split]].
    - subst g1. destruct (has_node g u); [exact Hg | apply add_node_wf, Hg].
    - subst g1. destruct (has_node g u) eqn:Hu; [exact Hu | apply has_node_added].
    - subst g1. destruct (has_node g u); [reflexivity | intros; apply get_edge_add_node].
    - apply edges_ensure_node. }
  destruct Hg1 as (Hwf1 & Hu1 & Hget1 & He1).
  set (g2 := if has_node g1 v then g1 else add_node g1 v no_attr).
  assert (Hg2 : wf_lookup g2 /\ has_node g2 u = true /\ has_node g2 v = true /\
                (forall x y, get_edge g2 x y = get_edge g x y) /\ edges g2 = edges g).
  { split; [|split; [|split; [|split]]].
    - subst g2. destruct (has_node g1 v); [exact Hwf1 | apply add_node_wf, Hwf1].
    - subst g2. destruct (has_node g1 v); [exact Hu1 | apply has_node_add_node, Hu1].
    - subst g2. destruct (has_node g1 v) eqn:Hv; [exact Hv | apply has_node_added].
    - subst g2. destruct (has_node g1 v); [exact Hget1|].
      intros. rewrite get_edge_add_node. apply Hget1.
    - rewrite <- He1. apply edges_ensure_node. }
  destruct Hg2 as ((Hnd & Hnb & Hsym) & Hu2 & Hv2 & Hget2 & He2).
  rewrite Hget2, Hnone. cbn [update_edge_attr]. rewrite <- He2.
  apply has_node_true in Hu2, Hv2.
  assert (Huv : get_edge g2 u v = None) by (rewrite Hget2; exact Hnone).
  assert (Hvu : get_edge g2 v u = None).
  { destruct (get_edge g2 v u) as [b|] eqn:Hb; [|reflexivity].
    apply Hsym in Hb. congruence. }
  destruct (decide (u = v)) as [<-|Hne].
  - exists (u, u, a). split; [left; reflexivity|].
    apply edges_from_new_loop; [apply not_elem_of_nil | exact Hu2 | exact Huv].
  - apply edges_from_new_wire; try assumption; apply not_elem_of_nil.
Qed.

Lemma qsum_acc (l : list Q) (a : Q) : (fold_left Qplus l a == a + qsum l)%Q.
Proof.
  unfold qsum. revert a. induction l as [|x l IH]; intros a; simpl.
  - ring.
  - rewrite (IH (a + x)%Q), (IH (0 + x)%Q). ring.
Qed.

Lemma qsum_cons (x : Q) (l : list Q) : (qsum (x :: l) == x + qsum l)%Q.
Proof. unfold qsum at 1. simpl. rewrite qsum_acc. ring. Qed.

Lemma qsum_perm (l l' : list Q) : l ≡ₚ l' -> (qsum l == qsum l')%Q.
Proof.
  induction 1 as [|x l l' _ IH|x y l|l l' l'' _ IH1 _ IH2].
  - reflexivity.
  - rewrite !qsum_cons, IH. reflexivity.
  - rewrite !qsum_cons. ring.
  - rewrite IH1. exact IH2.
Qed.

Lemma get_edge_add_nodes (ns : list (node * NodeAttr)) (g : Graph) (x y : node) :
  get_edge (add_nodes_from g ns) x y = get_edge g x y.
Proof.
  unfold add_nodes_from. revert g. induction ns as [|na ns IH]; intros g; simpl.
  - reflexivity.
  - rewrite IH. apply get_edge_add_node.
Qed.

Lemma add_nodes_wf (ns : list (node * NodeAttr)) (g : Graph) :
  wf_lookup g -> wf_lookup (add_nodes_from g ns).
Proof.
  unfold add_nodes_from. revert g. induction ns as [|na ns IH]; intros g Hg; simpl.
  - exact Hg.
  - apply IH, add_node_wf, Hg.
Qed.

Lemma add_edges_wf (es : list (node * node * EdgeAttr)) (g : Graph) :
  wf_lookup g -> wf_lookup (add_edges_from g es).
Proof.
  unfold add_edges_from. revert g. induction es as [|e es IH]; intros g Hg; simpl.
  - exact Hg.
  - apply IH, add_edge_wf, Hg.
Qed.

Lemma no_wire_no_edges (g : Graph) :
  wf_lookup g -> (forall x y, get_edge g x y = None) -> edges g = [].
Proof.
  intros Hg Hnone. destruct (edges g) as [|[[u v] e] l] eqn:He; [reflexivity|].
  assert (Hin : (u, v, e) ∈ edges g) by (rewrite He; left).
  apply edges_get_edge in Hin; [|apply wf_lookup_wf_graph, Hg].
  rewrite Hnone in Hin. discriminate.
Qed.

Lemma same_wire_false (u v x y : node) :
  same_wire (u, v) (x, y) = false ->
  bool_decide ((x = u /\ y = v) \/ (x = v /\ y = u)) = false.
Proof.
  unfold same_wire. intros H. apply bool_decide_eq_false in H.
  apply bool_decide_eq_false_2. intros [[-> ->]|[-> ->]]; apply H; simpl; auto.
Qed.

(** Adding wires changes no other wire. *)
Lemma get_edge_add_edges_other (es : list (node * node * EdgeAttr)) (g : Graph) (x y : node) :
  (forall e, e ∈ es -> same_wire e.1 (x, y) = false) ->
  get_edge (add_edges_from g es) x y = get_edge g x y.
Proof.
  unfold add_edges_from. revert g.
  induction es as [|[[u v] a] es IH]; intros g Hes; simpl; [reflexivity|].
  rewrite IH by (intros e He; apply Hes; right; exact He).
  rewrite get_edge_add_edge.
  rewrite (same_wire_false u v x y); [reflexivity|].
  apply (Hes (u, v, a)). left.
Qed.

Lemma same_wire_comm (k k' : node * node) : same_wire k k' = same_wire k' k.
Proof.
  unfold same_wire. apply bool_decide_ext. destruct k, k'; simpl.
  split; intros [[= -> ->]|[= -> ->]]; auto.
Qed.

Lemma add_edges_from_distinct (es : list (node * node * EdgeAttr)) (g : Graph) :
  wf_lookup g -> distinct_wires es = true ->
  (forall e, e ∈ es -> get_edge g e.1.1 e.1.2 = None) ->
  (exists l, edges (add_edges_from g es) ≡ₚ l ++ edges g /\ l.*2 = es.*2) /\
  (forall u v a, (u, v, a) ∈ es ->
     get_edge (add_edges_from g es) u v = Some a /\
     get_edge (add_edges_from g es) v u = Some a) /\
  (forall x y b, get_edge (add_edges_from g es) x y = Some b ->
     get_edge g x y = Some b \/ (x, y, b) ∈ es \/ (y, x, b) ∈ es).
Proof.
  revert g. induction es as [|[[u v] a] es IH]; intros g Hg Hd Hnone.
  - split; [exists []; split; reflexivity|].
    split; [intros u v a H; inversion H | intros x y b H; left; exact H].
  - cbn [distinct_wires] in Hd. apply andb_prop in Hd as [Hhd Hd].
    rewrite forallb_forall in Hhd.
    assert (Hother : forall e, e ∈ es -> same_wire e.1 (u, v) = false).
    { intros e He. rewrite same_wire_comm.
      apply list_elem_of_In, Hhd in He. apply negb_true_iff in He. exact He. }
    pose proof (Hnone (u, v, a) ltac:(left)) as Huv. simpl in Huv.
    destruct (edges_add_edge g u v a Hg Huv) as (t & Ht & Hperm).
    change (add_edges_from g ((u, v, a) :: es))
      with (add_edges_from (add_edge g u v a) es).
    destruct (IH (add_edge g u v a)) as ((l & Hl & Hattr) & Hlook & Hfrom).
    + apply add_edge_wf, Hg.
    + exact Hd.
    + intros [[x y] b] He. simpl. rewrite get_edge_add_edge.
      rewrite (same_wire_false u v x y).
      * apply (Hnone (x, y, b)). right. exact He.
      * rewrite same_wire_comm. apply (Hother (x, y, b)), He.
    + split; [|split].
      * exists (t :: l). split.
        -- rewrite Hl, Hperm. cbn [app]. symmetry. apply Permutation_middle.
        -- rewrite !fmap_cons, Hattr. destruct Ht as [-> | ->]; reflexivity.
      * intros x y b [[= -> -> ->]|Hin]%elem_of_cons; [|apply Hlook, Hin].
        assert (Hother' : forall e, e ∈ es -> same_wire e.1 (v, u) = false).
        { intros e He. specialize (Hother e He). unfold same_wire in *.
          apply bool_decide_eq_false in Hother. apply bool_decide_eq_false_2.
          destruct e as [[x y] b]. simpl in *.
          intros [[= -> ->]|[= -> ->]]; apply Hother; auto. }
        rewrite (get_edge_add_edges_other es _ u v) by exact Hother.
        rewrite (get_edge_add_edges_other es _ v u) by exact Hother'.
        rewrite !get_edge_add_edge, Huv.
        rewrite !bool_decide_eq_true_2 by auto. auto.
      * intros x y b Hb. apply Hfrom in Hb as [Hb|[Hb|Hb]].
        -- rewrite get_edge_add_edge, Huv in Hb. cbn [update_edge_attr] in Hb.
           destruct (bool_decide _) eqn:Hxy; [|left; exact Hb].
           injection Hb as <-. apply bool_decide_eq_true in Hxy.
           destruct Hxy as [[-> ->]|[-> ->]].
           ++ right. left. left.
           ++ right. right. left.
        -- right. left. right. exact Hb.
        -- right. right. right. exact Hb.
Qed.

(** X8: A graph built from a node list and an edge list that lists no wire
    twice has exactly the listed wires: as many edges as the list is long,
    a total length that is the sum of the listed lengths, every listed
    wire found from both of its ends with the attributes given, and no
    wire that is not listed. *)
Theorem built_graph_wires (ns : list (node * NodeAttr)) (es : list (node * node * EdgeAttr)) :
  distinct_wires es = true ->
  let g := add_edges_from (add_nodes_from empty_graph ns) es in
  number_of_edges g = length es /\
  (calculate_total_length g == qsum (map (fun e => e_length e.2) es))%Q /\
  (forall u v a, (u, v, a) ∈ es -> get_edge g u v = Some a /\ get_edge g v u = Some a) /\
  (forall u v a, get_edge g u v = Some a -> (u, v, a) ∈ es \/ (v, u, a) ∈ es).
Proof.
  intros Hd g.
  assert (Hg0 : wf_lookup (add_nodes_from empty_graph ns))
    by apply add_nodes_wf, wf_lookup_empty.
  assert (Hnone : forall x y, get_edge (add_nodes_from empty_graph ns) x y = None).
  { intros x y. rewrite get_edge_add_nodes. reflexivity. }
  destruct (add_edges_from_distinct es _ Hg0 Hd) as ((l & Hl & Hattr) & Hlook & Hfrom).
  { intros e _. apply Hnone. }
  rewrite (no_wire_no_edges _ Hg0 Hnone), app_nil_r in Hl. fold g in Hl, Hlook, Hfrom.
  split; [|split; [|split]].
  - unfold number_of_edges. rewrite Hl.
    rewrite <- (length_fmap snd l), Hattr, length_fmap. reflexivity.
  - unfold calculate_total_length.
    rewrite (qsum_perm _ (map (fun e => e_length e.2) l)) by (rewrite Hl; reflexivity).
    change (map (fun e : node * node * EdgeAttr => e_length e.2) l)
      with (map (fun e : node * node * EdgeAttr => e_length (snd e)) l).
    rewrite <- (map_map snd e_length l), <- (map_map snd e_length es).
    change (map snd l) with (l.*2). rewrite Hattr. reflexivity.
  - exact Hlook.
  - intros u v a Ha. apply Hfrom in Ha as [Ha|Ha]; [|exact Ha].
    rewrite Hnone in Ha. discriminate.
Qed.

(** The sample harness: six wires, 8.3 m in all. *)
Lemma built_graph_wires_sample :
  number_of_edges load_sample_data = 6%nat /\
  (calculate_total_length load_sample_data == 8.3)%Q.
Proof.
  destruct (built_graph_wires sample_nodes sample_edges) as (Hn & Hlen & _).
  - vm_compute; reflexivity.
  - split; [exact Hn|]. rewrite Hlen. vm_compute; reflexivity.
Defined.

(** ** The junction hierarchy *)

Lemma junction_nodes_type (g : Graph) (n : node) :
  NoDup (OD.keys g) ->
  (n ∈ Hier.junction_nodes g <->
   node_type_in g ["junction"; "sub_junction"] n = Ret true).
Proof.
  intros Hnd. unfold Hier.junction_nodes, node_type_in. split.
  - intros ([n' en] & -> & Hin)%list_elem_of_fmap.
    apply list_elem_of_filter in Hin as [Hty Hin]. simpl in *.
    rewrite (od_elem_get g n' en Hnd Hin). f_equal.
    destruct (is_junction_type _ _); [reflexivity | contradiction].
  - destruct (OD.get n g) as [en|] eqn:Hen; [|discriminate].
    intros [= Hty]. apply list_elem_of_fmap. exists (n, en). split; [reflexivity|].
    apply list_elem_of_filter. split; [simpl; rewrite Hty; exact I|].
    apply od_get_Some_elem, Hen.
Qed.

Lemma sub_junctions_spec (g : Graph) (j : node) :
  wf_graph g = true -> j ∈ nodes g ->
  exists l, sub_junctions g j = Ret l /\
    forall n, n ∈ l <-> adjacent g j n /\ n ∈ Hier.junction_nodes g.
Proof.
  intros Hwf Hj. pose proof (wf_graph_nodup g Hwf) as Hnd.
  destruct (neighbors_node g j Hj) as (ns & Hns).
  unfold sub_junctions. rewrite Hns. cbn [mbind result_bind rbind].
  assert (Hloop : forall l acc, (forall n, n ∈ l -> n ∈ nodes g) ->
    exists r,
      for_each (fun (acc : list node) (n : node) =>
                  b ← node_type_in g ["junction"; "sub_junction"] n;
                  Ret (if (b : bool) then acc ++ [n] else acc)) l acc = Ret r /\
      forall n, n ∈ r <-> n ∈ acc \/ (n ∈ l /\ n ∈ Hier.junction_nodes g)).
  { induction l as [|x l IH]; intros acc Hl.
    - exists acc. split; [reflexivity|]. intros n. split; [auto|].
      intros [H|[H _]]; [exact H | inversion H].
    - cbn [for_each].
      pose proof (junction_nodes_type g x Hnd) as Hx.
      assert (Hxn : x ∈ nodes g) by (apply Hl; left).
      apply od_get_is_Some in Hxn as [en Hen].
      unfold node_type_in in Hx |- * . rewrite Hen in Hx |- *.
      cbn [mbind result_bind rbind].
      destruct (IH (if is_junction_type ["junction"; "sub_junction"] (attrs en)
                    then acc ++ [x] else acc)) as (r & Hr & Hmem).
      { intros n Hn. apply Hl. right. exact Hn. }
      exists r. split; [exact Hr|]. intros n. rewrite Hmem.
      destruct (is_junction_type _ _).
      + rewrite elem_of_app, list_elem_of_singleton, elem_of_cons.
        assert (x ∈ Hier.junction_nodes g) by (apply Hx; reflexivity).
        split; [|tauto]. intros [[?| ->]|[? ?]]; auto.
      + rewrite elem_of_cons.
        assert (x ∉ Hier.junction_nodes g) by (intros H%Hx; discriminate).
        split; [tauto|]. intros [?|[[->|?] ?]]; tauto. }
  destruct (Hloop ns []) as (r & Hr & Hmem).
  { intros n Hn. apply (adjacent_neighbors g j n ns Hns) in Hn.
    eapply wf_graph_closed; eassumption. }
  exists r. split; [exact Hr|]. intros n. rewrite Hmem.
  rewrite (adjacent_neighbors g j n ns Hns).
  split; [intros [H|H]; [inversion H | exact H] | auto].
Qed.

(** X15: [_compute_junction_hierarchy] on a well-formed graph: it returns, it
    stores a list for every junction and for nothing else, the list of a
    junction holds exactly its neighbours that are junctions, and so a
    wire between two junctions puts each of them in the list of the
    other: the lists do not say which of the two is downstream. *)
Theorem junction_hierarchy_both_ways (g : Graph) :
  wf_graph g = true ->
  exists h : list (node * list node),
    compute_junction_hierarchy g = Ret h /\
    (forall j, is_Some (OD.get j h) <-> j ∈ Hier.junction_nodes g) /\
    (forall j l, OD.get j h = Some l ->
       forall n, n ∈ l <-> adjacent g j n /\ n ∈ Hier.junction_nodes g) /\
    (forall j j' l l', OD.get j h = Some l -> OD.get j' h = Some l' ->
       (j' ∈ l <-> j ∈ l')).
Proof.
  intros Hwf. unfold compute_junction_hierarchy.
  assert (Hloop : forall js h, (forall j, j ∈ js -> j ∈ nodes g) ->
    (forall j l, OD.get j h = Some l ->
       forall n, n ∈ l <-> adjacent g j n /\ n ∈ Hier.junction_nodes g) ->
    exists h',
      for_each (fun (h : list (node * list node)) (junction : node) =>
                  l ← sub_junctions g junction; Ret (OD.set junction l h)) js h = Ret h' /\
      (forall j, is_Some (OD.get j h') <-> is_Some (OD.get j h) \/ j ∈ js) /\
      (forall j l, OD.get j h' = Some l ->
         forall n, n ∈ l <-> adjacent g j n /\ n ∈ Hier.junction_nodes g)).
  { induction js as [|x js IH]; intros h Hjs Hh.
    - exists h. split; [reflexivity|]. split; [|exact Hh].
      intros j. split; [auto|]. intros [H|H]; [exact H | inversion H].
    - cbn [for_each].
      destruct (sub_junctions_spec g x Hwf (Hjs x ltac:(left))) as (l & -> & Hl).
      cbn [mbind result_bind rbind].
      destruct (IH (OD.set x l h)) as (h' & Hrun & Hkeys & Hlists).
      { intros j Hj. apply Hjs. right. exact Hj. }
      { intros j l0. rewrite od_get_set. destruct (decide (j = x)) as [->|Hne].
        - intros [= <-]. exact Hl.
        - apply Hh. }
      exists h'. split; [exact Hrun|]. split; [|exact Hlists].
      intros j. rewrite Hkeys, od_get_set, elem_of_cons.
      destruct (decide (j = x)) as [->|Hne].
      + split; [auto|]. intros _. left. eauto.
      + tauto. }
  destruct (Hloop (Hier.junction_nodes g) []) as (h & Hrun & Hkeys & Hlists).
  { intros j. apply junction_nodes_are_nodes. }
  { intros j l H. discriminate. }
  assert (Hkeys' : forall j, is_Some (OD.get j h) <-> j ∈ Hier.junction_nodes g).
  { intros j. rewrite Hkeys. split; [|auto].
    intros [[? H]|H]; [discriminate | exact H]. }
  exists h. split; [exact Hrun|]. split; [|split].
  - exact Hkeys'.
  - exact Hlists.
  - intros j j' l l' Hj Hj'.
    rewrite (Hlists j l Hj j'), (Hlists j' l' Hj' j).
    assert (Hjn : j ∈ Hier.junction_nodes g) by (apply Hkeys'; eauto).
    assert (Hjn' : j' ∈ Hier.junction_nodes g) by (apply Hkeys'; eauto).
    split; intros [Hadj _]; (split; [apply wf_graph_back; assumption | assumption]).
Qed.

(** On the sample harness of [gui.py], with its sub-junctions. *)
Lemma junction_hierarchy_both_ways_sample :
  exists h : list (node * list node),
    compute_junction_hierarchy (load_sample_data_sub true) = Ret h /\
    (forall j j' l l', OD.get j h = Some l -> OD.get j' h = Some l' ->
       (j' ∈ l <-> j ∈ l')).
Proof.
  destruct (junction_hierarchy_both_ways (load_sample_data_sub true))
    as (h & Hrun & _ & _ & Hsym).
  - vm_compute; reflexivity.
  - exists h. split; [exact Hrun | exact Hsym].
Defined.

(** ** Shortest paths in both directions *)

Lemma edge_length_sym (g : Graph) (u v : node) :
  wf_graph g = true -> edge_length g (u, v) = edge_length g (v, u).
Proof.
  intros Hwf. unfold edge_length. simpl.
  destruct (get_edge g u v) as [e|] eqn:Huv.
  - rewrite (wf_graph_sym g u v e Hwf Huv). reflexivity.
  - destruct (get_edge g v u) as [e|] eqn:Hvu; [|reflexivity].
    rewrite (wf_graph_sym g v u e Hwf Hvu) in Huv. discriminate.
Qed.

(** A walk read backwards is a walk of the same weight. *)
Lemma walk_rev (g : Graph) (s t : node) (p : list node) :
  wf_graph g = true -> walk g s t p ->
  walk g t s (rev p) /\ (path_weight g (rev p) == path_weight g p)%Q.
Proof.
  intros Hwf. revert s. induction p as [|a p IH]; intros s Hw.
  - destruct Hw as [H _]. discriminate.
  - pose proof Hw as (Hhead & Hlast & _). injection Hhead as ->.
    destruct p as [|y p].
    + injection Hlast as ->. split; [apply walk_single | reflexivity].
    + destruct (walk_cons_inv g s t y p Hw) as [Hadj Hw'].
      destruct (IH y Hw') as [Hrev Hweight].
      change (rev (s :: y :: p)) with (rev (y :: p) ++ [s]).
      split.
      * eapply walk_snoc; [exact Hrev|]. apply wf_graph_back; assumption.
      * rewrite (path_weight_snoc g (rev (y :: p)) y s) by apply Hrev.
        rewrite path_weight_cons, Hweight, (edge_length_sym g y s Hwf). ring.
Qed.

(** X4, in exact arithmetic: on a well-formed graph without negative
    lengths the answer of [find_optimal_path] does not depend on the
    direction: where it finds a path from the source to the target it finds
    one of the same length from the target to the source, and where it
    finds none from a target that is a node it finds none back.  (In
    binary64 the two sums are added up in opposite orders and can differ in
    the last place.) *)
Theorem find_optimal_path_both_directions (g : Graph) (source target : node) :
  wf_graph g = true -> nonneg_lengths g = true ->
  (forall p q, find_optimal_path g source target = Ret (Some p, Finite q) ->
     exists p' q', find_optimal_path g target source = Ret (Some p', Finite q') /\
                   (q' == q)%Q) /\
  (target ∈ nodes g -> find_optimal_path g source target = Ret (None, PosInf) ->
     find_optimal_path g target source = Ret (None, PosInf)).
Proof.
  intros Hwf Hnn. split.
  - intros p q Hrun.
    destruct (find_optimal_path_outcome g source target Hwf Hnn)
      as [[_ Hr]|[(_ & _ & Hr)|(Hs & p0 & w0 & Hr & Hwalk & Hweight & Hopt)]];
      rewrite Hr in Hrun; try discriminate.
    injection Hrun as <- <-.
    destruct (walk_rev g source target p0 Hwf Hwalk) as [Hback Hwback].
    pose proof (walk_reachable g _ _ _ Hwalk) as Hreach.
    destruct (find_optimal_path_outcome g target source Hwf Hnn)
      as [[Ht _]|[(_ & Hno & _)|(_ & p' & w' & Hr' & Hwalk' & Hweight' & Hopt')]].
    + exfalso. apply Ht. eapply reachable_stays_in_graph; eassumption.
    + exfalso. apply Hno. apply reachable_sym; assumption.
    + exists p', w'. split; [exact Hr'|].
      destruct (walk_rev g target source p' Hwf Hwalk') as [Hforth Hwforth].
      apply Qle_antisym.
      * rewrite <- Hweight, <- Hwback. apply Hopt', Hback.
      * rewrite <- Hweight', <- Hwforth. apply Hopt, Hforth.
  - intros Ht Hrun.
    destruct (find_optimal_path_outcome g source target Hwf Hnn)
      as [[_ Hr]|[(_ & Hno & Hr)|(_ & p0 & w0 & Hr & _)]];
      rewrite Hr in Hrun; try discriminate.
    destruct (find_optimal_path_outcome g target source Hwf Hnn)
      as [[Ht' _]|[(_ & _ & Hr')|(_ & p' & w' & _ & Hwalk' & _)]].
    + contradiction.
    + exact Hr'.
    + exfalso. apply Hno. apply reachable_sym; [exact Hwf|].
      eapply walk_reachable, Hwalk'.
Qed.

(** On the sample harness, from Actuator2 back to the ECU. *)
Lemma find_optimal_path_both_directions_sample :
  exists p' q', find_optimal_path load_sample_data "Actuator2" "ECU"
                = Ret (Some p', Finite q') /\ (q' == 4.600)%Q.
Proof.
  destruct (find_optimal_path_both_directions load_sample_data "ECU" "Actuator2")
    as [H _].
  - exact sample_is_wf.
  - vm_compute; reflexivity.
  - apply (H ["ECU"; "Junction1"; "Junction2"; "Actuator2"] 4.600%Q).
    exact sample_optimal_path.
Defined.

(** ** The diameter of a path, in closed form *)

Lemma rsum_nonneg (l : list R) : (forall x, x ∈ l -> 0 <= x) -> 0 <= rsum l.
Proof.
  induction l as [|x l IH]; intros Hl.
  - rewrite rsum_nil. lra.
  - rewrite rsum_cons.
    assert (0 <= x) by (apply Hl; left).
    assert (0 <= rsum l) by (apply IH; intros y Hy; apply Hl; right; exact Hy).
    lra.
Qed.

Lemma rsum_areas (ws : list R) :
  rsum (map area_of ws) = PI / 4 * rsum (map (fun w => w ^ 2) ws).
Proof.
  induction ws as [|w ws IH]; cbn [map]; cbn beta.
  - rewrite !rsum_nil. lra.
  - rewrite !rsum_cons, IH. unfold area_of. field.
Qed.

Lemma rsum_squares_le (ws : list R) :
  (forall w, w ∈ ws -> 0 <= w) ->
  rsum (map (fun w => w ^ 2) ws) <= rsum ws ^ 2.
Proof.
  induction ws as [|w ws IH]; intros Hpos; cbn [map]; cbn beta.
  - rewrite !rsum_nil. lra.
  - rewrite !rsum_cons.
    assert (Hw : 0 <= w) by (apply Hpos; left).
    assert (Hrest : forall x, x ∈ ws -> 0 <= x) by (intros x Hx; apply Hpos; right; exact Hx).
    pose proof (rsum_nonneg ws Hrest) as Hs.
    specialize (IH Hrest). nra.
Qed.

Lemma rsum_squares_ge (ws : list R) (w : R) :
  w ∈ ws -> w ^ 2 <= rsum (map (fun w => w ^ 2) ws).
Proof.
  induction ws as [|x ws IH]; intros Hin; [inversion Hin|].
  cbn [map]; cbn beta. rewrite rsum_cons.
  assert (Hrest : 0 <= rsum (map (fun w => w ^ 2) ws)).
  { apply rsum_nonneg. intros y (z & -> & _)%list_elem_of_fmap. apply pow2_ge_0. }
  apply elem_of_cons in Hin as [->|Hin].
  - lra.
  - specialize (IH Hin). pose proof (pow2_ge_0 x). lra.
Qed.

(** X10: In path mode the bundle diameter is the root of the sum of the
    squared conductor diameters of the wires along the path, one conductor
    per wire whatever its signals: at least the diameter of the thickest
    conductor, at most the sum of the conductor diameters. *)
Theorem path_diameter_root_sum_square (g : Graph) (n : node) (p : list node)
    (gs : list Z) :
  path_gauges g (n :: p) = map Some gs ->
  let d := sqrt (rsum (map (fun ga => wire_diameter ga ^ 2) gs)) in
  Simple.estimate_bundle_diameter g (Some (n :: p)) = Ret (BundleDiameter d) /\
  (forall h, Hier.estimate_bundle_diameter g (Some (n :: p)) h = Ret (BundleDiameter d)) /\
  (forall ga, ga ∈ gs -> wire_diameter ga <= d) /\
  d <= rsum (map wire_diameter gs).
Proof.
  intros Hgs d.
  assert (Hsq : map (fun ga => wire_diameter ga ^ 2) gs
                = map (fun w => w ^ 2) (map wire_diameter gs)).
  { rewrite map_map. reflexivity. }
  assert (Hpos : forall w, w ∈ map wire_diameter gs -> 0 <= w).
  { intros w (ga & -> & _)%list_elem_of_fmap. left. apply wire_diameter_pos. }
  assert (Hrun : path_bundle_diameter g (n :: p) = Ret d).
  { destruct (path_bundle_diameter_gauges g (n :: p)) as [H _].
    rewrite (H gs Hgs). f_equal. subst d. rewrite rsum_areas, Hsq.
    set (s := rsum _).
    assert (Hs : 0 <= s).
    { apply rsum_nonneg. intros y (z & -> & _)%list_elem_of_fmap. apply pow2_ge_0. }
    unfold diameter_of. pose proof PI_RGT_0 as Hpi.
    replace (PI / 4 * s / PI) with (s * (/ 2) ^ 2) by (field; lra).
    rewrite sqrt_mult_alt by exact Hs.
    rewrite sqrt_pow2 by lra. lra. }
  split; [|split; [|split]].
  - unfold Simple.estimate_bundle_diameter. rewrite Hrun. reflexivity.
  - intros h. unfold Hier.estimate_bundle_diameter. rewrite Hrun. reflexivity.
  - intros ga Hga. subst d. rewrite Hsq.
    rewrite <- (sqrt_pow2 (wire_diameter ga)) at 1 by (left; apply wire_diameter_pos).
    apply sqrt_le_1_alt.
    apply (rsum_squares_ge (map wire_diameter gs) (wire_diameter ga)).
    apply list_elem_of_fmap. eauto.
  - subst d. rewrite Hsq.
    rewrite <- (sqrt_pow2 (rsum (map wire_diameter gs))) by (apply rsum_nonneg, Hpos).
    apply sqrt_le_1_alt, rsum_squares_le, Hpos.
Qed.

(** The optimal path of the sample harness: wires of gauge 18, 20 and 16. *)
Lemma path_diameter_root_sum_square_sample :
  Simple.estimate_bundle_diameter load_sample_data
    (Some ["ECU"; "Junction1"; "Junction2"; "Actuator2"])
  = Ret (BundleDiameter
           (sqrt (rsum (map (fun ga => wire_diameter ga ^ 2) [18; 20; 16]%Z)))).
Proof.
  assert (Hgs : path_gauges load_sample_data ["ECU"; "Junction1"; "Junction2"; "Actuator2"]
                = map Some [18; 20; 16]%Z) by (vm_compute; reflexivity).
  pose proof (path_diameter_root_sum_square load_sample_data "ECU"
                ["Junction1"; "Junction2"; "Actuator2"] [18; 20; 16]%Z Hgs) as H.
  cbv zeta in H. destruct H as [H _]. exact H.
Defined.

(** ** The two analyzers on a tree *)

Lemma num_junctions_agree (g : Graph) :
  (forall ne, ne ∈ g -> n_type (attrs ne.2) <> Some "sub_junction") ->
  Hier.num_junctions g = Simple.num_junctions g.
Proof.
  unfold Hier.num_junctions, Simple.num_junctions, Hier.junction_nodes.
  rewrite length_fmap. intros Hno.
  assert (Heq : filter (fun ne : node * entry =>
                          is_junction_type ["junction"; "sub_junction"] (attrs ne.2)) g
                = filter (fun ne : node * entry =>
                            is_junction_type ["junction"] (attrs ne.2)) g).
  { induction g as [|ne g IH]; [reflexivity|].
    unfold Graph. rewrite !filter_cons_bool.
    assert (Hty : is_junction_type ["junction"; "sub_junction"] (attrs ne.2)
                  = is_junction_type ["junction"] (attrs ne.2)).
    { specialize (Hno ne ltac:(left)). unfold is_junction_type.
      destruct (n_type (attrs ne.2)) as [t|]; [|reflexivity].
      apply bool_decide_ext. rewrite !elem_of_cons, elem_of_nil.
      split; [intros [?|[->|[]]]; [auto | congruence] | intros [?|[]]; auto]. }
    unfold Graph in IH. rewrite IH by (intros x Hx; apply Hno; right; exact Hx).
    rewrite Hty. reflexivity. }
  rewrite Heq. reflexivity.
Qed.

Lemma constant_map_summary (m : dmap) (c : R) :
  m <> ∅ ->
  Hier.mean_or_zero ((fun _ => c) <$> m) = Some c /\
  Hier.min_or_zero ((fun _ => c) <$> m) = Ret c.
Proof.
  intros Hm. set (m' := (fun _ : R => c) <$> m).
  assert (Hne : m' <> ∅) by (intros H; apply fmap_empty_iff in H; contradiction).
  assert (Hall : forall x, x ∈ values m' -> c <= x <= c).
  { intros x (k & Hk)%elem_of_values. subst m'.
    apply lookup_fmap_Some in Hk as (y & <- & _). lra. }
  pose proof (values_nonempty m' Hne) as Hv.
  unfold Hier.mean_or_zero, Hier.min_or_zero.
  rewrite !bool_decide_eq_false_2 by exact Hne.
  destruct (np_mean_bounds c c _ Hv Hall) as (avg & -> & Havg).
  destruct (min_of_spec _ Hv) as (mn & -> & Hin & _).
  apply Hall in Hin. split; f_equal; lra.
Qed.

(** X14: On a tree-shaped harness with a wire and without sub-junctions the
    analyzer of [gui.py] agrees with the analyzer of [harness_analyzer.py]:
    the same installation complexity, and a report with the same six
    entries, to which it adds the number of junctions and a space
    utilization that is 100 on average and at least. *)
Theorem analyzers_agree_on_trees (g : Graph) :
  wf_graph g = true -> connected g -> S (number_of_edges g) = number_of_nodes g ->
  number_of_edges g <> 0%nat ->
  (forall n en, OD.get n g = Some en -> n_type (attrs en) <> Some "sub_junction") ->
  Hier.estimate_installation_complexity g None
  = Simple.estimate_installation_complexity g None /\
  exists nodes edges len avg mx c : value,
    Simple.generate_report g
    = Ret [ ("Total Components", nodes);
            ("Total Connections", edges);
            ("Total Wire Length (m)", len);
            ("Average Bundle Diameter (mm)", avg);
            ("Maximum Bundle Diameter (mm)", mx);
            ("Installation Complexity (1-10)", c) ] /\
    Hier.generate_report g true
    = Ret [ ("Total Components", nodes);
            ("Total Connections", edges);
            ("Number of Junctions", VInt (Simple.num_junctions g));
            ("Total Wire Length (m)", len);
            ("Average Bundle Diameter (mm)", avg);
            ("Maximum Bundle Diameter (mm)", mx);
            ("Installation Complexity (1-10)", c);
            ("Average Space Utilization (%)", VFloat (Some 100));
            ("Minimum Space Utilization (%)", VFloat (Some 100)) ].
Proof.
  intros Hwf Hconn Htree He Hno.
  pose proof (hierarchical_diameters_tree g Hwf Hconn Htree) as Hrun.
  assert (Hedges : edges g <> []).
  { intros H. apply He. unfold number_of_edges. rewrite H. reflexivity. }
  pose proof (base_diameters_nonempty g Hedges) as Hbase.
  assert (Hnj : Hier.num_junctions g = Simple.num_junctions g).
  { apply num_junctions_agree. intros [n en] Hin. simpl.
    apply (Hno n en), od_elem_get; [apply wf_graph_nodup, Hwf | exact Hin]. }
  assert (Hc : Hier.estimate_installation_complexity g None
               = Simple.estimate_installation_complexity g None).
  { unfold Hier.estimate_installation_complexity, Hier.whole_complexity,
      Simple.estimate_installation_complexity, Simple.whole_complexity.
    rewrite Hrun. cbn [mbind result_bind rbind fst].
    unfold Hier.mean_or_zero. rewrite bool_decide_eq_false_2 by exact Hbase.
    rewrite Hnj. reflexivity. }
  split; [exact Hc|].
  destruct (max_of_spec _ (values_nonempty _ Hbase)) as (mx & Hmx & _).
  destruct (constant_map_summary (base_diameters g) 100 Hbase) as [Hau Hmn].
  eexists _, _, _, _, _, _. split.
  - unfold Simple.generate_report. rewrite Hmx. cbn [mbind result_bind rbind].
    unfold Simple.estimate_installation_complexity. cbn [mbind result_bind rbind].
    reflexivity.
  - unfold Hier.generate_report. rewrite Hrun. cbn [mbind result_bind rbind fst snd].
    unfold Hier.max_or_zero. rewrite bool_decide_eq_false_2 by exact Hbase.
    rewrite Hmx, Hmn, Hc, Hau. cbn [mbind result_bind rbind].
    unfold Simple.estimate_installation_complexity. cbn [mbind result_bind rbind].
    unfold Hier.mean_or_zero. rewrite bool_decide_eq_false_2 by exact Hbase.
    rewrite Hnj, (py_round_IZR 100 1). reflexivity.
Qed.

(** The sample harness of [harness_analyzer.py] is such a tree. *)
Lemma analyzers_agree_on_trees_sample :
  Hier.estimate_installation_complexity load_sample_data None
  = Simple.estimate_installation_complexity load_sample_data None.
Proof.
  apply (analyzers_agree_on_trees load_sample_data).
  - exact sample_is_wf.
  - exact sample_connected.
  - vm_compute; reflexivity.
  - vm_compute; discriminate.
  - intros n en Hen Hty. apply od_get_Some_elem, list_elem_of_In in Hen.
    assert (Hall : forallb (fun ne : node * entry =>
                              negb (bool_decide (n_type (attrs ne.2) = Some "sub_junction")))
                           load_sample_data = true) by (vm_compute; reflexivity).
    rewrite forallb_forall in Hall. apply Hall in Hen. simpl in Hen.
    rewrite bool_decide_eq_true_2 in Hen by exact Hty. discriminate.
Defined.

(** ** The average diameter in the complexity *)

Lemma base_diameter_one_signal (wt : string) (ga : Z) (len : Q) (s : string) :
  base_diameter (mk_edge wt ga len [s]) = wire_diameter ga.
Proof.
  rewrite base_diameter_closed_form. unfold num_signals. cbn [e_signals mk_edge length e_gauge].
  cbn [default from_option]. unfold Datatypes.id. simpl INR. rewrite sqrt_1. lra.
Qed.

(** C7 at its failing inputs.  On the harness with a loop the analyzer
    of [gui.py] averages the four entries of the diameter mapping, in which
    the updated wire B-J counts twice, and the complexity it returns is not
    the one computed from the average diameter of the three segments.  On a
    graph that is one junction and no wire the analyzer of
    [harness_analyzer.py] returns 1, whatever average the formula is given,
    where the formula gives 1.5 and the analyzer of [gui.py] returns 1.5. *)
Theorem complexity_divergences :
  (let g := loop_harness ["S2"] in
   exists (sd su : dmap) (c : R),
     Hier.estimate_bundle_diameter g None true = Ret (WithUtilization sd su) /\
     Hier.estimate_installation_complexity g None = Ret (Some c) /\
     c <> Rmin 10 (Rmax 1 (Q2R (calculate_total_length g)
                            * average_segment_diameter g sd * 0.5
                            + INR (Hier.num_junctions g) * 1.5))) /\
  (let g := add_nodes_from empty_graph [("J", mk_node "junction" 0 0)] in
   Simple.estimate_installation_complexity g None = Ret (Some 1) /\
   Hier.estimate_installation_complexity g None = Ret (Some 1.5) /\
   forall a : R,
     Rmin 10 (Rmax 1 (Q2R (calculate_total_length g) * a * 0.5
                      + INR (Simple.num_junctions g) * 1.5)) = 1.5).
Proof.
  split.
  - intros g.
    destruct (loop_harness_run ["S2"]) as (_ & _ & _ & _ & _ & Hrun). fold g in Hrun.
    set (eAJ := mk_edge "power" 18 1.0 ["P1"]) in *.
    set (eAB := mk_edge "signal" 22 1.0 ["S1"]) in *.
    set (eBJ := mk_edge "signal" 20 1.0 ["S2"]) in *.
    set (nd := diameter_of (segment_area eBJ + segment_area eAB)) in *.
    assert (H1 : base_diameter eAJ = 1.02).
    { unfold eAJ. rewrite base_diameter_one_signal. unfold wire_diameter, Q2R. simpl. lra. }
    assert (H2 : base_diameter eAB = 0.64).
    { unfold eAB. rewrite base_diameter_one_signal. unfold wire_diameter, Q2R. simpl. lra. }
    assert (Hnd : 1 <= nd <= 2).
    { pose proof PI_RGT_0 as Hpi.
      assert (Ha : segment_area eBJ + segment_area eAB = 1.0657 / 4 * PI).
      { unfold segment_area, eBJ, eAB, num_signals, wire_diameter, Q2R. simpl. field. }
      unfold nd. rewrite Ha. split.
      - rewrite <- (diameter_of_area_of 1) at 1 by lra.
        apply diameter_of_mono; [apply area_of_nonneg|]. unfold area_of. nra.
      - rewrite <- (diameter_of_area_of 2) by lra.
        apply diameter_of_mono; [nra|]. unfold area_of. nra. }
    set (sd0 := <[("B", "J") := base_diameter eBJ]>
                  (<[("A", "B") := base_diameter eAB]>
                     (<[("A", "J") := base_diameter eAJ]> (∅ : dmap)))) in *.
    set (sd := <[("B", "J") := nd]> (<[("J", "B") := nd]> sd0)) in *.
    assert (Hsd : sd = <[("B", "J") := nd]> (<[("J", "B") := nd]>
                         (<[("A", "B") := base_diameter eAB]>
                            (<[("A", "J") := base_diameter eAJ]> ∅)))).
    { unfold sd, sd0.
      rewrite (insert_insert_ne _ ("J", "B") ("B", "J")) by compute_done.
      rewrite insert_insert_eq. reflexivity. }
    assert (Hvals : values sd ≡ₚ [nd; nd; base_diameter eAB; base_diameter eAJ]).
    { rewrite Hsd.
      rewrite values_insert_fresh
        by (rewrite 3!lookup_insert_ne by compute_done; apply lookup_empty).
      rewrite values_insert_fresh
        by (rewrite 2!lookup_insert_ne by compute_done; apply lookup_empty).
      rewrite values_insert_fresh
        by (rewrite lookup_insert_ne by compute_done; apply lookup_empty).
      rewrite values_insert_fresh by apply lookup_empty.
      reflexivity. }
    assert (Hne : sd <> ∅).
    { intros Hempty. apply (f_equal (fun m : dmap => m !! ("B", "J"))) in Hempty.
      unfold sd in Hempty. rewrite lookup_insert_eq, lookup_empty in Hempty. discriminate. }
    assert (Hmean : Hier.mean_or_zero sd
                    = Some ((nd + nd + base_diameter eAB + base_diameter eAJ) / 4)).
    { unfold Hier.mean_or_zero. rewrite bool_decide_eq_false_2 by exact Hne.
      rewrite np_mean_nonempty by (apply values_nonempty, Hne).
      rewrite (rsum_perm _ _ Hvals), (Permutation_length Hvals).
      rewrite !rsum_cons, rsum_nil. f_equal. simpl. field. }
    assert (Hlen : Q2R (calculate_total_length g) = 3).
    { assert (Hq : (calculate_total_length g == 3)%Q) by (vm_compute; reflexivity).
      rewrite (Qeq_eqR _ _ Hq). unfold Q2R. simpl. lra. }
    assert (Hnj : Hier.num_junctions g = 1%nat) by (vm_compute; reflexivity).
    assert (Hedges : edges g = [("A", "J", eAJ); ("A", "B", eAB); ("B", "J", eBJ)])
      by (vm_compute; reflexivity).
    assert (Havg : average_segment_diameter g sd
                   = (base_diameter eAJ + base_diameter eAB + nd) / 3).
    { unfold average_segment_diameter, number_of_edges. rewrite Hedges.
      cbn [map length fst snd]. unfold Hier.current_diameter.
      assert (KAJ : sd !! ("A", "J") = Some (base_diameter eAJ)).
      { rewrite Hsd. rewrite 3!lookup_insert_ne by compute_done. apply lookup_insert_eq. }
      assert (KAB : sd !! ("A", "B") = Some (base_diameter eAB)).
      { rewrite Hsd. rewrite 2!lookup_insert_ne by compute_done. apply lookup_insert_eq. }
      assert (KBJ : sd !! ("B", "J") = Some nd) by (unfold sd; apply lookup_insert_eq).
      rewrite KAJ, KAB, KBJ. cbn [default from_option]. unfold Datatypes.id.
      rewrite !rsum_cons, rsum_nil. simpl. field. }
    exists sd, (<[("B", "J") := segment_area eBJ / (segment_area eBJ + segment_area eAB) * 100]>
                  (<[("J", "B") := segment_area eBJ / (segment_area eBJ + segment_area eAB) * 100]> ∅)).
    eexists. split.
    { unfold Hier.estimate_bundle_diameter. rewrite Hrun. reflexivity. }
    split.
    { unfold Hier.estimate_installation_complexity, Hier.whole_complexity.
      rewrite Hrun. cbn [mbind result_bind rbind fst snd]. fold sd.
      rewrite Hmean. cbn [fmul fadd mbind option_bind]. rewrite clamp_value. reflexivity. }
    rewrite Havg, Hlen, Hnj, H1, H2. simpl INR.
    unfold Rmin, Rmax.
    repeat (destruct (Rle_dec _ _)); lra.
  - intros g.
    assert (Hq : Q2R (calculate_total_length g) = 0).
    { assert (Hq : (calculate_total_length g == 0)%Q) by (vm_compute; reflexivity).
      rewrite (Qeq_eqR _ _ Hq). unfold Q2R. simpl. lra. }
    assert (Hclamp : Rmin 10 (Rmax 1 1.5) = 1.5).
    { unfold Rmin, Rmax. repeat (destruct (Rle_dec _ _)); lra. }
    split; [|split].
    + unfold Simple.estimate_installation_complexity, Simple.whole_complexity.
      change (Ret (clamp None) = Ret (Some 1)). f_equal.
      unfold clamp, py_max, py_min. destruct (Rlt_dec 1 10); [reflexivity | lra].
    + assert (Hrun : Hier.hierarchical_diameters g = Ret (∅, ∅)) by reflexivity.
      unfold Hier.estimate_installation_complexity, Hier.whole_complexity.
      rewrite Hrun. cbn [mbind result_bind rbind fst snd].
      unfold Hier.mean_or_zero. rewrite bool_decide_eq_true_2 by reflexivity.
      cbn [fmul fadd mbind option_bind]. rewrite clamp_value. f_equal. f_equal.
      assert (Hnj : Hier.num_junctions g = 1%nat) by reflexivity.
      rewrite Hq, Hnj. simpl INR. rewrite <- Hclamp at 2. f_equal. f_equal. lra.
    + intros a. assert (Hnj : Simple.num_junctions g = 1%nat) by reflexivity.
      rewrite Hq, Hnj. simpl INR. rewrite <- Hclamp at 2. f_equal. f_equal. lra.
Qed.

(** ** Rounding *)

Module Rounding.
Import PrimFloat.

(** C2 as stated fails in binary64.  On the harness whose wire B-J has 34
    signals on 16 AWG and whose other wires carry no signal, B-J is updated
    at J with a downstream area of 0, and the diameter recomputed from the
    area of its base diameter, 7.5219279443504368, is one unit in the last
    place below the base diameter, 7.5219279443504377. *)
Lemma binary64_diameter_below_base :
  Hier.get_downstream_edges ulp_harness "J" = Ret [("J", "A"); ("A", "B")] /\
  B64.total_downstream_area (B64.base_diameters ulp_harness) [("J", "A"); ("A", "B")]
  = 0%float /\
  OD.get ("B", "J") (B64.base_diameters ulp_harness)
  = Some 0x1.e1674476f6a2p+2%float /\
  exists sd su : B64.fdict,
    B64.hierarchical_diameters ulp_harness = Ret (sd, su) /\
    OD.get ("B", "J") sd = Some 0x1.e1674476f6a1fp+2%float /\
    (0x1.e1674476f6a1fp+2 <? 0x1.e1674476f6a2p+2)%float = true.
Proof.
  split; [vm_compute; reflexivity|].
  split; [vm_compute; reflexivity|].
  split; [vm_compute; reflexivity|].
  eexists _, _.
  split; [vm_compute; reflexivity|].
  split; [vm_compute; reflexivity|].
  vm_compute; reflexivity.
Qed.

End Rounding.
